(** * rar_native: the libarchive shim behind the RAR plugin

    A shallow embedding of [src/rar_native.c] and [src/rar_native.h]:
    the error-message table, the directory helpers, the mapping of
    libarchive errors to the plugin's codes, and the two entry points
    [rar_extract] and [rar_list]; and of the one method handler of
    [windows/rar_plugin.cpp].

    libarchive and the C library are external to the repository.  Their
    answers are taken from an environment ([env]): which allocations
    succeed, which [mkdir] calls the system refuses, and, for each file,
    what the archive reader and the disk writer return call by call.
    Every call that leaves the program (a callback, [mkdir], the opening
    of the archive, a header handed to the disk writer) is appended to a
    trace, so that what the program did, and in which order, can be read
    off the final state.

    What the disk writer does with the headers and the blocks it is
    handed (the files it creates, replaces or fills) is libarchive's
    business and is not followed: the trace records the calls and their
    results.  The disk of the model is the disk as [fopen] and [mkdir]
    find it and as [mkdir] leaves it.  Once the disk writer has been
    called the real disk may hold more than that; the only calls the
    program makes to the disk from then on are the [mkdir] calls between
    entries, whose results it does not look at.  Paths are compared as
    strings: two spellings of one path count as two paths. *)

From Stdlib Require Import ZArith List String Ascii Bool Lia.
Import ListNotations.
Local Open Scope string_scope.
Local Open Scope list_scope.
Local Open Scope Z_scope.

(** ** Constants *)

Module Code.

(** rar_native.h, lines 34-43. *)
Definition RAR_SUCCESS        : Z := 0.
Definition RAR_FILE_NOT_FOUND : Z := 1.
Definition RAR_OPEN_ERROR     : Z := 2.
Definition RAR_CREATE_ERROR   : Z := 3.
Definition RAR_MEMORY_ERROR   : Z := 4.
Definition RAR_BAD_ARCHIVE    : Z := 5.
Definition RAR_UNKNOWN_FORMAT : Z := 6.
Definition RAR_BAD_PASSWORD   : Z := 7.
Definition RAR_BAD_DATA       : Z := 8.
Definition RAR_UNKNOWN_ERROR  : Z := 9.

(** archive.h: the status codes of libarchive. *)
Definition ARCHIVE_EOF    : Z := 1.
Definition ARCHIVE_OK     : Z := 0.
Definition ARCHIVE_RETRY  : Z := -10.
Definition ARCHIVE_WARN   : Z := -20.
Definition ARCHIVE_FAILED : Z := -25.
Definition ARCHIVE_FATAL  : Z := -30.

(** errno.h: the three values the source compares against (the same
    numbers on Linux, macOS and the Windows C runtime). *)
Definition ENOENT : Z := 2.
Definition ENOMEM : Z := 12.
Definition EEXIST : Z := 17.

End Code.
Import Code.

(** ** The error-message table *)

(** [error_messages], rar_native.c lines 39-50. *)
Definition error_messages : list string :=
  [ "Success";
    "RAR file not found";
    "Failed to open RAR archive";
    "Failed to create output file";
    "Memory allocation error";
    "Corrupt or invalid RAR archive";
    "Unknown archive format (not a valid RAR file)";
    "Incorrect password or password required";
    "Data error in archive (CRC check failed)";
    "Unknown error" ].

(** [error_messages[i]] for an index the caller has checked. *)
Definition table_at (i : Z) : string :=
  nth (Z.to_nat i) error_messages "".

(** [rar_get_error_message], rar_native.c lines 53-58. *)
Definition rar_get_error_message (error_code : Z) : string :=
  if (error_code <? 0) || (error_code >? RAR_UNKNOWN_ERROR)
  then table_at RAR_UNKNOWN_ERROR
  else table_at error_code.

(** ** C strings *)

Infix "+++" := String.append (at level 60, right associativity).

Definition strlen (s : string) : Z := Z.of_nat (String.length s).

(** [strstr(haystack, needle) != NULL]. *)
Fixpoint strstr (haystack needle : string) : bool :=
  String.prefix needle haystack ||
  match haystack with
  | EmptyString => false
  | String _ rest => strstr rest needle
  end.

(** [strrchr(s, c)] as the offset of the last occurrence, [None] for NULL. *)
Fixpoint strrchr (s : string) (c : ascii) : option nat :=
  match s with
  | EmptyString => None
  | String x rest =>
      match strrchr rest c with
      | Some i => Some (S i)
      | None => if Ascii.eqb x c then Some O else None
      end
  end.

(** ** What the outside world answers *)

(** The error state of a libarchive handle: [archive_errno] and
    [archive_error_string] (which may be NULL). *)
Record lib_error := LibError {
  err_no  : Z;
  err_str : option string }.

Definition no_error : lib_error := LibError 0 None.

(** One call into libarchive: the status it returns and the error state
    the handle is left in. *)
Record outcome := Outcome {
  code  : Z;
  after : lib_error }.

Definition fine : outcome := Outcome ARCHIVE_OK no_error.

(** One entry of an archive, with the answers libarchive gives while the
    entry is current: its pathname (NULL is possible) and size, what
    skipping its data returns, and on the extraction side what writing
    its header, reading and writing each data block, and finishing the
    entry return.  After the last block of [data_blocks] the reader
    answers ARCHIVE_EOF. *)
Record entry := Entry {
  pathname     : option string;
  size         : Z;
  data_skip    : outcome;
  write_header : outcome;
  data_blocks  : list (outcome * outcome);
  finish_entry : outcome }.

(** One answer of [archive_read_next_header]. *)
Record header := Header {
  next_header : outcome;
  hdr_entry   : entry }.

(** An archive as the reader presents it: the answer to
    [archive_read_open_filename] and the successive answers to
    [archive_read_next_header]; past the end of [headers] the reader
    answers ARCHIVE_EOF. *)
Record archive := Archive {
  open_filename : outcome;
  headers       : list header }.

(** Why the system turns down a call for a reason other than that the
    path exists already, and the errno it sets. *)
Inductive refusal := Eacces | Enoent | Enotdir | Enospc | Erofs.

Definition errno_of (r : refusal) : Z :=
  match r with
  | Eacces => 13 | Enoent => ENOENT | Enotdir => 20 | Enospc => 28 | Erofs => 30
  end.

(** The environment of one run.  [win32] selects the branch of the
    [#ifdef _WIN32] blocks; [heap n] tells whether the n-th allocation of
    the run succeeds; [refuses ds p] tells whether, and why, the system
    turns down a [mkdir] of [p] when the directories [ds] exist (whether
    or not [p] is one of them); [reads p pws] is what the reader makes of
    file [p] with the passphrases [pws] registered. *)
Record env := Env {
  win32   : bool;
  heap    : nat -> bool;
  refuses : list string -> string -> option refusal;
  reads   : string -> list string -> archive }.

(** What the program does to the outside, in the order it does it. *)
Inductive event :=
| Mkdir (path : string) (result : Z)
| ErrorCb (message : string)
| ListCb (filename : string)
| AddPassphrase (password : string)
| OpenFilename (path : string) (result : Z)
| SetOptions (flags : Z)
| WriteHeader (path : string) (result : Z)
| WriteDataBlock (result : Z)
| FinishEntry (result : Z).

Inductive handle := Reader | Writer.

(** The machine state: the directories on disk and the files on disk
    that can be opened for reading (paths compared as strings), [errno],
    the number of allocations made so far, the error state of the two
    libarchive handles, the trace. *)
Record state := State {
  dirs   : list string;
  files  : list string;
  errno  : Z;
  allocs : nat;
  rd_err : lib_error;
  wr_err : lib_error;
  trace  : list event }.

(** ** State passing *)

Definition M (A : Type) : Type := state -> A * state.

Definition ret {A} (a : A) : M A := fun st => (a, st).

Definition bind {A B} (c : M A) (k : A -> M B) : M B :=
  fun st => let (a, st') := c st in k a st'.

Notation "x <- c ;; k" := (bind c (fun x => k))
  (at level 61, c at next level, right associativity).
Notation "c ;;; k" := (bind c (fun _ => k))
  (at level 61, right associativity).

Definition emit (e : event) : M unit := fun st =>
  (tt, State (dirs st) (files st) (errno st) (allocs st) (rd_err st) (wr_err st)
             (trace st ++ [e])).

Definition set_errno (e : Z) : M unit := fun st =>
  (tt, State (dirs st) (files st) e (allocs st) (rd_err st) (wr_err st) (trace st)).

Definition add_dir (p : string) : M unit := fun st =>
  (tt, State (p :: dirs st) (files st) (errno st) (allocs st) (rd_err st) (wr_err st)
             (trace st)).

Definition set_error (h : handle) (e : lib_error) : M unit := fun st =>
  (tt, match h with
       | Reader => State (dirs st) (files st) (errno st) (allocs st) e (wr_err st) (trace st)
       | Writer => State (dirs st) (files st) (errno st) (allocs st) (rd_err st) e (trace st)
       end).

Definition get_error (h : handle) : M lib_error := fun st =>
  (match h with Reader => rd_err st | Writer => wr_err st end, st).

Definition on_disk (p : string) (st : state) : bool :=
  existsb (String.eqb p) (dirs st) || existsb (String.eqb p) (files st).

(** A callback that may be NULL: called only when it is not. *)
Definition call (cb : bool) (e : event) : M unit :=
  if cb then emit e else ret tt.

(** ** The program *)

Section Program.

Variable E : env.

(** [PATH_SEP], rar_native.c lines 25-33. *)
Definition PATH_SEP : ascii := if win32 E then "\"%char else "/"%char.

Definition is_separator (c : ascii) : bool :=
  Ascii.eqb c PATH_SEP || Ascii.eqb c "/"%char.

(** [malloc], [strdup], [archive_read_new], [archive_write_disk_new]:
    the next allocation of the run. *)
Definition alloc : M bool := fun st =>
  (heap E (allocs st),
   State (dirs st) (files st) (errno st) (S (allocs st)) (rd_err st) (wr_err st)
         (trace st)).

(** [fopen(path, "rb") != NULL].  One of the files on disk opens.  A
    directory opens too where the C library opens directories for
    reading, which it does except on Windows, where the call fails with
    EACCES.  A path with nothing behind it does not open and [errno] is
    ENOENT.  A successful call leaves [errno] alone. *)
Definition fopen_rb (path : string) : M bool := fun st =>
  if existsb (String.eqb path) (files st) then (true, st)
  else if existsb (String.eqb path) (dirs st) then
    if win32 E then (set_errno (errno_of Eacces) ;;; ret false) st
    else (true, st)
  else (set_errno ENOENT ;;; ret false) st.

(** [mkdir(path, 0755)] (or [_mkdir(path)]).  Where a file that can be
    read sits at the path the answer is EEXIST.  Otherwise the system may
    turn the call down, whether a directory is there already or not (a
    parent that may not be searched, a read-only file system, ...); where
    it does not, a directory that is there gives EEXIST and one that is
    not is created.  A successful call leaves [errno] alone. *)
Definition mkdir (path : string) : M Z := fun st =>
  if existsb (String.eqb path) (files st)
  then (emit (Mkdir path (-1)) ;;; set_errno EEXIST ;;; ret (-1)) st
  else match refuses E (dirs st) path with
       | Some why => (emit (Mkdir path (-1)) ;;; set_errno (errno_of why) ;;; ret (-1)) st
       | None =>
           if existsb (String.eqb path) (dirs st)
           then (emit (Mkdir path (-1)) ;;; set_errno EEXIST ;;; ret (-1)) st
           else (emit (Mkdir path 0) ;;; add_dir path ;;; ret 0) st
       end.

(** rar_native.c lines 67-72: the drive letter, skipped on Windows only.
    The pair is the part of the path behind [p] and the part from [p] on. *)
Definition skip_drive (path : string) : string * string :=
  if win32 E then
    match path with
    | String c0 (String c1 rest) =>
        if Ascii.eqb c1 ":"%char then (String c0 (String c1 ""), rest) else ("", path)
    | _ => ("", path)
    end
  else ("", path).

(** rar_native.c line 75: one leading separator is skipped. *)
Definition skip_separator (at_p : string * string) : string * string :=
  match snd at_p with
  | String c rest =>
      if Ascii.eqb c PATH_SEP then (fst at_p +++ String c "", rest) else at_p
  | EmptyString => at_p
  end.

(** rar_native.c lines 77-95: at every separator from [p] on, the path up
    to that separator is created; the result of [mkdir] is not looked at. *)
Fixpoint create_parents (behind ahead : string) : M unit :=
  match ahead with
  | EmptyString => ret tt
  | String c rest =>
      if is_separator c
      then mkdir behind ;;; create_parents (behind +++ String c "") rest
      else create_parents (behind +++ String c "") rest
  end.

(** [create_directory_recursive], rar_native.c lines 61-108. *)
Definition create_directory_recursive (path : string) : M Z :=
  path_copy <- alloc ;;
  if negb path_copy then ret (-1) else
  let at_p := skip_separator (skip_drive path) in
  create_parents (fst at_p) (snd at_p) ;;;
  result <- mkdir path ;;
  fun st => (if (result =? 0) || (errno st =? EEXIST) then 0 else -1, st).

(** [get_parent_directory], rar_native.c lines 111-126; [None] is NULL. *)
Definition get_parent_directory (path : string) : M (option string) :=
  result <- alloc ;;
  if negb result then ret None else
  let last_sep :=
    match strrchr path PATH_SEP with
    | Some i => Some i
    | None => strrchr path "/"%char
    end in
  ret (Some match last_sep with
            | Some (S i) => substring 0 (S i) path
            | _ => path
            end).

(** [copy_data], rar_native.c lines 129-143, over the answers the two
    handles give block by block. *)
Fixpoint copy_data (blocks : list (outcome * outcome)) : M Z :=
  match blocks with
  | [] => ret ARCHIVE_OK
  | (rd, wr) :: rest =>
      set_error Reader (after rd) ;;;
      if code rd =? ARCHIVE_EOF then ret ARCHIVE_OK
      else if negb (code rd =? ARCHIVE_OK) then ret (code rd)
      else
        set_error Writer (after wr) ;;;
        emit (WriteDataBlock (code wr)) ;;;
        if negb (code wr =? ARCHIVE_OK) then ret (code wr)
        else copy_data rest
  end.

(** The classification of [map_archive_error], rar_native.c lines
    154-176. *)
Definition classify (e : lib_error) : Z :=
  if err_no e =? ENOENT then RAR_FILE_NOT_FOUND
  else if err_no e =? ENOMEM then RAR_MEMORY_ERROR
  else match err_str e with
       | Some s =>
           if strstr s "password" || strstr s "Password" ||
              strstr s "encrypted" || strstr s "Encrypted"
           then RAR_BAD_PASSWORD
           else if strstr s "corrupt" || strstr s "Corrupt" ||
                   strstr s "invalid" || strstr s "Invalid"
           then RAR_BAD_ARCHIVE
           else if strstr s "CRC" || strstr s "checksum"
           then RAR_BAD_DATA
           else if strstr s "format" || strstr s "Format"
           then RAR_UNKNOWN_FORMAT
           else RAR_UNKNOWN_ERROR
       | None => RAR_UNKNOWN_ERROR
       end.

(** [map_archive_error], rar_native.c lines 146-177. *)
Definition map_archive_error (a : handle) (error_cb : bool) : M Z :=
  e <- get_error a ;;
  match err_str e with
  | Some s => call error_cb (ErrorCb s)
  | None => ret tt
  end ;;;
  ret (classify e).

(** rar_native.c lines 221-223 and 348-350: the passphrases registered
    with the reader. *)
Definition passphrases (password : option string) : list string :=
  match password with
  | Some p => if strlen p >? 0 then [p] else []
  | None => []
  end.

Definition add_passphrases (password : option string) : M unit :=
  match passphrases password with
  | p :: _ => emit (AddPassphrase p)
  | [] => ret tt
  end.

(** [archive_read_open_filename]. *)
Definition archive_read_open_filename (ar : archive) (path : string) : M Z :=
  set_error Reader (after (open_filename ar)) ;;;
  emit (OpenFilename path (code (open_filename ar))) ;;;
  ret (code (open_filename ar)).

(** [archive_write_header], with the pathname the entry carries.  The
    call and its result are recorded; what the writer creates on disk for
    it is not followed. *)
Definition archive_write_header (path : string) (e : entry) : M Z :=
  set_error Writer (after (write_header e)) ;;;
  emit (WriteHeader path (code (write_header e))) ;;;
  ret (code (write_header e)).

(** [archive_write_finish_entry]. *)
Definition archive_write_finish_entry (e : entry) : M Z :=
  set_error Writer (after (finish_entry e)) ;;;
  emit (FinishEntry (code (finish_entry e))) ;;;
  ret (code (finish_entry e)).

(** The body of the extraction loop for one entry, rar_native.c lines
    249-296: [inl (r, result)] when the body leaves the loop with
    [break], [inr tt] when it reaches its end, [None] when the entry has
    no pathname ([strlen] of NULL).  [r0] is [r] on entry to the body. *)
Definition extract_entry (dest_path : string) (error_cb : bool) (r0 : Z)
    (e : entry) : M (option (Z * Z + unit)) :=
  match pathname e with
  | None => ret None
  | Some entry_path =>
      full_path_ok <- alloc ;;
      if negb full_path_ok then
        call error_cb (ErrorCb "Memory allocation failed") ;;;
        ret (Some (inl (r0, RAR_MEMORY_ERROR)))
      else
      let full_path := dest_path +++ String PATH_SEP entry_path in
      parent <- get_parent_directory full_path ;;
      match parent with
      | Some p => create_directory_recursive p ;;; ret tt
      | None => ret tt
      end ;;;
      r <- archive_write_header full_path e ;;
      if negb (r =? ARCHIVE_OK) then
        result <- map_archive_error Writer error_cb ;; ret (Some (inl (r, result)))
      else
      r <- (if size e >? 0 then copy_data (data_blocks e) else ret r) ;;
      if negb (r =? ARCHIVE_OK) then
        result <- map_archive_error Reader error_cb ;; ret (Some (inl (r, result)))
      else
      r <- archive_write_finish_entry e ;;
      if negb (r =? ARCHIVE_OK) then
        result <- map_archive_error Writer error_cb ;; ret (Some (inl (r, result)))
      else ret (Some (inr tt))
  end.

(** The extraction loop, rar_native.c lines 248-297: the pair is [r] and
    [result] as the loop leaves them. *)
Fixpoint extract_entries (dest_path : string) (error_cb : bool)
    (hs : list header) : M (option (Z * Z)) :=
  match hs with
  | [] => ret (Some (ARCHIVE_EOF, RAR_SUCCESS))
  | h :: rest =>
      set_error Reader (after (next_header h)) ;;;
      if negb (code (next_header h) =? ARCHIVE_OK)
      then ret (Some (code (next_header h), RAR_SUCCESS))
      else
        left <- extract_entry dest_path error_cb (code (next_header h)) (hdr_entry h) ;;
        match left with
        | None => ret None
        | Some (inl r_result) => ret (Some r_result)
        | Some (inr _) => extract_entries dest_path error_cb rest
        end
  end.

(** The options handed to [archive_write_disk_set_options], rar_native.c
    line 234, with the values of archive.h. *)
Definition ARCHIVE_EXTRACT_PERM   : Z := 0x0002.
Definition ARCHIVE_EXTRACT_TIME   : Z := 0x0004.
Definition ARCHIVE_EXTRACT_ACL    : Z := 0x0020.
Definition ARCHIVE_EXTRACT_FFLAGS : Z := 0x0040.
Definition ARCHIVE_EXTRACT_SECURE_SYMLINKS        : Z := 0x0100.
Definition ARCHIVE_EXTRACT_SECURE_NODOTDOT        : Z := 0x0200.
Definition ARCHIVE_EXTRACT_SECURE_NOABSOLUTEPATHS : Z := 0x10000.

Definition extract_flags : Z :=
  Z.lor (Z.lor (Z.lor ARCHIVE_EXTRACT_TIME ARCHIVE_EXTRACT_PERM) ARCHIVE_EXTRACT_ACL)
        ARCHIVE_EXTRACT_FFLAGS.

(** [rar_extract], rar_native.c lines 180-311.  [password] is [None] for
    NULL, [error_cb] tells whether the callback is not NULL; the result
    is [None] when the run dereferences a NULL pathname. *)
Definition rar_extract (rar_path dest_path : string) (password : option string)
    (error_cb : bool) : M (option Z) :=
  f <- fopen_rb rar_path ;;
  if negb f then
    call error_cb (ErrorCb "RAR file not found") ;;; ret (Some RAR_FILE_NOT_FOUND)
  else
  created <- create_directory_recursive dest_path ;;
  if negb (created =? 0) then
    call error_cb (ErrorCb "Failed to create destination directory") ;;;
    ret (Some RAR_CREATE_ERROR)
  else
  a <- alloc ;;
  if negb a then
    call error_cb (ErrorCb "Failed to create archive reader") ;;;
    ret (Some RAR_MEMORY_ERROR)
  else
  set_error Reader no_error ;;;
  add_passphrases password ;;;
  ext <- alloc ;;
  if negb ext then
    call error_cb (ErrorCb "Failed to create disk writer") ;;;
    ret (Some RAR_MEMORY_ERROR)
  else
  set_error Writer no_error ;;;
  emit (SetOptions extract_flags) ;;;
  let ar := reads E rar_path (passphrases password) in
  r <- archive_read_open_filename ar rar_path ;;
  if negb (r =? ARCHIVE_OK) then
    result <- map_archive_error Reader error_cb ;; ret (Some result)
  else
  left <- extract_entries dest_path error_cb (headers ar) ;;
  match left with
  | None => ret None
  | Some (r, result) =>
      if negb (r =? ARCHIVE_EOF) && (result =? RAR_SUCCESS)
      then result <- map_archive_error Reader error_cb ;; ret (Some result)
      else ret (Some result)
  end.

(** The listing loop, rar_native.c lines 361-369: the value is [r] as
    the loop leaves it. *)
Fixpoint list_entries (list_cb : bool) (hs : list header) : M Z :=
  match hs with
  | [] => ret ARCHIVE_EOF
  | h :: rest =>
      set_error Reader (after (next_header h)) ;;;
      if negb (code (next_header h) =? ARCHIVE_OK)
      then ret (code (next_header h))
      else
        match pathname (hdr_entry h) with
        | Some p => call list_cb (ListCb p)
        | None => ret tt
        end ;;;
        set_error Reader (after (data_skip (hdr_entry h))) ;;;
        list_entries list_cb rest
  end.

(** [rar_list], rar_native.c lines 314-381. *)
Definition rar_list (rar_path : string) (password : option string)
    (list_cb error_cb : bool) : M Z :=
  f <- fopen_rb rar_path ;;
  if negb f then
    call error_cb (ErrorCb "RAR file not found") ;;; ret RAR_FILE_NOT_FOUND
  else
  a <- alloc ;;
  if negb a then
    call error_cb (ErrorCb "Failed to create archive reader") ;;;
    ret RAR_MEMORY_ERROR
  else
  set_error Reader no_error ;;;
  add_passphrases password ;;;
  let ar := reads E rar_path (passphrases password) in
  r <- archive_read_open_filename ar rar_path ;;
  if negb (r =? ARCHIVE_OK) then map_archive_error Reader error_cb
  else
  r <- list_entries list_cb (headers ar) ;;
  if negb (r =? ARCHIVE_EOF) then map_archive_error Reader error_cb
  else ret RAR_SUCCESS.

End Program.

(** ** Reading a trace *)

(** The filenames delivered to the listing callback, in order. *)
Definition listed (t : list event) : list string :=
  flat_map (fun ev => match ev with ListCb f => [f] | _ => [] end) t.

(** The messages delivered to the error callback, in order. *)
Definition reported (t : list event) : list string :=
  flat_map (fun ev => match ev with ErrorCb m => [m] | _ => [] end) t.

(** The pathnames handed to the disk writer, in order. *)
Definition handed_to_writer (t : list event) : list string :=
  flat_map (fun ev => match ev with WriteHeader p _ => [p] | _ => [] end) t.

(** The pathnames the disk writer accepted, in order. *)
Definition written (t : list event) : list string :=
  flat_map (fun ev => match ev with
                      | WriteHeader p r => if r =? ARCHIVE_OK then [p] else []
                      | _ => []
                      end) t.

(** The paths for which [mkdir] was called. *)
Definition mkdir_calls (t : list event) : list string :=
  flat_map (fun ev => match ev with Mkdir p _ => [p] | _ => [] end) t.

Definition is_mkdir (ev : event) : bool :=
  match ev with Mkdir _ _ => true | _ => false end.

(** The paths [create_directory_recursive] creates on the way to
    [path]: the part of [path] before each separator, the first
    character (and on Windows a drive letter) apart. *)
Fixpoint prefixes_at_separators (E : env) (behind ahead : string) : list string :=
  match ahead with
  | EmptyString => []
  | String c rest =>
      if is_separator E c
      then behind :: prefixes_at_separators E (behind +++ String c "") rest
      else prefixes_at_separators E (behind +++ String c "") rest
  end.

Definition parent_paths (E : env) (path : string) : list string :=
  let at_p := skip_separator E (skip_drive E path) in
  prefixes_at_separators E (fst at_p) (snd at_p).

(** ** Archives and paths the claims speak of *)

(** An archive is valid for the reader when it opens and every header
    read succeeds and carries a pathname. *)
Definition valid_header (h : header) : bool :=
  (code (next_header h) =? ARCHIVE_OK) &&
  match pathname (hdr_entry h) with Some _ => true | None => false end.

Definition valid_archive (ar : archive) : bool :=
  (code (open_filename ar) =? ARCHIVE_OK) && forallb valid_header (headers ar).

(** The pathname of an entry as a C string ([""] standing for NULL). *)
Definition name_of (h : header) : string :=
  match pathname (hdr_entry h) with Some p => p | None => "" end.

(** The status [copy_data] returns for a run of blocks. *)
Fixpoint copy_status (blocks : list (outcome * outcome)) : Z :=
  match blocks with
  | [] => ARCHIVE_OK
  | (rd, wr) :: rest =>
      if code rd =? ARCHIVE_EOF then ARCHIVE_OK
      else if negb (code rd =? ARCHIVE_OK) then code rd
      else if negb (code wr =? ARCHIVE_OK) then code wr
      else copy_status rest
  end.

(** The first status other than ARCHIVE_OK among the three steps taken
    for an entry (write the header, copy the data of an entry of
    positive size, finish the entry), ARCHIVE_OK when there is none. *)
Definition entry_status (e : entry) : Z :=
  if negb (code (write_header e) =? ARCHIVE_OK) then code (write_header e)
  else
    let r := if size e >? 0 then copy_status (data_blocks e) else ARCHIVE_OK in
    if negb (r =? ARCHIVE_OK) then r else code (finish_entry e).

(** An entry whose header is read and all of whose steps succeed. *)
Definition extracts_cleanly (h : header) : bool :=
  valid_header h && (entry_status (hdr_entry h) =? ARCHIVE_OK).

(** A block that is read and written with ARCHIVE_OK. *)
Definition copied (b : outcome * outcome) : bool :=
  (code (fst b) =? ARCHIVE_OK) && (code (snd b) =? ARCHIVE_OK).

(** The calls of [archive_write_data_block] for a run of blocks. *)
Definition block_writes (blocks : list (outcome * outcome)) : list event :=
  map (fun b => WriteDataBlock (code (snd b))) blocks.

(** The copying of [blocks] breaks off at the block read with [rd] and
    written with [wr]: the blocks [pre] before it were copied, and either
    the read of this one fails (it answers neither ARCHIVE_OK nor
    ARCHIVE_EOF) or it is read and its write fails. *)
Definition breaks_off_at (blocks pre : list (outcome * outcome)) (rd wr : outcome) : Prop :=
  (exists rest, blocks = pre ++ (rd, wr) :: rest) /\
  forallb copied pre = true /\
  ((code rd <> ARCHIVE_OK /\ code rd <> ARCHIVE_EOF) \/
   (code rd = ARCHIVE_OK /\ code wr <> ARCHIVE_OK)).

(** The code the failure of an entry maps to.  When the header cannot be
    written, or the entry cannot be finished, it is the code of the error
    the disk writer is left with by that call; when the copying of the
    data breaks off, at a read or at a write, it is the code of the error
    the reader is left with by the read of that block. *)
Definition failure_maps_to (e : entry) (result : Z) : Prop :=
  (code (write_header e) <> ARCHIVE_OK /\
   result = classify (after (write_header e))) \/
  (code (write_header e) = ARCHIVE_OK /\ size e > 0 /\
   exists pre rd wr, breaks_off_at (data_blocks e) pre rd wr /\
                     result = classify (after rd)) \/
  (code (write_header e) = ARCHIVE_OK /\
   (size e <= 0 \/ copy_status (data_blocks e) = ARCHIVE_OK) /\
   code (finish_entry e) <> ARCHIVE_OK /\
   result = classify (after (finish_entry e))).

(** The pathname under which an entry is handed to the disk writer,
    rar_native.c lines 250-261. *)
Definition output_path (E : env) (dest_path : string) (h : header) : string :=
  dest_path +++ String (PATH_SEP E) (name_of h).

(** The components of a path, split at ['/']. *)
Fixpoint components (current path : string) : list string :=
  match path with
  | EmptyString => [current]
  | String c rest =>
      if Ascii.eqb c "/"%char then current :: components "" rest
      else components (current +++ String c "") rest
  end.

(** Lexical resolution of a list of components, innermost first: ["."]
    and empty components drop out, [".."] removes the component before
    it, and where nothing is left to remove it stays. *)
Fixpoint resolve (stack : list string) (cs : list string) : list string :=
  match cs with
  | [] => rev stack
  | c :: rest =>
      if String.eqb c "" || String.eqb c "." then resolve stack rest
      else if String.eqb c ".." then
        match stack with
        | [] => resolve [".."] rest
        | top :: below =>
            if String.eqb top ".." then resolve (".." :: stack) rest
            else resolve below rest
        end
      else resolve (c :: stack) rest
  end.

Definition resolved (path : string) : list string :=
  resolve [] (components "" path).

Fixpoint starts_with (root l : list string) : bool :=
  match root, l with
  | [], _ => true
  | r :: root', x :: l' => String.eqb r x && starts_with root' l'
  | _ :: _, [] => false
  end.

(** A path escapes the destination root when, once resolved, it does not
    lie under the resolved root. *)
Definition escapes (destination_root path : string) : bool :=
  negb (starts_with (resolved destination_root) (resolved path)).

(** ** Environments used in examples *)

Definition start (fs : list string) : state :=
  State [] fs 0 O no_error no_error [].

(** A file entry whose calls all succeed: one data block. *)
Definition plain (name : string) : header :=
  Header fine (Entry (Some name) 5 fine fine [(fine, fine)] fine).

Definition simple_env (ar : list string -> archive) : env :=
  Env false (fun _ => true) (fun _ _ => None) (fun _ => ar).

(** An archive whose first entry cannot be skipped over, while the
    header after it is read without trouble. *)
Definition skip_fails : archive :=
  Archive fine
    [ Header fine (Entry (Some "a") 5
                         (Outcome ARCHIVE_FAILED (LibError 84 (Some "Truncated RAR file data")))
                         fine [] fine);
      plain "b" ].

(** An archive of two files: reading the data of the first one fails
    its CRC check, the second one is sound. *)
Definition crc_fails : archive :=
  Archive fine
    [ Header fine (Entry (Some "a") 5 fine fine
                         [(Outcome ARCHIVE_FAILED (LibError 84 (Some "File CRC error")), fine)]
                         fine);
      plain "b" ].

(** An archive with one file whose pathname climbs out of the place it is
    extracted to. *)
Definition climbing : archive := Archive fine [plain "../../etc/passwd"].

(** An encrypted archive of one file: it extracts with the passphrase
    "secret"; without a passphrase, and with any other, reading the data
    fails, with a different text in each case. *)
Definition locked (passphrases : list string) : archive :=
  match passphrases with
  | [] =>
      Archive fine
        [ Header fine (Entry (Some "a") 5 fine fine
            [(Outcome ARCHIVE_FAILED (LibError (-1) (Some "A password is required")), fine)]
            fine) ]
  | p :: _ =>
      if String.eqb p "secret" then Archive fine [plain "a"]
      else
        Archive fine
          [ Header fine (Entry (Some "a") 5 fine fine
              [(Outcome ARCHIVE_FAILED (LibError (-1) (Some "Incorrect password")), fine)]
              fine) ]
  end.

(** ** Relations between states used in the proofs *)

(** [st'] comes from [st] by steps that touch the disk through [mkdir]
    only: the files and the two handles are as before, what was on disk
    still is, and the trace has grown by [Mkdir] events. *)
Definition mkdirs_only (st st' : state) : Prop :=
  files st' = files st /\ rd_err st' = rd_err st /\ wr_err st' = wr_err st /\
  (forall p, on_disk p st = true -> on_disk p st' = true) /\
  exists t, trace st' = trace st ++ t /\ forallb is_mkdir t = true.

(** [st'] comes later than [st]: what was on disk still is, and the
    trace has only grown. *)
Definition extends (st st' : state) : Prop :=
  (forall p, on_disk p st = true -> on_disk p st' = true) /\
  exists t, trace st' = trace st ++ t.

(** A computation that only ever moves to later states. *)
Definition extending {A} (c : M A) : Prop := forall st, extends st (snd (c st)).

(** Any event but the registration of a passphrase. *)
Definition not_a_passphrase (ev : event) : bool :=
  match ev with AddPassphrase _ => false | _ => true end.

(** A computation that registers no passphrase with the reader. *)
Definition registers_nothing {A} (c : M A) : Prop :=
  forall st, exists t, trace (snd (c st)) = trace st ++ t /\
                       forallb not_a_passphrase t = true.

(** No allocation of the run fails. *)
Definition enough_memory (E : env) : Prop := forall n, heap E n = true.

(** The names the listing loop delivers for a run of headers: the
    pathnames that are not NULL. *)
Definition delivered (hs : list header) : list string :=
  flat_map (fun h => match pathname (hdr_entry h) with
                     | Some p => [p]
                     | None => []
                     end) hs.

(** Events that deliver nothing to the listing callback and hand nothing
    to the disk writer. *)
Definition unseen (ev : event) : bool :=
  match ev with
  | ListCb _ | WriteHeader _ _ => false
  | _ => true
  end.

(** The state in which the entry loop of [rar_extract] starts (or in
    which the failure to open is mapped), after directory creation left
    [st1]: two allocations later, with the reader in the state the open
    left it in. *)
Definition opened_for_extract (ar : archive) (rar_path : string)
    (password : option string) (st1 : state) : state :=
  State (dirs st1) (files st1) (errno st1) (S (S (allocs st1)))
        (after (open_filename ar)) no_error
        (trace st1 ++ map AddPassphrase (passphrases password) ++
         [SetOptions extract_flags;
          OpenFilename rar_path (code (open_filename ar))]).

(** The same for [rar_list]: one allocation, no disk writer. *)
Definition opened_for_list (ar : archive) (rar_path : string)
    (password : option string) (st : state) : state :=
  State (dirs st) (files st) (errno st) (S (allocs st))
        (after (open_filename ar)) (wr_err st)
        (trace st ++ map AddPassphrase (passphrases password) ++
         [OpenFilename rar_path (code (open_filename ar))]).

(** Every header of the run was read with ARCHIVE_OK. *)
Definition headers_ok (hs : list header) : bool :=
  forallb (fun h => code (next_header h) =? ARCHIVE_OK) hs.

(** ** Notions used for the further properties *)

(** [needle] occurs somewhere in [s]. *)
Definition occurs_in (needle s : string) : Prop :=
  exists a b, s = a +++ needle +++ b.

(** The words [map_archive_error] takes for a sign of password trouble. *)
Definition password_words : list string :=
  ["password"; "Password"; "encrypted"; "Encrypted"].

(** The codes [map_archive_error] can return. *)
Definition mapped_codes : list Z :=
  [RAR_FILE_NOT_FOUND; RAR_MEMORY_ERROR; RAR_BAD_ARCHIVE; RAR_UNKNOWN_FORMAT;
   RAR_BAD_PASSWORD; RAR_BAD_DATA; RAR_UNKNOWN_ERROR].

(** [c] is one of the characters of [s]. *)
Fixpoint has_char (c : ascii) (s : string) : bool :=
  match s with
  | EmptyString => false
  | String x rest => Ascii.eqb x c || has_char c rest
  end.

(** The system creates every directory it is asked for. *)
Definition never_refuses (E : env) : Prop := forall ds p, refuses E ds p = None.

(** The headers read with ARCHIVE_OK before the first one that is not:
    the entries the two loops get to see. *)
Fixpoint leading_ok (hs : list header) : list header :=
  match hs with
  | [] => []
  | h :: rest =>
      if code (next_header h) =? ARCHIVE_OK then h :: leading_ok rest else []
  end.

(** The status that ends a walk through the headers: that of the first
    header not read with ARCHIVE_OK, ARCHIVE_EOF past the last one. *)
Fixpoint stop_code (hs : list header) : Z :=
  match hs with
  | [] => ARCHIVE_EOF
  | h :: rest =>
      if code (next_header h) =? ARCHIVE_OK then stop_code rest
      else code (next_header h)
  end.

(** The steps of the disk writer after the header of an entry. *)
Definition is_writer_step (ev : event) : bool :=
  match ev with WriteDataBlock _ | FinishEntry _ => true | _ => false end.

Definition is_error_cb (ev : event) : bool :=
  match ev with ErrorCb _ => true | _ => false end.

(** The events [rar_list] can cause. *)
Definition is_listing_event (ev : event) : bool :=
  match ev with
  | ErrorCb _ | ListCb _ | AddPassphrase _ | OpenFilename _ _ => true
  | _ => false
  end.

(** The codes [rar_list] can return, and those [rar_extract] can. *)
Definition list_codes : list Z := RAR_SUCCESS :: mapped_codes.

Definition extract_codes : list Z := RAR_SUCCESS :: RAR_CREATE_ERROR :: mapped_codes.

(** What the error callback is told, if it is there and there is a text. *)
Definition error_report (error_cb : bool) (text : option string) : list event :=
  match text with
  | Some s => if error_cb then [ErrorCb s] else []
  | None => []
  end.

(** The calls of the two callbacks, as opposed to the calls into the
    system and into libarchive. *)
Definition is_callback (ev : event) : bool :=
  match ev with ErrorCb _ | ListCb _ => true | _ => false end.

(** The calls into the system and into libarchive that a trace shows. *)
Definition library_calls (t : list event) : list event :=
  filter (fun ev => negb (is_callback ev)) t.

(** Two states that differ at most in what the callbacks were told. *)
Definition same_but_callbacks (s s' : state) : Prop :=
  dirs s = dirs s' /\ files s = files s' /\ errno s = errno s' /\
  allocs s = allocs s' /\ rd_err s = rd_err s' /\ wr_err s = wr_err s' /\
  library_calls (trace s) = library_calls (trace s').

(** Two computations that, from such states, return the same value and
    end in such states again. *)
Definition alike {A} (c c' : M A) : Prop :=
  forall s s', same_but_callbacks s s' ->
               fst (c s) = fst (c' s') /\ same_but_callbacks (snd (c s)) (snd (c' s')).

(** [p] is [path] itself or the part of [path] before one of its
    separators. *)
Definition on_the_way_to (E : env) (path p : string) : Prop :=
  p = path \/ exists c rest, is_separator E c = true /\ path = p +++ String c rest.

(** A computation all of whose [mkdir] calls are on paths with the
    property [P]. *)
Definition mkdirs_within {A} (P : string -> Prop) (c : M A) : Prop :=
  forall st, exists t, trace (snd (c st)) = trace st ++ t /\
                       forall p, In p (mkdir_calls t) -> P p.

(** ** The Windows plugin *)

(** What [HandleMethodCall] does with its result object,
    windows/rar_plugin.cpp lines 57-59. *)
Inductive method_result :=
| Success (value : string)
| NotImplemented.

(** The answers of the three version helpers of VersionHelpers.h. *)
Record windows := Windows {
  IsWindows10OrGreater : bool;
  IsWindows8OrGreater  : bool;
  IsWindows7OrGreater  : bool }.

(** [RarPlugin::HandleMethodCall], windows/rar_plugin.cpp lines 44-61. *)
Definition HandleMethodCall (w : windows) (method_name : string) : method_result :=
  if String.eqb method_name "getPlatformVersion" then
    Success ("Windows (Desktop FFI) " +++
             (if IsWindows10OrGreater w then "10+"
              else if IsWindows8OrGreater w then "8"
              else if IsWindows7OrGreater w then "7"
              else ""))
  else NotImplemented.

(** The helpers agree with each other: a later version is also at least
    every earlier one. *)
Definition coherent (w : windows) : Prop :=
  (IsWindows10OrGreater w = true -> IsWindows8OrGreater w = true) /\
  (IsWindows8OrGreater w = true -> IsWindows7OrGreater w = true).

(** A case split on whether an error string is there and the error
    callback is supplied. *)
Ltac callback_cases :=
  match goal with
  | |- context [err_str ?e] => destruct (err_str e)
  end;
  try match goal with
      | |- context [if ?cb then _ else _] => destruct cb
      end;
  reflexivity.

(** * Properties *)

(** ** The error-message table *)

Example message_of_success : rar_get_error_message 0 = "Success".
Proof. reflexivity. Qed.

Example message_of_bad_password :
  rar_get_error_message RAR_BAD_PASSWORD = "Incorrect password or password required".
Proof. reflexivity. Qed.

Example message_of_minus_one : rar_get_error_message (-1) = "Unknown error".
Proof. reflexivity. Qed.

Lemma defined_code_cases (c : Z) :
  0 <= c <= RAR_UNKNOWN_ERROR ->
  c = 0 \/ c = 1 \/ c = 2 \/ c = 3 \/ c = 4 \/ c = 5 \/ c = 6 \/ c = 7 \/ c = 8 \/ c = 9.
Proof. unfold RAR_UNKNOWN_ERROR. lia. Qed.

Lemma message_in_table (c : Z) : In (rar_get_error_message c) error_messages.
Proof.
  unfold rar_get_error_message.
  destruct ((c <? 0) || (c >? RAR_UNKNOWN_ERROR)) eqn:Hout.
  - unfold table_at, RAR_UNKNOWN_ERROR. simpl. tauto.
  - apply orb_false_iff in Hout. destruct Hout as [Hlo Hhi].
    apply Z.ltb_ge in Hlo. rewrite Z.gtb_ltb in Hhi. apply Z.ltb_ge in Hhi.
    unfold table_at. apply nth_In.
    unfold RAR_UNKNOWN_ERROR in Hhi. simpl. lia.
Qed.

Lemma message_of_defined (c : Z) :
  0 <= c <= RAR_UNKNOWN_ERROR -> rar_get_error_message c = table_at c.
Proof.
  intros [Hlo Hhi]. unfold rar_get_error_message.
  replace (c <? 0) with false by (symmetry; apply Z.ltb_ge; lia).
  replace (c >? RAR_UNKNOWN_ERROR) with false; [reflexivity|].
  symmetry. rewrite Z.gtb_ltb. apply Z.ltb_ge. lia.
Qed.

Lemma table_at_injective (c1 c2 : Z) :
  0 <= c1 <= RAR_UNKNOWN_ERROR -> 0 <= c2 <= RAR_UNKNOWN_ERROR ->
  table_at c1 = table_at c2 -> c1 = c2.
Proof.
  intros H1 H2.
  apply defined_code_cases in H1. apply defined_code_cases in H2.
  repeat (destruct H1 as [H1 | H1]); subst c1;
    repeat (destruct H2 as [H2 | H2]); subst c2;
    intros Heq; try reflexivity; vm_compute in Heq; discriminate Heq.
Qed.

(** C4.  [rar_get_error_message] is a function of its argument alone,
    defined on every integer: its value is always an entry of the static
    table; the ten defined codes 0..9 have ten different messages; every
    code below 0 or above RAR_UNKNOWN_ERROR gets "Unknown error". *)
Theorem rar_get_error_message_total_static (error_code : Z) :
  In (rar_get_error_message error_code) error_messages /\
  (forall other : Z,
      0 <= error_code <= RAR_UNKNOWN_ERROR -> 0 <= other <= RAR_UNKNOWN_ERROR ->
      rar_get_error_message error_code = rar_get_error_message other ->
      error_code = other) /\
  (error_code < 0 \/ error_code > RAR_UNKNOWN_ERROR ->
   rar_get_error_message error_code = "Unknown error").
Proof.
  split; [apply message_in_table|]. split.
  - intros other H1 H2. rewrite !message_of_defined by assumption.
    now apply table_at_injective.
  - intros Hout. unfold rar_get_error_message.
    replace ((error_code <? 0) || (error_code >? RAR_UNKNOWN_ERROR)) with true;
      [reflexivity|].
    symmetry. apply orb_true_iff. rewrite Z.gtb_ltb, !Z.ltb_lt. lia.
Qed.

Lemma rar_get_error_message_total_static_witness :
  In (rar_get_error_message 42) error_messages /\
  (rar_get_error_message 7 = rar_get_error_message 7 -> 7 = 7) /\
  rar_get_error_message 42 = "Unknown error" /\
  rar_get_error_message (-3) = "Unknown error".
Proof.
  split; [apply (rar_get_error_message_total_static 42)|].
  split.
  - apply (rar_get_error_message_total_static 7); unfold RAR_UNKNOWN_ERROR; lia.
  - split.
    + apply (rar_get_error_message_total_static 42). unfold RAR_UNKNOWN_ERROR. lia.
    + apply (rar_get_error_message_total_static (-3)). lia.
Defined.

(** ** Traces *)

Lemma listed_app (a b : list event) : listed (a ++ b) = listed a ++ listed b.
Proof. apply flat_map_app. Qed.

Lemma reported_app (a b : list event) : reported (a ++ b) = reported a ++ reported b.
Proof. apply flat_map_app. Qed.

Lemma handed_to_writer_app (a b : list event) :
  handed_to_writer (a ++ b) = handed_to_writer a ++ handed_to_writer b.
Proof. apply flat_map_app. Qed.

Lemma written_app (a b : list event) : written (a ++ b) = written a ++ written b.
Proof. apply flat_map_app. Qed.

Lemma mkdirs_are_silent (t : list event) :
  forallb is_mkdir t = true ->
  listed t = [] /\ handed_to_writer t = [] /\ written t = [] /\ reported t = [].
Proof.
  induction t as [|ev t IH]; simpl; [tauto|].
  intros H. apply andb_true_iff in H. destruct H as [Hev Ht].
  destruct ev; try discriminate Hev. simpl. now apply IH.
Qed.

(** ** Steps that only create directories *)

Lemma mkdirs_only_refl (st : state) : mkdirs_only st st.
Proof.
  repeat split; auto. exists []. now rewrite app_nil_r.
Qed.

Lemma mkdirs_only_trans (a b c : state) :
  mkdirs_only a b -> mkdirs_only b c -> mkdirs_only a c.
Proof.
  intros (F1 & R1 & W1 & D1 & t1 & T1 & M1) (F2 & R2 & W2 & D2 & t2 & T2 & M2).
  repeat split; try congruence; auto.
  exists (t1 ++ t2). split.
  - rewrite T2, T1. now rewrite app_assoc.
  - rewrite forallb_app. now rewrite M1, M2.
Qed.

Lemma on_disk_cons (p q : string) (st : state) :
  on_disk p st = true ->
  on_disk p (State (q :: dirs st) (files st) (errno st) (allocs st) (rd_err st)
                   (wr_err st) (trace st ++ [Mkdir q 0])) = true.
Proof.
  unfold on_disk. simpl. intros H.
  apply orb_true_iff in H. destruct H as [H | H]; rewrite H;
    now rewrite ?orb_true_r.
Qed.

Lemma alloc_mkdirs_only (E : env) (st : state) :
  mkdirs_only st (snd (alloc E st)) /\ fst (alloc E st) = heap E (allocs st).
Proof.
  split; [|reflexivity].
  unfold alloc. simpl. repeat split; auto.
  exists []. now rewrite app_nil_r.
Qed.

Lemma mkdir_mkdirs_only (E : env) (p : string) (st : state) :
  mkdirs_only st (snd (mkdir E p st)).
Proof.
  unfold mkdir.
  destruct (existsb (String.eqb p) (files st));
    [|destruct (refuses E (dirs st) p);
      [|destruct (existsb (String.eqb p) (dirs st))]];
    simpl; repeat split; auto;
    try (exists [Mkdir p (-1)]; now split);
    try (exists [Mkdir p 0]; now split).
  intros q Hq. now apply on_disk_cons.
Qed.

Lemma create_parents_mkdirs_only (E : env) (ahead behind : string) (st : state) :
  mkdirs_only st (snd (create_parents E behind ahead st)).
Proof.
  revert behind st. induction ahead as [|c rest IH]; intros behind st; simpl.
  - apply mkdirs_only_refl.
  - destruct (is_separator E c); [|apply IH].
    unfold bind. destruct (mkdir E behind st) as [r st1] eqn:Hm.
    apply mkdirs_only_trans with st1; [|apply IH].
    change st1 with (snd (r, st1)). rewrite <- Hm. apply mkdir_mkdirs_only.
Qed.

Lemma create_directory_recursive_mkdirs_only (E : env) (path : string) (st : state) :
  mkdirs_only st (snd (create_directory_recursive E path st)).
Proof.
  unfold create_directory_recursive, bind.
  destruct (alloc E st) as [ok st1] eqn:Ha.
  assert (H1 : mkdirs_only st st1).
  { change st1 with (snd (ok, st1)). rewrite <- Ha. apply alloc_mkdirs_only. }
  destruct ok; simpl; [|exact H1].
  destruct (create_parents E _ _ st1) as [u st2] eqn:Hp.
  assert (H2 : mkdirs_only st1 st2).
  { change st2 with (snd (u, st2)). rewrite <- Hp. apply create_parents_mkdirs_only. }
  destruct (mkdir E path st2) as [r st3] eqn:Hm.
  assert (H3 : mkdirs_only st2 st3).
  { change st3 with (snd (r, st3)). rewrite <- Hm. apply mkdir_mkdirs_only. }
  simpl. eauto using mkdirs_only_trans.
Qed.

Lemma get_parent_directory_mkdirs_only (E : env) (path : string) (st : state) :
  mkdirs_only st (snd (get_parent_directory E path st)).
Proof.
  unfold get_parent_directory, bind. simpl.
  destruct (heap E (allocs st)); simpl; apply (alloc_mkdirs_only E st).
Qed.

Lemma mkdir_calls_app (a b : list event) :
  mkdir_calls (a ++ b) = mkdir_calls a ++ mkdir_calls b.
Proof. apply flat_map_app. Qed.

Lemma mkdir_event (E : env) (p : string) (st : state) :
  exists r, trace (snd (mkdir E p st)) = trace st ++ [Mkdir p r].
Proof.
  unfold mkdir.
  destruct (existsb (String.eqb p) (files st));
    [|destruct (refuses E (dirs st) p);
      [|destruct (existsb (String.eqb p) (dirs st))]]; simpl; eauto.
Qed.

(** One [mkdir]: the result is 0 or -1; either something is at the path
    and the answer is EEXIST, or nothing was and the directory is made,
    or the system turned the call down; at most that one directory is
    new. *)
Lemma mkdir_cases (E : env) (p : string) (st : state) :
  let st' := snd (mkdir E p st) in
  let r := fst (mkdir E p st) in
  files st' = files st /\ allocs st' = allocs st /\
  rd_err st' = rd_err st /\ wr_err st' = wr_err st /\
  trace st' = trace st ++ [Mkdir p r] /\
  ((on_disk p st = true /\ r = -1 /\ errno st' = EEXIST /\ dirs st' = dirs st) \/
   (on_disk p st = false /\ refuses E (dirs st) p = None /\ r = 0 /\
    dirs st' = p :: dirs st) \/
   (existsb (String.eqb p) (files st) = false /\ r = -1 /\ errno st' <> EEXIST /\
    dirs st' = dirs st /\ exists why, refuses E (dirs st) p = Some why)).
Proof.
  unfold mkdir, on_disk.
  destruct (existsb (String.eqb p) (files st)) eqn:Hf;
    [|destruct (refuses E (dirs st) p) as [why|] eqn:Hr;
      [|destruct (existsb (String.eqb p) (dirs st)) eqn:Hd]];
    simpl; repeat (split; [reflexivity|]).
  - left. rewrite orb_true_r. repeat split.
  - right. right. repeat split; [destruct why; discriminate|now exists why].
  - left. repeat split.
  - right. left. repeat split.
Qed.

Lemma create_parents_calls (E : env) (ahead behind : string) (st : state) :
  exists t, trace (snd (create_parents E behind ahead st)) = trace st ++ t /\
            forallb is_mkdir t = true /\
            mkdir_calls t = prefixes_at_separators E behind ahead.
Proof.
  revert behind st. induction ahead as [|c rest IH]; intros behind st; simpl.
  - exists []. now rewrite app_nil_r.
  - destruct (is_separator E c); [|apply IH].
    unfold bind. destruct (mkdir_event E behind st) as [r Hr].
    destruct (mkdir E behind st) as [r0 st1]. simpl in Hr.
    destruct (IH (behind +++ String c "") st1) as (t & Ht & Hm & Hcalls).
    exists (Mkdir behind r :: t). split; [|split].
    + rewrite Ht, Hr. now rewrite <- app_assoc.
    + exact Hm.
    + simpl. now rewrite Hcalls.
Qed.

(** What [create_directory_recursive] leaves when it returns 0: the path
    is on disk, a directory if it was not there before, and the trace
    shows a [mkdir] for each of its parent paths and a last one for the
    path itself. *)
Lemma create_directory_recursive_creates (E : env) (path : string) (st : state) :
  fst (create_directory_recursive E path st) = 0 ->
  let st' := snd (create_directory_recursive E path st) in
  on_disk path st' = true /\
  (on_disk path st = false -> In path (dirs st')) /\
  exists t r, trace st' = trace st ++ t ++ [Mkdir path r] /\
              forallb is_mkdir t = true /\
              mkdir_calls t = parent_paths E path.
Proof.
  unfold create_directory_recursive, bind.
  destruct (alloc E st) as [ok st1] eqn:Ha.
  assert (H1 : mkdirs_only st st1).
  { change st1 with (snd (ok, st1)). rewrite <- Ha. apply alloc_mkdirs_only. }
  assert (Htr1 : trace st1 = trace st).
  { change st1 with (snd (ok, st1)). now rewrite <- Ha. }
  destruct ok; simpl; [|discriminate].
  destruct (create_parents_calls E (snd (skip_separator E (skip_drive E path)))
              (fst (skip_separator E (skip_drive E path))) st1)
    as (t & Ht & Hm & Hcalls).
  destruct (create_parents E _ _ st1) as [u st2] eqn:Hp.
  assert (H2 : mkdirs_only st1 st2).
  { change st2 with (snd (u, st2)). rewrite <- Hp. apply create_parents_mkdirs_only. }
  simpl in Ht. rewrite Htr1 in Ht.
  destruct (mkdir_cases E path st2) as (Hf3 & _ & _ & _ & Htr3 & Hcase).
  destruct (mkdir E path st2) as [r st3]. cbn [fst snd] in *.
  destruct Hcase as [(Hd & Hr & He & Hds) | [(Hd & _ & Hr & Hds)
                                            | (_ & Hr & He & _)]].
  - intros _. split; [|split].
    + unfold on_disk in *. now rewrite Hf3, Hds.
    + intros Hs. rewrite Hds.
      unfold on_disk in Hd. apply orb_true_iff in Hd. destruct Hd as [Hd | Hd].
      * apply existsb_exists in Hd. destruct Hd as (x & Hin & Hx).
        apply String.eqb_eq in Hx. now subst x.
      * exfalso. unfold on_disk in Hs. apply orb_false_iff in Hs.
        destruct H1 as (F1 & _). destruct H2 as (F2 & _).
        rewrite F2, F1 in Hd. destruct Hs as [_ Hs]. congruence.
    + exists t, r. rewrite Htr3, Ht. now rewrite <- app_assoc.
  - intros _. split; [|split].
    + unfold on_disk. rewrite Hds. simpl. now rewrite String.eqb_refl.
    + intros _. rewrite Hds. now left.
    + exists t, r. rewrite Htr3, Ht. now rewrite <- app_assoc.
  - subst r. apply Z.eqb_neq in He. rewrite He. discriminate.
Qed.

Lemma unseen_events (t : list event) :
  forallb unseen t = true ->
  listed t = [] /\ handed_to_writer t = [] /\ written t = [].
Proof.
  induction t as [|ev t IH]; simpl; [tauto|].
  intros H. apply andb_true_iff in H. destruct H as [Hev Ht].
  destruct ev; try discriminate Hev; simpl; now apply IH.
Qed.

Lemma mkdirs_are_unseen (t : list event) :
  forallb is_mkdir t = true -> forallb unseen t = true.
Proof.
  induction t as [|ev t IH]; simpl; [reflexivity|].
  intros H. apply andb_true_iff in H. destruct H as [Hev Ht].
  destruct ev; try discriminate Hev. simpl. now apply IH.
Qed.

(** ** Mapping libarchive errors *)

Lemma classify_not_success (e : lib_error) : classify e <> RAR_SUCCESS.
Proof.
  unfold classify.
  repeat match goal with
         | |- context [if ?b then _ else _] => destruct b
         | |- context [match ?o with Some _ => _ | None => _ end] => destruct o
         end; discriminate.
Qed.

Lemma map_archive_error_run (a : handle) (error_cb : bool) (st : state) :
  let e := match a with Reader => rd_err st | Writer => wr_err st end in
  let t := match err_str e with
           | Some s => if error_cb then [ErrorCb s] else []
           | None => []
           end in
  map_archive_error a error_cb st =
  (classify e,
   State (dirs st) (files st) (errno st) (allocs st) (rd_err st) (wr_err st)
         (trace st ++ t)).
Proof.
  unfold map_archive_error, bind, get_error, call, ret, emit.
  destruct st as [d f en al re we tr]. simpl.
  destruct a; simpl.
  - destruct (err_str re); [destruct error_cb|]; simpl; now rewrite ?app_nil_r.
  - destruct (err_str we); [destruct error_cb|]; simpl; now rewrite ?app_nil_r.
Qed.

Lemma map_archive_error_unseen (a : handle) (error_cb : bool) (st : state) :
  fst (map_archive_error a error_cb st) <> RAR_SUCCESS /\
  exists t, trace (snd (map_archive_error a error_cb st)) = trace st ++ t /\
            forallb unseen t = true.
Proof.
  rewrite map_archive_error_run. simpl. split; [apply classify_not_success|].
  eexists. split; [reflexivity|].
  destruct (err_str _); [destruct error_cb|]; reflexivity.
Qed.

(** ** Opening the file *)

(** [fopen] either answers yes and changes nothing, or answers no and
    changes [errno] only. *)
Lemma fopen_rb_cases (E : env) (path : string) (st : state) :
  fopen_rb E path st = (true, st) \/
  exists e, fopen_rb E path st =
            (false, State (dirs st) (files st) e (allocs st) (rd_err st) (wr_err st)
                          (trace st)).
Proof.
  unfold fopen_rb.
  destruct (existsb (String.eqb path) (files st)); [now left|].
  destruct (existsb (String.eqb path) (dirs st)); [destruct (win32 E)|];
    first [now left|right; eexists; reflexivity].
Qed.

Lemma fopen_rb_file (E : env) (path : string) (st : state) :
  existsb (String.eqb path) (files st) = true -> fopen_rb E path st = (true, st).
Proof. intros Hf. unfold fopen_rb. now rewrite Hf. Qed.

#[local] Hint Resolve fopen_rb_file : core.

(** [fopen] leaves everything but [errno] as it was. *)
Lemma fopen_rb_keeps (E : env) (path : string) (st : state) :
  let st' := snd (fopen_rb E path st) in
  dirs st' = dirs st /\ files st' = files st /\ allocs st' = allocs st /\
  rd_err st' = rd_err st /\ wr_err st' = wr_err st /\ trace st' = trace st.
Proof.
  destruct (fopen_rb_cases E path st) as [Hfo | (e & Hfo)]; rewrite Hfo;
    repeat split.
Qed.

Lemma fopen_rb_opened (E : env) (path : string) (st : state) :
  fst (fopen_rb E path st) = true -> fopen_rb E path st = (true, st).
Proof.
  intros H. destruct (fopen_rb_cases E path st) as [Hfo | (e & Hfo)]; [exact Hfo|].
  rewrite Hfo in H. discriminate H.
Qed.

(** ** Opening fails *)

Lemma rar_list_open_failure (E : env) (rar_path : string) (password : option string)
    (list_cb error_cb : bool) (st : state) :
  code (open_filename (reads E rar_path (passphrases password))) <> ARCHIVE_OK ->
  fst (rar_list E rar_path password list_cb error_cb st) <> RAR_SUCCESS /\
  (exists t, trace (snd (rar_list E rar_path password list_cb error_cb st)) = trace st ++ t /\
             forallb unseen t = true) /\
  (existsb (String.eqb rar_path) (files st) = true -> heap E (allocs st) = true ->
   fst (rar_list E rar_path password list_cb error_cb st) =
   classify (after (open_filename (reads E rar_path (passphrases password))))).
Proof.
  intros Hopen. apply Z.eqb_neq in Hopen.
  unfold rar_list, bind.
  destruct (fopen_rb_cases E rar_path st) as [Hfo | (e & Hfo)].
  2:{ rewrite Hfo.
      destruct error_cb; simpl; (split; [discriminate|]);
        (split; [|intros Hf; rewrite (fopen_rb_file E _ _ Hf) in Hfo; discriminate Hfo]);
        eexists;
        (split; [try reflexivity; now rewrite app_nil_r|reflexivity]). }
  rewrite Hfo. simpl.
  destruct (heap E (allocs st)) eqn:Hh; simpl.
  2:{ destruct error_cb; simpl; (split; [discriminate|]);
        (split; [|intros _ H; discriminate H]); eexists;
        (split; [try reflexivity; now rewrite app_nil_r|reflexivity]). }
  unfold add_passphrases, archive_read_open_filename, bind.
  destruct (passphrases password) as [|p ps] eqn:Hp; simpl;
    rewrite Hopen; simpl; rewrite map_archive_error_run; simpl;
    (split; [apply classify_not_success|]);
    (split; [|reflexivity]);
    eexists; (split; [rewrite <- ?app_assoc; reflexivity|]);
    destruct (err_str _); [destruct error_cb| | destruct error_cb|]; reflexivity.
Qed.

(** ** The two entry points up to the opening of the archive *)

Lemma rar_list_opened (E : env) (rar_path : string) (password : option string)
    (list_cb error_cb : bool) (st : state) :
  fopen_rb E rar_path st = (true, st) ->
  heap E (allocs st) = true ->
  let ar := reads E rar_path (passphrases password) in
  let st1 := opened_for_list ar rar_path password st in
  rar_list E rar_path password list_cb error_cb st =
  if negb (code (open_filename ar) =? ARCHIVE_OK)
  then map_archive_error Reader error_cb st1
  else let (r, st2) := list_entries list_cb (headers ar) st1 in
       if negb (r =? ARCHIVE_EOF) then map_archive_error Reader error_cb st2
       else (RAR_SUCCESS, st2).
Proof.
  intros Hf Hh. unfold rar_list, bind. rewrite Hf. simpl.
  rewrite Hh. simpl.
  unfold opened_for_list, add_passphrases, archive_read_open_filename, bind.
  destruct (passphrases password) as [|p ps] eqn:Hp; simpl.
  - destruct (code (open_filename _) =? ARCHIVE_OK); simpl; [|reflexivity].
    destruct (list_entries _ _ _) as [r s2]. now destruct (r =? ARCHIVE_EOF).
  - assert (ps = []) as ->.
    { unfold passphrases in Hp. destruct password as [q|]; [|discriminate].
      destruct (strlen q >? 0); congruence. }
    simpl. rewrite <- app_assoc. simpl.
    destruct (code (open_filename _) =? ARCHIVE_OK); simpl; [|reflexivity].
    destruct (list_entries _ _ _) as [r s2]. now destruct (r =? ARCHIVE_EOF).
Qed.

Lemma passphrases_at_most_one (password : option string) :
  passphrases password = [] \/ exists p, passphrases password = [p].
Proof.
  unfold passphrases. destruct password as [q|]; [|now left].
  destruct (strlen q >? 0); [right; now exists q|now left].
Qed.

Lemma rar_extract_opened (E : env) (rar_path dest_path : string)
    (password : option string) (error_cb : bool) (st : state) :
  fopen_rb E rar_path st = (true, st) ->
  fst (create_directory_recursive E dest_path st) = 0 ->
  let st1 := snd (create_directory_recursive E dest_path st) in
  heap E (allocs st1) = true ->
  heap E (S (allocs st1)) = true ->
  let ar := reads E rar_path (passphrases password) in
  let st2 := opened_for_extract ar rar_path password st1 in
  rar_extract E rar_path dest_path password error_cb st =
  if negb (code (open_filename ar) =? ARCHIVE_OK)
  then let (result, st3) := map_archive_error Reader error_cb st2 in (Some result, st3)
  else let (left, st3) := extract_entries E dest_path error_cb (headers ar) st2 in
       match left with
       | None => (None, st3)
       | Some (r, result) =>
           if negb (r =? ARCHIVE_EOF) && (result =? RAR_SUCCESS)
           then let (result', st4) := map_archive_error Reader error_cb st3 in
                (Some result', st4)
           else (Some result, st3)
       end.
Proof.
  intros Hf Hc st1 Ha1 Ha2 ar st2. subst st2 ar st1.
  unfold rar_extract, bind at 1. rewrite Hf. simpl.
  unfold bind at 1.
  destruct (create_directory_recursive E dest_path st) as [created st1]. simpl in *.
  subst created. simpl.
  unfold bind at 1. unfold alloc at 1. simpl. rewrite Ha1. simpl.
  unfold opened_for_extract, add_passphrases, archive_read_open_filename, bind.
  simpl.
  destruct (passphrases_at_most_one password) as [Hp | [p Hp]]; rewrite Hp; simpl;
    rewrite Ha2; simpl; rewrite <- !app_assoc; simpl.
  - destruct (code (open_filename _) =? ARCHIVE_OK); simpl.
    + destruct (extract_entries _ _ _ _ _) as [[[r result]|] s3]; [|reflexivity].
      destruct (negb (r =? ARCHIVE_EOF) && (result =? RAR_SUCCESS)); [|reflexivity].
      now destruct (map_archive_error _ _ _).
    + now destruct (map_archive_error _ _ _).
  - destruct (code (open_filename _) =? ARCHIVE_OK); simpl.
    + destruct (extract_entries _ _ _ _ _) as [[[r result]|] s3]; [|reflexivity].
      destruct (negb (r =? ARCHIVE_EOF) && (result =? RAR_SUCCESS)); [|reflexivity].
      now destruct (map_archive_error _ _ _).
    + now destruct (map_archive_error _ _ _).
Qed.

Lemma rar_extract_open_failure (E : env) (rar_path dest_path : string)
    (password : option string) (error_cb : bool) (st : state) :
  code (open_filename (reads E rar_path (passphrases password))) <> ARCHIVE_OK ->
  (exists result, fst (rar_extract E rar_path dest_path password error_cb st) = Some result /\
                  result <> RAR_SUCCESS) /\
  (exists t, trace (snd (rar_extract E rar_path dest_path password error_cb st)) =
             trace st ++ t /\ forallb unseen t = true).
Proof.
  intros Hopen. apply Z.eqb_neq in Hopen.
  remember (rar_extract E rar_path dest_path password error_cb st) as run eqn:Hrun.
  unfold rar_extract, bind at 1 in Hrun.
  destruct (fopen_rb_cases E rar_path st) as [Hfo | (e & Hfo)];
    rewrite Hfo in Hrun; simpl in Hrun.
  2:{ destruct error_cb; subst run; simpl;
        (split; [eexists; split; [reflexivity|discriminate]|]);
        [exists [ErrorCb "RAR file not found"]|exists []];
        rewrite ?app_nil_r; now split. }
  unfold bind at 1 in Hrun.
  pose proof (create_directory_recursive_mkdirs_only E dest_path st)
    as (_ & _ & _ & _ & t1 & Ht1 & Hm1).
  apply mkdirs_are_unseen in Hm1.
  destruct (create_directory_recursive E dest_path st) as [created st1]. simpl in Ht1.
  destruct (created =? 0); simpl in Hrun.
  2:{ destruct error_cb; subst run; simpl;
        (split; [eexists; split; [reflexivity|discriminate]|]);
        rewrite Ht1; [exists (t1 ++ [ErrorCb "Failed to create destination directory"])
                     |exists t1];
        rewrite ?app_assoc, ?forallb_app, ?Hm1; now split. }
  unfold bind at 1 in Hrun. unfold alloc at 1 in Hrun. simpl in Hrun.
  destruct (heap E (allocs st1)); simpl in Hrun.
  2:{ destruct error_cb; subst run; simpl;
        (split; [eexists; split; [reflexivity|discriminate]|]);
        rewrite Ht1; [exists (t1 ++ [ErrorCb "Failed to create archive reader"])
                     |exists t1];
        rewrite ?app_assoc, ?forallb_app, ?Hm1; now split. }
  unfold add_passphrases, archive_read_open_filename, bind in Hrun. simpl in Hrun.
  destruct (passphrases_at_most_one password) as [Hp | [p Hp]]; rewrite Hp in *;
    simpl in Hrun;
    (destruct (heap E (S (allocs st1))); simpl in Hrun;
     [ rewrite Hopen in Hrun; simpl in Hrun; rewrite map_archive_error_run in Hrun;
       simpl in Hrun; subst run; simpl;
       (split; [eexists; split; [reflexivity|apply classify_not_success]|]);
       rewrite Ht1; rewrite <- !app_assoc; eexists; (split; [reflexivity|]);
       rewrite !forallb_app, Hm1; simpl;
       destruct (err_str _); [destruct error_cb|]; reflexivity
     | destruct error_cb; subst run; simpl;
       (split; [eexists; split; [reflexivity|discriminate]|]);
       rewrite Ht1; rewrite <- ?app_assoc; eexists; (split; [reflexivity|]);
       rewrite ?forallb_app, Hm1; reflexivity ]).
Qed.

(** C8.  When [archive_read_open_filename] does not answer ARCHIVE_OK,
    [rar_list] and [rar_extract] return an error code and nothing else
    happens to the archive: no filename reaches the listing callback and
    no entry is handed to the disk writer.  Where the call gets as far as
    opening the archive (the file can be read, memory is available and,
    for extraction, the destination could be created) the code returned
    is the one the open error maps to. *)
Theorem open_failure_aborts (E : env) (rar_path dest_path : string)
    (password : option string) (list_cb error_cb : bool) (st : state) :
  let ar := reads E rar_path (passphrases password) in
  let listing := rar_list E rar_path password list_cb error_cb st in
  let extraction := rar_extract E rar_path dest_path password error_cb st in
  code (open_filename ar) <> ARCHIVE_OK ->
  (fst listing <> RAR_SUCCESS /\
   exists t, trace (snd listing) = trace st ++ t /\ listed t = []) /\
  ((exists result, fst extraction = Some result /\ result <> RAR_SUCCESS) /\
   exists t, trace (snd extraction) = trace st ++ t /\ handed_to_writer t = []) /\
  (existsb (String.eqb rar_path) (files st) = true -> enough_memory E ->
   fst listing = classify (after (open_filename ar)) /\
   (fst (create_directory_recursive E dest_path st) = 0 ->
    fst extraction = Some (classify (after (open_filename ar))))).
Proof.
  intros ar listing extraction Hopen.
  destruct (rar_list_open_failure E rar_path password list_cb error_cb st Hopen)
    as (Hl1 & (tl & Hl2 & Hl3) & Hl4).
  destruct (rar_extract_open_failure E rar_path dest_path password error_cb st Hopen)
    as (He1 & (te & He2 & He3)).
  split; [split; [exact Hl1|]|split; [split; [exact He1|]|]].
  - exists tl. split; [exact Hl2|]. now apply unseen_events.
  - exists te. split; [exact He2|]. now apply unseen_events.
  - intros Hf Hmem. split; [now apply Hl4|].
    intros Hc. subst extraction.
    rewrite rar_extract_opened by auto.
    apply Z.eqb_neq in Hopen. fold ar. rewrite Hopen. simpl.
    rewrite map_archive_error_run. reflexivity.
Qed.

Lemma open_failure_aborts_witness :
  let E := simple_env (fun _ => Archive (Outcome ARCHIVE_FATAL
                                           (LibError 84 (Some "Unrecognized archive format")))
                                        [plain "a.txt"]) in
  let st := start ["x.rar"] in
  fst (rar_list E "x.rar" None true true st) = RAR_UNKNOWN_FORMAT /\
  fst (rar_extract E "x.rar" "out" None true st) = Some RAR_UNKNOWN_FORMAT /\
  listed (trace (snd (rar_list E "x.rar" None true true st))) = [] /\
  handed_to_writer (trace (snd (rar_extract E "x.rar" "out" None true st))) = [].
Proof.
  intros E st.
  assert (Hopen : code (open_filename (reads E "x.rar" (passphrases None))) <> ARCHIVE_OK)
    by (vm_compute; discriminate).
  pose proof (open_failure_aborts E "x.rar" "out" None true true st Hopen)
    as (_ & _ & Hcode).
  destruct Hcode as [Hl He]; [reflexivity|intros n; reflexivity|].
  split; [exact Hl|]. split; [apply He; reflexivity|].
  split; reflexivity.
Defined.

(** ** Listing *)

Lemma add_passphrase_events_unseen (password : option string) :
  forallb unseen (map AddPassphrase (passphrases password)) = true.
Proof.
  destruct (passphrases_at_most_one password) as [Hp | [p Hp]]; now rewrite Hp.
Qed.

(** The listing loop over headers that are all read with ARCHIVE_OK: it
    runs to the end of them, delivering the pathnames in order. *)
Lemma list_entries_ok (list_cb : bool) (hs more : list header) (st : state) :
  headers_ok hs = true ->
  exists st1,
    list_entries list_cb (hs ++ more) st = list_entries list_cb more st1 /\
    trace st1 = trace st ++ (if list_cb then map ListCb (delivered hs) else []) /\
    dirs st1 = dirs st /\ files st1 = files st.
Proof.
  revert st. induction hs as [|h hs IH]; intros st Hok.
  - exists st. simpl. destruct list_cb; now rewrite app_nil_r.
  - simpl in Hok. apply andb_true_iff in Hok. destruct Hok as [Hh Hok].
    simpl. unfold bind at 1. simpl. rewrite Hh. simpl.
    unfold bind at 1.
    destruct (pathname (hdr_entry h)) as [p|]; simpl.
    + unfold call. destruct list_cb; simpl.
      * unfold bind at 1. simpl.
        match goal with |- context [list_entries true (hs ++ more) ?s] =>
          destruct (IH s Hok) as (st1 & Hrun & Htr & Hd & Hf) end.
        exists st1. split; [exact Hrun|]. simpl in *.
        rewrite Htr. now rewrite <- app_assoc.
      * unfold bind at 1. simpl.
        match goal with |- context [list_entries false (hs ++ more) ?s] =>
          destruct (IH s Hok) as (st1 & Hrun & Htr & Hd & Hf) end.
        exists st1. split; [exact Hrun|]. simpl in *.
        now rewrite Htr, app_nil_r.
    + unfold bind at 1. simpl.
      match goal with |- context [list_entries list_cb (hs ++ more) ?s] =>
        destruct (IH s Hok) as (st1 & Hrun & Htr & Hd & Hf) end.
      exists st1. split; [exact Hrun|]. simpl in *. now rewrite Htr.
Qed.

Lemma listed_of_callbacks (names : list string) : listed (map ListCb names) = names.
Proof. induction names as [|n names IH]; simpl; [reflexivity|now rewrite IH]. Qed.

Lemma reported_of_callbacks (names : list string) : reported (map ListCb names) = [].
Proof. induction names as [|n names IH]; simpl; [reflexivity|exact IH]. Qed.

Lemma valid_headers_ok (hs : list header) :
  forallb valid_header hs = true ->
  headers_ok hs = true /\ delivered hs = map name_of hs.
Proof.
  induction hs as [|h hs IH]; simpl; [now split|].
  intros H. apply andb_true_iff in H. destruct H as [Hh Hhs].
  destruct (IH Hhs) as [IH1 IH2].
  unfold valid_header in Hh. apply andb_true_iff in Hh. destruct Hh as [Hc Hp].
  rewrite Hc, IH1. split; [reflexivity|].
  unfold name_of at 1. destruct (pathname (hdr_entry h)); [|discriminate].
  simpl. now rewrite IH2.
Qed.

(** C6.  On a valid archive (it opens, and each of its N headers is read
    with ARCHIVE_OK and carries a pathname), with a listing callback
    supplied, [rar_list] returns RAR_SUCCESS and the callback receives
    exactly the N pathnames of the entries, one per entry, in the order
    of the archive. *)
Theorem rar_list_emits_every_entry (E : env) (rar_path : string)
    (password : option string) (error_cb : bool) (st : state) :
  let ar := reads E rar_path (passphrases password) in
  let listing := rar_list E rar_path password true error_cb st in
  existsb (String.eqb rar_path) (files st) = true ->
  heap E (allocs st) = true ->
  valid_archive ar = true ->
  fst listing = RAR_SUCCESS /\
  exists t, trace (snd listing) = trace st ++ t /\
            listed t = map name_of (headers ar) /\
            List.length (listed t) = List.length (headers ar).
Proof.
  intros ar listing Hf Hh Hvalid. subst listing.
  rewrite rar_list_opened by auto. fold ar.
  unfold valid_archive in Hvalid. apply andb_true_iff in Hvalid.
  destruct Hvalid as [Hopen Hhs]. rewrite Hopen. simpl.
  destruct (valid_headers_ok _ Hhs) as [Hok Hnames].
  destruct (list_entries_ok true (headers ar) [] (opened_for_list ar rar_path password st) Hok)
    as (st1 & Hrun & Htr & _).
  rewrite app_nil_r in Hrun. rewrite Hrun. simpl.
  split; [reflexivity|].
  eexists. split; [rewrite Htr; simpl; rewrite <- app_assoc; reflexivity|].
  assert (Hl : listed (map AddPassphrase (passphrases password) ++
                       [OpenFilename rar_path (code (open_filename ar))] ++
                       map ListCb (delivered (headers ar))) = map name_of (headers ar)).
  { rewrite !listed_app.
    destruct (unseen_events _ (add_passphrase_events_unseen password)) as [-> _].
    simpl. now rewrite listed_of_callbacks. }
  rewrite <- app_assoc. rewrite Hl. split; [reflexivity|apply List.length_map].
Qed.

Lemma rar_list_emits_every_entry_witness :
  let E := simple_env (fun _ => Archive fine [plain "a.txt"; plain "sub/b.txt"; plain "c"]) in
  let listing := rar_list E "x.rar" None true true (start ["x.rar"]) in
  fst listing = RAR_SUCCESS /\
  exists t, trace (snd listing) = [] ++ t /\
            listed t = ["a.txt"; "sub/b.txt"; "c"] /\
            List.length (listed t) = 3%nat.
Proof.
  intros E listing.
  apply (rar_list_emits_every_entry E "x.rar" None true (start ["x.rar"]));
    reflexivity.
Defined.

(** The listing loop stops at the first header that is not read with
    ARCHIVE_OK and leaves the reader with the error of that read. *)
Lemma list_entries_stops (list_cb : bool) (bad : header) (rest : list header)
    (st : state) :
  code (next_header bad) <> ARCHIVE_OK ->
  list_entries list_cb (bad :: rest) st =
  (code (next_header bad),
   State (dirs st) (files st) (errno st) (allocs st) (after (next_header bad))
         (wr_err st) (trace st)).
Proof.
  intros Hbad. apply Z.eqb_neq in Hbad.
  simpl. unfold bind. simpl. now rewrite Hbad.
Qed.

(** C5, as the code has it.  When [archive_read_next_header] answers
    anything but ARCHIVE_OK or ARCHIVE_EOF, [rar_list] stops there: it
    returns the code the reader's error maps to, which is never
    RAR_SUCCESS, and the callback has received the pathnames of the
    entries before that header and nothing after them.  What
    [archive_read_data_skip] returned for those entries plays no part. *)
Theorem rar_list_stops_at_header_error (E : env) (rar_path : string)
    (password : option string) (list_cb error_cb : bool) (st : state)
    (before rest : list header) (bad : header) :
  let ar := reads E rar_path (passphrases password) in
  let listing := rar_list E rar_path password list_cb error_cb st in
  existsb (String.eqb rar_path) (files st) = true ->
  heap E (allocs st) = true ->
  code (open_filename ar) = ARCHIVE_OK ->
  headers ar = before ++ bad :: rest ->
  headers_ok before = true ->
  code (next_header bad) <> ARCHIVE_OK ->
  code (next_header bad) <> ARCHIVE_EOF ->
  fst listing = classify (after (next_header bad)) /\
  fst listing <> RAR_SUCCESS /\
  exists t, trace (snd listing) = trace st ++ t /\
            listed t = (if list_cb then delivered before else []).
Proof.
  intros ar listing Hf Hh Hopen Hhs Hok Hbad Hnoteof. subst listing.
  rewrite rar_list_opened by auto. fold ar.
  rewrite Hopen, Hhs. simpl.
  destruct (list_entries_ok list_cb before (bad :: rest)
              (opened_for_list ar rar_path password st) Hok)
    as (st1 & Hrun & Htr & _).
  rewrite Hrun, list_entries_stops by assumption.
  apply Z.eqb_neq in Hnoteof. rewrite Hnoteof. simpl.
  rewrite map_archive_error_run. simpl.
  split; [reflexivity|]. split; [apply classify_not_success|].
  eexists. split; [rewrite Htr; simpl; rewrite <- !app_assoc; reflexivity|].
  rewrite !listed_app.
  destruct (unseen_events _ (add_passphrase_events_unseen password)) as [-> _].
  simpl.
  assert (Hcb : listed (match err_str (after (next_header bad)) with
                        | Some s => if error_cb then [ErrorCb s] else []
                        | None => []
                        end) = []).
  { destruct (err_str _); [destruct error_cb|]; reflexivity. }
  rewrite Hcb, app_nil_r.
  destruct list_cb; [apply listed_of_callbacks|reflexivity].
Qed.

Lemma rar_list_stops_at_header_error_witness :
  let bad := Header (Outcome ARCHIVE_FATAL (LibError 84 (Some "Bad RAR file data")))
                    (Entry None 0 fine fine [] fine) in
  let E := simple_env (fun _ => Archive fine [plain "a"; plain "b"; bad; plain "c"]) in
  let listing := rar_list E "x.rar" None true true (start ["x.rar"]) in
  fst listing = RAR_UNKNOWN_ERROR /\
  fst listing <> RAR_SUCCESS /\
  exists t, trace (snd listing) = [] ++ t /\ listed t = ["a"; "b"].
Proof.
  intros bad E listing.
  apply (rar_list_stops_at_header_error E "x.rar" None true true (start ["x.rar"])
           [plain "a"; plain "b"] [plain "c"] bad);
    try reflexivity; vm_compute; discriminate.
Defined.

(** C5, as stated, fails: skipping the data of the first entry fails
    (ARCHIVE_FAILED) and the listing goes on all the same, delivers the
    entry after it, reports no error and returns RAR_SUCCESS. *)
Lemma skip_error_does_not_stop_listing :
  let E := simple_env (fun _ => skip_fails) in
  let listing := rar_list E "x.rar" None true true (start ["x.rar"]) in
  map (fun h => code (data_skip (hdr_entry h))) (headers skip_fails)
    = [ARCHIVE_FAILED; ARCHIVE_OK] /\
  fst listing = RAR_SUCCESS /\
  listed (trace (snd listing)) = ["a"; "b"] /\
  reported (trace (snd listing)) = [].
Proof. vm_compute. repeat split. Qed.

(** ** Extraction *)

Lemma copy_data_run (blocks : list (outcome * outcome)) (st : state) :
  fst (copy_data blocks st) = copy_status blocks /\
  files (snd (copy_data blocks st)) = files st /\
  dirs (snd (copy_data blocks st)) = dirs st /\
  exists t, trace (snd (copy_data blocks st)) = trace st ++ t /\
            forallb unseen t = true.
Proof.
  revert st. induction blocks as [|[rd wr] rest IH]; intros st.
  - simpl. repeat split. exists []. now rewrite app_nil_r.
  - simpl. unfold bind. simpl.
    destruct (code rd =? ARCHIVE_EOF); simpl.
    { repeat split. exists []. now rewrite app_nil_r. }
    destruct (code rd =? ARCHIVE_OK); simpl.
    2:{ repeat split. exists []. now rewrite app_nil_r. }
    destruct (code wr =? ARCHIVE_OK); simpl.
    2:{ repeat split. now exists [WriteDataBlock (code wr)]. }
    match goal with |- context [copy_data rest ?s] =>
      destruct (IH s) as (Hr & Hf & Hd & t & Ht & Hu) end.
    simpl in Hf, Hd, Ht.
    split; [exact Hr|]. split; [exact Hf|]. split; [exact Hd|].
    exists (WriteDataBlock (code wr) :: t). split.
    + rewrite Ht. now rewrite <- app_assoc.
    + exact Hu.
Qed.

(** Copying block by block. *)
Lemma copy_data_run_status (blocks : list (outcome * outcome)) (st : state) :
  fst (copy_data blocks st) = copy_status blocks.
Proof. apply copy_data_run. Qed.

Lemma copy_data_copied (pre rest : list (outcome * outcome)) (st : state) :
  forallb copied pre = true ->
  exists st1,
    copy_data (pre ++ rest) st = copy_data rest st1 /\
    trace st1 = trace st ++ block_writes pre /\
    dirs st1 = dirs st /\ files st1 = files st /\
    errno st1 = errno st /\ allocs st1 = allocs st.
Proof.
  revert st. induction pre as [|[rd wr] pre IH]; intros st Hok.
  - exists st. simpl. rewrite app_nil_r. repeat split.
  - simpl in Hok. apply andb_true_iff in Hok. destruct Hok as [Hb Hok].
    unfold copied in Hb. simpl in Hb. apply andb_true_iff in Hb.
    destruct Hb as [Hrd Hwr].
    assert (Heof : (code rd =? ARCHIVE_EOF) = false).
    { apply Z.eqb_eq in Hrd. rewrite Hrd. reflexivity. }
    simpl. unfold bind at 1. simpl. rewrite Heof, Hrd. simpl.
    unfold bind at 1. simpl. unfold bind at 1. simpl. rewrite Hwr. simpl.
    match goal with |- context [copy_data (pre ++ rest) ?s] =>
      destruct (IH s Hok) as (st1 & Hrun & Ht & Hd & Hf & He & Ha) end.
    exists st1. split; [exact Hrun|]. simpl in *.
    split; [rewrite Ht; now rewrite <- app_assoc|]. now repeat split.
Qed.

Lemma copy_data_breaks_off (blocks pre : list (outcome * outcome)) (rd wr : outcome)
    (st : state) :
  breaks_off_at blocks pre rd wr ->
  let run := copy_data blocks st in
  fst run = (if code rd =? ARCHIVE_OK then code wr else code rd) /\
  fst run <> ARCHIVE_OK /\
  rd_err (snd run) = after rd /\
  trace (snd run) =
  trace st ++ block_writes pre ++
  (if code rd =? ARCHIVE_OK then [WriteDataBlock (code wr)] else []).
Proof.
  intros ((rest & ->) & Hpre & Hbad) run. subst run.
  destruct (copy_data_copied pre ((rd, wr) :: rest) st Hpre)
    as (st1 & -> & Ht & _).
  simpl. unfold bind at 1. simpl.
  destruct Hbad as [(Hrd & Heof) | (Hrd & Hwr)].
  - apply Z.eqb_neq in Hrd. apply Z.eqb_neq in Heof. rewrite Heof, Hrd. simpl.
    rewrite app_nil_r. apply Z.eqb_neq in Hrd. now repeat split.
  - rewrite Hrd. simpl. unfold bind. simpl.
    apply Z.eqb_neq in Hwr. rewrite Hwr. simpl. apply Z.eqb_neq in Hwr.
    rewrite Ht. rewrite <- app_assoc. now repeat split.
Qed.

Lemma copy_data_ends (pre rest : list (outcome * outcome)) (st : state) :
  forallb copied pre = true ->
  (rest = [] \/ exists rd wr tl, rest = (rd, wr) :: tl /\ code rd = ARCHIVE_EOF) ->
  fst (copy_data (pre ++ rest) st) = ARCHIVE_OK /\
  trace (snd (copy_data (pre ++ rest) st)) = trace st ++ block_writes pre.
Proof.
  intros Hpre Hend.
  destruct (copy_data_copied pre rest st Hpre) as (st1 & -> & Ht & _).
  destruct Hend as [-> | (rd & wr & tl & -> & Heof)].
  - simpl. now split.
  - simpl. unfold bind. simpl. rewrite Heof. simpl. now split.
Qed.

Lemma blocks_split (blocks : list (outcome * outcome)) :
  exists pre rest,
    blocks = pre ++ rest /\ forallb copied pre = true /\
    match rest with [] => True | b :: _ => copied b = false end.
Proof.
  induction blocks as [|b blocks IH].
  - now exists [], [].
  - destruct (copied b) eqn:Hb.
    + destruct IH as (pre & rest & -> & Hpre & Hrest).
      exists (b :: pre), rest. simpl. rewrite Hb, Hpre. now repeat split.
    + exists [], (b :: blocks). now repeat split.
Qed.

Lemma not_copied (rd wr : outcome) :
  copied (rd, wr) = false ->
  code rd = ARCHIVE_EOF \/
  (code rd <> ARCHIVE_OK /\ code rd <> ARCHIVE_EOF) \/
  (code rd = ARCHIVE_OK /\ code wr <> ARCHIVE_OK).
Proof.
  unfold copied. simpl. intros H. apply andb_false_iff in H.
  destruct (Z.eq_dec (code rd) ARCHIVE_EOF) as [Heof | Heof]; [now left|right].
  destruct (Z.eq_dec (code rd) ARCHIVE_OK) as [Hrd | Hrd]; [right|now left].
  split; [exact Hrd|]. destruct H as [H | H]; apply Z.eqb_neq in H; congruence.
Qed.

Lemma copy_status_breaks_off (blocks : list (outcome * outcome)) :
  copy_status blocks <> ARCHIVE_OK ->
  exists pre rd wr, breaks_off_at blocks pre rd wr.
Proof.
  intros Hbad.
  destruct (blocks_split blocks) as (pre & rest & Hsplit & Hpre & Hrest).
  destruct rest as [|[rd wr] tl].
  - exfalso. apply Hbad. rewrite <- (copy_data_run_status blocks (start [])), Hsplit.
    now apply copy_data_ends; [|left].
  - destruct (not_copied rd wr Hrest) as [Heof | Hfails].
    + exfalso. apply Hbad. rewrite <- (copy_data_run_status blocks (start [])), Hsplit.
      apply copy_data_ends; [exact Hpre|]. right. now exists rd, wr, tl.
    + exists pre, rd, wr. split; [now exists tl|now split].
Qed.

Lemma breaking_block_not_copied (rd wr : outcome) :
  (code rd <> ARCHIVE_OK /\ code rd <> ARCHIVE_EOF) \/
  (code rd = ARCHIVE_OK /\ code wr <> ARCHIVE_OK) ->
  copied (rd, wr) = false.
Proof.
  unfold copied. simpl. intros [(Hrd & _) | (_ & Hwr)].
  - apply Z.eqb_neq in Hrd. now rewrite Hrd.
  - apply Z.eqb_neq in Hwr. rewrite Hwr. apply andb_false_r.
Qed.

(** The copying of a run of blocks breaks off at one place at most. *)
Lemma breaks_off_once (blocks pre pre' : list (outcome * outcome))
    (rd wr rd' wr' : outcome) :
  breaks_off_at blocks pre rd wr -> breaks_off_at blocks pre' rd' wr' ->
  pre = pre' /\ rd = rd' /\ wr = wr'.
Proof.
  intros ((rest & ->) & Hpre & Hbad) ((rest' & Heq) & Hpre' & Hbad').
  apply breaking_block_not_copied in Hbad, Hbad'.
  revert pre' Heq Hpre'. induction pre as [|b pre IH]; intros pre' Heq Hpre'.
  - destruct pre' as [|b' pre'].
    + simpl in Heq. inversion Heq. now repeat split.
    + simpl in Heq, Hpre'. inversion Heq; subst b'.
      apply andb_true_iff in Hpre'. destruct Hpre' as [Hb _]. congruence.
  - simpl in Hpre. apply andb_true_iff in Hpre. destruct Hpre as [Hb Hpre].
    destruct pre' as [|b' pre'].
    + simpl in Heq. inversion Heq; subst b. congruence.
    + simpl in Heq, Hpre'. inversion Heq; subst b'.
      apply andb_true_iff in Hpre'. destruct Hpre' as [_ Hpre'].
      destruct (IH Hpre pre' H1 Hpre') as (-> & -> & ->). now repeat split.
Qed.

(** The failure of an entry maps to one code. *)
Lemma failure_maps_to_one_code (e : entry) (result other : Z) :
  failure_maps_to e result -> failure_maps_to e other -> other = result.
Proof.
  assert (Hcopy : forall pre rd wr,
             breaks_off_at (data_blocks e) pre rd wr ->
             copy_status (data_blocks e) <> ARCHIVE_OK).
  { intros pre rd wr Hb.
    rewrite <- (copy_data_run_status (data_blocks e) (start [])).
    apply (copy_data_breaks_off _ _ _ _ (start []) Hb). }
  intros [(Hw & ->) | [(Hw & Hs & pre & rd & wr & Hb & ->) | (Hw & Hs & Hf & ->)]]
         [(Hw' & ->) | [(Hw' & Hs' & pre' & rd' & wr' & Hb' & ->) | (Hw' & Hs' & Hf' & ->)]];
    try reflexivity; try contradiction.
  - now destruct (breaks_off_once _ _ _ _ _ _ _ Hb Hb') as (_ & -> & _).
  - destruct Hs' as [Hs' | Hs']; [lia|]. now apply Hcopy in Hb.
  - destruct Hs as [Hs | Hs]; [lia|]. now apply Hcopy in Hb'.
Qed.

(** One pass through the body of the extraction loop, for an entry with
    a pathname and with memory for the output path: the entry is handed
    to the disk writer under [dest_path], the separator and its own
    pathname; the body reaches its end exactly when the three steps
    succeed, and leaves the loop with a result other than RAR_SUCCESS
    otherwise. *)
Lemma extract_entry_run (E : env) (dest_path : string) (error_cb : bool)
    (r0 : Z) (e : entry) (p : string) (st : state) :
  pathname e = Some p ->
  heap E (allocs st) = true ->
  let run := extract_entry E dest_path error_cb r0 e st in
  let full_path := dest_path +++ String (PATH_SEP E) p in
  (entry_status e = ARCHIVE_OK -> fst run = Some (inr tt)) /\
  (entry_status e <> ARCHIVE_OK ->
   exists result, fst run = Some (inl (entry_status e, result)) /\
                  result <> RAR_SUCCESS) /\
  files (snd run) = files st /\
  exists t1 t2,
    trace (snd run) =
    trace st ++ t1 ++ [WriteHeader full_path (code (write_header e))] ++ t2 /\
    forallb unseen t1 = true /\ forallb unseen t2 = true.
Proof.
  intros Hp Hh run full_path.
  assert (Hrun : run = extract_entry E dest_path error_cb r0 e st) by reflexivity.
  clearbody run.
  unfold extract_entry in Hrun. rewrite Hp in Hrun.
  unfold bind at 1, alloc at 1 in Hrun. simpl in Hrun. rewrite Hh in Hrun.
  simpl in Hrun. fold full_path in Hrun.
  unfold bind at 1 in Hrun.
  match type of Hrun with context [get_parent_directory E full_path ?s] =>
    pose proof (get_parent_directory_mkdirs_only E full_path s) as Hg;
    destruct (get_parent_directory E full_path s) as [parent s1] end.
  simpl in Hg.
  unfold bind at 1 in Hrun.
  assert (Hparents : exists s2,
             (match parent with
              | Some q => create_directory_recursive E q ;;; ret tt
              | None => ret tt
              end) s1 = (tt, s2) /\ mkdirs_only s1 s2).
  { destruct parent as [q|].
    - unfold bind, ret.
      pose proof (create_directory_recursive_mkdirs_only E q s1) as Hc.
      destruct (create_directory_recursive E q s1) as [c s2]. now exists s2.
    - exists s1. split; [reflexivity|apply mkdirs_only_refl]. }
  destruct Hparents as (s2 & Hpar & Hc). rewrite Hpar in Hrun. clear Hpar.
  pose proof (mkdirs_only_trans _ _ _ Hg Hc) as (Hfiles & _ & _ & _ & t1 & Ht1 & Hm1).
  simpl in Hfiles, Ht1. apply mkdirs_are_unseen in Hm1.
  unfold entry_status.
  unfold archive_write_header, bind at 1 in Hrun. simpl in Hrun.
  unfold bind at 1 in Hrun. simpl in Hrun. unfold bind at 1 in Hrun. simpl in Hrun.
  destruct (code (write_header e) =? ARCHIVE_OK) eqn:Hw; simpl in Hrun |- *.
  2:{ rewrite map_archive_error_run in Hrun. simpl in Hrun. subst run. simpl.
      split; [intros H; apply Z.eqb_neq in Hw; contradiction|].
      split; [intros _; eexists; split; [reflexivity|apply classify_not_success]|].
      split; [exact Hfiles|].
      exists t1. eexists. split; [rewrite Ht1, <- !app_assoc; reflexivity|].
      split; [exact Hm1|]. callback_cases. }
  unfold bind at 1 in Hrun.
  assert (Hcopy : exists s3 t3,
             (if size e >? 0 then copy_data (data_blocks e) else ret (code (write_header e)))
               (State (dirs s2) (files s2) (errno s2) (allocs s2) (rd_err s2)
                      (after (write_header e))
                      (trace s2 ++ [WriteHeader full_path (code (write_header e))]))
             = ((if size e >? 0 then copy_status (data_blocks e) else ARCHIVE_OK), s3) /\
             files s3 = files s2 /\
             trace s3 = (trace s2 ++ [WriteHeader full_path (code (write_header e))]) ++ t3 /\
             forallb unseen t3 = true).
  { destruct (size e >? 0).
    - match goal with |- context [copy_data ?b ?s] =>
        destruct (copy_data_run b s) as (Hr & Hf & _ & t3 & Ht3 & Hu3);
        destruct (copy_data b s) as [r s3] end.
      simpl in *. subst r. now exists s3, t3.
    - apply Z.eqb_eq in Hw. rewrite Hw. unfold ret. eexists. exists [].
      split; [reflexivity|]. simpl. now rewrite app_nil_r. }
  destruct Hcopy as (s3 & t3 & Hcp & Hf3 & Ht3 & Hu3). rewrite Hcp in Hrun. clear Hcp.
  set (r := if size e >? 0 then copy_status (data_blocks e) else ARCHIVE_OK) in *.
  destruct (r =? ARCHIVE_OK) eqn:Hr; simpl in Hrun |- *.
  2:{ rewrite map_archive_error_run in Hrun. simpl in Hrun. subst run. simpl.
      split; [intros H; apply Z.eqb_neq in Hr; contradiction|].
      split; [intros _; eexists; split; [reflexivity|apply classify_not_success]|].
      split; [congruence|].
      exists t1. eexists. split; [rewrite Ht3, Ht1, <- !app_assoc; reflexivity|].
      split; [exact Hm1|].
      rewrite forallb_app, Hu3. callback_cases. }
  unfold archive_write_finish_entry, bind in Hrun. simpl in Hrun.
  destruct (code (finish_entry e) =? ARCHIVE_OK) eqn:Hfin; simpl in Hrun |- *.
  - subst run. simpl. split; [reflexivity|].
    split; [intros H; apply Z.eqb_eq in Hfin; contradiction|].
    split; [congruence|].
    exists t1. eexists. split; [rewrite Ht3, Ht1, <- !app_assoc; reflexivity|].
    split; [exact Hm1|]. now rewrite forallb_app, Hu3.
  - rewrite map_archive_error_run in Hrun. simpl in Hrun. subst run. simpl.
    split; [intros H; apply Z.eqb_neq in Hfin; contradiction|].
    split; [intros _; eexists; split; [reflexivity|apply classify_not_success]|].
    split; [congruence|].
    exists t1. eexists. split; [rewrite Ht3, Ht1, <- !app_assoc; reflexivity|].
    split; [exact Hm1|].
    rewrite !forallb_app, Hu3. simpl. callback_cases.
Qed.

Lemma entry_status_ok_header (e : entry) :
  entry_status e = ARCHIVE_OK -> code (write_header e) = ARCHIVE_OK.
Proof.
  unfold entry_status.
  destruct (code (write_header e) =? ARCHIVE_OK) eqn:Hw; simpl.
  - intros _. now apply Z.eqb_eq.
  - intros H. rewrite H in Hw. discriminate.
Qed.

(** The body of the extraction loop at an entry that fails: the result
    it leaves the loop with is the code the failure maps to. *)
Lemma extract_entry_failure (E : env) (dest_path : string) (error_cb : bool)
    (r0 : Z) (e : entry) (p : string) (st : state) :
  pathname e = Some p ->
  heap E (allocs st) = true ->
  entry_status e <> ARCHIVE_OK ->
  exists result,
    fst (extract_entry E dest_path error_cb r0 e st) =
    Some (inl (entry_status e, result)) /\
    failure_maps_to e result.
Proof.
  intros Hp Hh Hbad.
  remember (extract_entry E dest_path error_cb r0 e st) as run eqn:Hrun.
  unfold extract_entry in Hrun. rewrite Hp in Hrun.
  unfold bind at 1, alloc at 1 in Hrun. simpl in Hrun. rewrite Hh in Hrun.
  simpl in Hrun. unfold bind at 1 in Hrun.
  destruct (get_parent_directory E _ _) as [parent s1].
  unfold bind at 1 in Hrun.
  assert (Hparents : exists s2,
             (match parent with
              | Some q => create_directory_recursive E q ;;; ret tt
              | None => ret tt
              end) s1 = (tt, s2)).
  { destruct parent as [q|]; [|now exists s1].
    unfold bind, ret. destruct (create_directory_recursive E q s1) as [c s2].
    now exists s2. }
  destruct Hparents as (s2 & Hpar). rewrite Hpar in Hrun. clear Hpar.
  unfold entry_status in *.
  unfold archive_write_header, bind at 1 in Hrun. simpl in Hrun.
  unfold bind at 1 in Hrun. simpl in Hrun. unfold bind at 1 in Hrun. simpl in Hrun.
  destruct (code (write_header e) =? ARCHIVE_OK) eqn:Hw; simpl in Hrun, Hbad |- *.
  2:{ rewrite map_archive_error_run in Hrun. simpl in Hrun. subst run. simpl.
      eexists. split; [reflexivity|]. left.
      split; [now apply Z.eqb_neq|reflexivity]. }
  apply Z.eqb_eq in Hw.
  unfold bind at 1 in Hrun.
  set (s2' := State (dirs s2) (files s2) (errno s2) (allocs s2) (rd_err s2)
                    (after (write_header e))
                    (trace s2 ++ [WriteHeader (dest_path +++ String (PATH_SEP E) p)
                                              (code (write_header e))])) in *.
  assert (Hcopy : exists s3,
             (if size e >? 0 then copy_data (data_blocks e)
              else ret (code (write_header e))) s2'
             = ((if size e >? 0 then copy_status (data_blocks e) else ARCHIVE_OK), s3) /\
             (size e > 0 -> copy_status (data_blocks e) <> ARCHIVE_OK ->
              exists pre rd wr,
                breaks_off_at (data_blocks e) pre rd wr /\ rd_err s3 = after rd)).
  { destruct (size e >? 0) eqn:Hs.
    - exists (snd (copy_data (data_blocks e) s2')). split.
      + rewrite <- (copy_data_run_status (data_blocks e) s2').
        now destruct (copy_data (data_blocks e) s2').
      + intros _ Hc. destruct (copy_status_breaks_off _ Hc) as (pre & rd & wr & Hb).
        exists pre, rd, wr. split; [exact Hb|].
        now apply (copy_data_breaks_off _ _ _ _ s2' Hb).
    - exists s2'. rewrite Hw. split; [reflexivity|].
      intros Hpos. apply Z.gt_lt, Z.gtb_lt in Hpos. congruence. }
  destruct Hcopy as (s3 & Hcp & Hbreak). rewrite Hcp in Hrun. clear Hcp.
  assert (Hsize : (size e >? 0) = true -> size e > 0).
  { intros H. now apply Z.gtb_lt, Z.lt_gt in H. }
  destruct (size e >? 0) eqn:Hs.
  - destruct (copy_status (data_blocks e) =? ARCHIVE_OK) eqn:Hc;
      simpl in Hrun, Hbad |- *.
    + apply Z.eqb_eq in Hc.
      unfold archive_write_finish_entry, bind in Hrun. simpl in Hrun.
      destruct (code (finish_entry e) =? ARCHIVE_OK) eqn:Hfin; simpl in Hrun.
      * apply Z.eqb_eq in Hfin. contradiction.
      * rewrite map_archive_error_run in Hrun. simpl in Hrun. subst run. simpl.
        eexists. split; [reflexivity|]. right. right.
        split; [exact Hw|]. split; [now right|].
        split; [now apply Z.eqb_neq|reflexivity].
    + apply Z.eqb_neq in Hc.
      destruct (Hbreak (Hsize eq_refl) Hc) as (pre & rd & wr & Hb & Herr).
      rewrite map_archive_error_run in Hrun. simpl in Hrun. subst run. simpl.
      eexists. split; [reflexivity|]. right. left.
      split; [exact Hw|]. split; [now apply Hsize|].
      exists pre, rd, wr. split; [exact Hb|]. now rewrite Herr.
  - simpl in Hrun, Hbad |- *.
    unfold archive_write_finish_entry, bind in Hrun. simpl in Hrun.
    destruct (code (finish_entry e) =? ARCHIVE_OK) eqn:Hfin; simpl in Hrun.
    + apply Z.eqb_eq in Hfin. contradiction.
    + rewrite map_archive_error_run in Hrun. simpl in Hrun. subst run. simpl.
      eexists. split; [reflexivity|]. right. right.
      split; [exact Hw|]. split; [left; rewrite Z.gtb_ltb in Hs; apply Z.ltb_ge in Hs; lia|].
      split; [now apply Z.eqb_neq|reflexivity].
Qed.

Lemma one_header_among_unseen (t1 t2 : list event) (p : string) (r : Z) :
  forallb unseen t1 = true -> forallb unseen t2 = true ->
  let t := t1 ++ [WriteHeader p r] ++ t2 in
  handed_to_writer t = [p] /\
  written t = (if r =? ARCHIVE_OK then [p] else []) /\
  listed t = [].
Proof.
  intros H1 H2 t. subst t.
  destruct (unseen_events _ H1) as (L1 & W1 & X1).
  destruct (unseen_events _ H2) as (L2 & W2 & X2).
  rewrite !handed_to_writer_app, !written_app, !listed_app.
  rewrite L1, W1, X1, L2, W2, X2. simpl.
  now rewrite !app_nil_r.
Qed.

(** The extraction loop over entries that all extract cleanly: it runs
    to the end of them, handing each to the disk writer under its output
    path, in order. *)
Lemma extract_entries_clean (E : env) (dest_path : string) (error_cb : bool)
    (good more : list header) (st : state) :
  enough_memory E ->
  forallb extracts_cleanly good = true ->
  exists st1 t,
    extract_entries E dest_path error_cb (good ++ more) st =
    extract_entries E dest_path error_cb more st1 /\
    files st1 = files st /\
    trace st1 = trace st ++ t /\
    handed_to_writer t = map (output_path E dest_path) good /\
    written t = map (output_path E dest_path) good /\
    listed t = [].
Proof.
  intros Hmem. revert st. induction good as [|h good IH]; intros st Hgood.
  - exists st, []. simpl. now rewrite app_nil_r.
  - simpl in Hgood. apply andb_true_iff in Hgood. destruct Hgood as [Hh Hgood].
    unfold extracts_cleanly in Hh. apply andb_true_iff in Hh. destruct Hh as [Hv Hs].
    unfold valid_header in Hv. apply andb_true_iff in Hv. destruct Hv as [Hc Hp].
    apply Z.eqb_eq in Hs.
    destruct (pathname (hdr_entry h)) as [p|] eqn:Hpath; [clear Hp|discriminate].
    simpl. unfold bind at 1. simpl. rewrite Hc. simpl. unfold bind at 1.
    match goal with |- context [extract_entry E dest_path error_cb ?r0 ?e ?s] =>
      destruct (extract_entry_run E dest_path error_cb r0 e p s Hpath (Hmem _))
        as (Hok & _ & Hf & t1 & t2 & Ht & Hu1 & Hu2);
      destruct (extract_entry E dest_path error_cb r0 e s) as [res s1] end.
    simpl in Hok, Hf, Ht. rewrite (Hok Hs).
    rewrite (entry_status_ok_header _ Hs) in Ht.
    destruct (IH s1 Hgood) as (st1 & t & Hrun & Hf1 & Ht1 & Hh1 & Hw1 & Hl1).
    exists st1, ((t1 ++ [WriteHeader (dest_path +++ String (PATH_SEP E) p) ARCHIVE_OK]
                     ++ t2) ++ t).
    split; [exact Hrun|]. split; [congruence|].
    split; [rewrite Ht1, Ht; now rewrite <- !app_assoc|].
    destruct (one_header_among_unseen t1 t2 (dest_path +++ String (PATH_SEP E) p)
                ARCHIVE_OK Hu1 Hu2) as (A & B & C).
    rewrite handed_to_writer_app, written_app, listed_app.
    cbn [app] in A, B, C |- *.
    rewrite A, B, C, Hh1, Hw1, Hl1.
    assert (Hout : output_path E dest_path h = dest_path +++ String (PATH_SEP E) p)
      by (unfold output_path, name_of; now rewrite Hpath).
    cbn [map]. rewrite Hout. now split.
Qed.

Lemma passphrase_events_silent (password : option string) :
  let t := map AddPassphrase (passphrases password) in
  listed t = [] /\ reported t = [] /\ handed_to_writer t = [] /\ written t = [].
Proof.
  destruct (passphrases_at_most_one password) as [Hp | [p Hp]]; rewrite Hp;
    repeat split.
Qed.

(** ** Archives without entries *)

(** C7.  A valid archive with no entries is listed and extracted with
    RAR_SUCCESS: the listing callback receives nothing, nothing is handed
    to the disk writer, and no error is reported.  For extraction this
    supposes that the destination directory could be created. *)
Theorem zero_entry_archive_succeeds (E : env) (rar_path dest_path : string)
    (password : option string) (list_cb error_cb : bool) (st : state) :
  let ar := reads E rar_path (passphrases password) in
  let listing := rar_list E rar_path password list_cb error_cb st in
  let extraction := rar_extract E rar_path dest_path password error_cb st in
  existsb (String.eqb rar_path) (files st) = true ->
  enough_memory E ->
  valid_archive ar = true ->
  headers ar = [] ->
  (fst listing = RAR_SUCCESS /\
   listed (trace (snd listing)) = listed (trace st) /\
   reported (trace (snd listing)) = reported (trace st)) /\
  (fst (create_directory_recursive E dest_path st) = 0 ->
   fst extraction = Some RAR_SUCCESS /\
   handed_to_writer (trace (snd extraction)) = handed_to_writer (trace st) /\
   reported (trace (snd extraction)) = reported (trace st)).
Proof.
  intros ar listing extraction Hf Hmem Hvalid Hnone.
  unfold valid_archive in Hvalid. apply andb_true_iff in Hvalid.
  destruct Hvalid as [Hopen _].
  destruct (passphrase_events_silent password) as (Pl & Pr & Ph & _).
  split.
  - subst listing. rewrite rar_list_opened by auto. fold ar.
    rewrite Hopen, Hnone. simpl.
    rewrite listed_app, reported_app, (listed_app (map _ _)), (reported_app (map _ _)).
    rewrite Pl, Pr. simpl. now rewrite !app_nil_r.
  - intros Hc. subst extraction. rewrite rar_extract_opened by auto. fold ar.
    rewrite Hopen, Hnone. simpl.
    pose proof (create_directory_recursive_mkdirs_only E dest_path st)
      as (_ & _ & _ & _ & t1 & Ht1 & Hm1).
    destruct (mkdirs_are_silent _ Hm1) as (_ & Hw & _ & Hr).
    rewrite Ht1.
    rewrite !handed_to_writer_app, !reported_app.
    rewrite Ph, Pr, Hw, Hr. simpl. now rewrite !app_nil_r.
Qed.

Lemma zero_entry_archive_succeeds_witness :
  let E := simple_env (fun _ => Archive fine []) in
  let st := start ["empty.rar"] in
  (fst (rar_list E "empty.rar" None true true st) = RAR_SUCCESS /\
   listed (trace (snd (rar_list E "empty.rar" None true true st))) = [] /\
   reported (trace (snd (rar_list E "empty.rar" None true true st))) = []) /\
  (fst (rar_extract E "empty.rar" "out" None true st) = Some RAR_SUCCESS /\
   handed_to_writer (trace (snd (rar_extract E "empty.rar" "out" None true st))) = [] /\
   reported (trace (snd (rar_extract E "empty.rar" "out" None true st))) = []).
Proof.
  intros E st.
  destruct (zero_entry_archive_succeeds E "empty.rar" "out" None true true st)
    as [Hl He]; try reflexivity.
  - intros n. reflexivity.
  - split; [exact Hl|]. apply He. reflexivity.
Defined.

(** ** A failing entry *)

(** The extraction loop at an entry that fails: it leaves the loop there
    with the status of the failing step and, as its result, the code the
    failure maps to, which is not RAR_SUCCESS, whatever headers follow. *)
Lemma extract_entries_failing (E : env) (dest_path : string) (error_cb : bool)
    (bad : header) (rest : list header) (p : string) (st : state) :
  heap E (allocs st) = true ->
  code (next_header bad) = ARCHIVE_OK ->
  pathname (hdr_entry bad) = Some p ->
  entry_status (hdr_entry bad) <> ARCHIVE_OK ->
  exists result st1 t1 t2,
    extract_entries E dest_path error_cb (bad :: rest) st =
    (Some (entry_status (hdr_entry bad), result), st1) /\
    result <> RAR_SUCCESS /\
    trace st1 =
    trace st ++ t1 ++ [WriteHeader (dest_path +++ String (PATH_SEP E) p)
                                   (code (write_header (hdr_entry bad)))] ++ t2 /\
    forallb unseen t1 = true /\ forallb unseen t2 = true /\
    failure_maps_to (hdr_entry bad) result.
Proof.
  intros Hh Hcode Hpath Hbad.
  simpl. unfold bind at 1. simpl.
  apply Z.eqb_eq in Hcode. rewrite Hcode. simpl. unfold bind at 1.
  match goal with |- context [extract_entry E dest_path error_cb ?r0 ?e ?s] =>
    destruct (extract_entry_run E dest_path error_cb r0 e p s Hpath Hh)
      as (_ & Hfail & _ & t1 & t2 & Ht' & Hu1 & Hu2);
    destruct (extract_entry_failure E dest_path error_cb r0 e p s Hpath Hh Hbad)
      as (mapped & Hmapped & Hmaps);
    destruct (extract_entry E dest_path error_cb r0 e s) as [res s1] end.
  simpl in Hfail, Ht', Hmapped.
  destruct (Hfail Hbad) as (result & -> & Hresult).
  assert (mapped = result) as -> by congruence.
  exists result, s1, t1, t2. now repeat split.
Qed.

(** C2, as the code has it.  When an entry fails (writing its header,
    copying its data or finishing it does not return ARCHIVE_OK),
    [rar_extract] leaves the loop at that entry: its one result is the
    code that failure maps to (what [map_archive_error] makes of the
    handle it is given: the writer after a failed header or a failed
    finish, the reader after the copying of the data broke off, at a read
    or at a write), which is determined by the entry and is never
    RAR_SUCCESS; the entries before the failing one were written, the
    failing one was handed to the disk writer, and none of the entries
    after it is attempted. *)
Theorem rar_extract_stops_at_first_failure (E : env) (rar_path dest_path : string)
    (password : option string) (error_cb : bool) (st : state)
    (good rest : list header) (bad : header) :
  let ar := reads E rar_path (passphrases password) in
  let extraction := rar_extract E rar_path dest_path password error_cb st in
  existsb (String.eqb rar_path) (files st) = true ->
  enough_memory E ->
  fst (create_directory_recursive E dest_path st) = 0 ->
  code (open_filename ar) = ARCHIVE_OK ->
  headers ar = good ++ bad :: rest ->
  forallb extracts_cleanly good = true ->
  valid_header bad = true ->
  entry_status (hdr_entry bad) <> ARCHIVE_OK ->
  (exists result,
      fst extraction = Some result /\ result <> RAR_SUCCESS /\
      failure_maps_to (hdr_entry bad) result /\
      forall other, failure_maps_to (hdr_entry bad) other -> other = result) /\
  exists t, trace (snd extraction) = trace st ++ t /\
            handed_to_writer t = map (output_path E dest_path) (good ++ [bad]) /\
            written t =
            map (output_path E dest_path) good ++
            (if code (write_header (hdr_entry bad)) =? ARCHIVE_OK
             then [output_path E dest_path bad] else []).
Proof.
  intros ar extraction Hf Hmem Hc Hopen Hhs Hgood Hvalid Hbad. subst extraction.
  rewrite rar_extract_opened by auto. fold ar. rewrite Hopen, Hhs. simpl.
  destruct (extract_entries_clean E dest_path error_cb good (bad :: rest)
              (opened_for_extract ar rar_path password
                 (snd (create_directory_recursive E dest_path st))) Hmem Hgood)
    as (st1 & t & Hrun & _ & Ht & Hh & Hw & _).
  rewrite Hrun. clear Hrun.
  unfold valid_header in Hvalid. apply andb_true_iff in Hvalid.
  destruct Hvalid as [Hcode Hp]. apply Z.eqb_eq in Hcode.
  destruct (pathname (hdr_entry bad)) as [p|] eqn:Hpath; [clear Hp|discriminate].
  destruct (extract_entries_failing E dest_path error_cb bad rest p st1
              (Hmem _) Hcode Hpath Hbad)
    as (result & s1 & t1 & t2 & Hrun & Hresult & Ht' & Hu1 & Hu2 & Hmaps).
  rewrite Hrun. clear Hrun.
  replace (result =? RAR_SUCCESS) with false by (symmetry; now apply Z.eqb_neq).
  rewrite andb_false_r. simpl.
  split.
  { exists result. repeat split; auto.
    intros other Hother. now apply (failure_maps_to_one_code (hdr_entry bad)). }
  pose proof (create_directory_recursive_mkdirs_only E dest_path st)
    as (_ & _ & _ & _ & t0 & Ht0 & Hm0).
  destruct (mkdirs_are_silent _ Hm0) as (_ & H0h & H0w & _).
  destruct (passphrase_events_silent password) as (_ & _ & Ph & Pw).
  destruct (unseen_events _ Hu1) as (_ & A1 & B1).
  destruct (unseen_events _ Hu2) as (_ & A2 & B2).
  assert (Hout : output_path E dest_path bad = dest_path +++ String (PATH_SEP E) p)
    by (unfold output_path, name_of; now rewrite Hpath).
  exists (t0 ++ map AddPassphrase (passphrases password) ++
          [SetOptions extract_flags; OpenFilename rar_path (code (open_filename ar))] ++
          t ++ t1 ++ [WriteHeader (dest_path +++ String (PATH_SEP E) p)
                                  (code (write_header (hdr_entry bad)))] ++ t2).
  split.
  - rewrite Ht', Ht. unfold opened_for_extract. simpl. rewrite Ht0.
    now rewrite <- !app_assoc.
  - rewrite !handed_to_writer_app, !written_app.
    rewrite H0h, H0w, Ph, Pw, Hh, Hw, A1, A2, B1, B2, map_app. simpl.
    rewrite !app_nil_r, Hout. now split.
Qed.

Lemma rar_extract_stops_at_first_failure_witness :
  let bad := Header fine (Entry (Some "a") 5 fine fine
               [(Outcome ARCHIVE_FAILED (LibError 84 (Some "File CRC error")), fine)]
               fine) in
  let E := simple_env (fun _ => Archive fine [plain "first"; bad; plain "b"]) in
  let extraction := rar_extract E "x.rar" "out" None true (start ["x.rar"]) in
  fst extraction = Some RAR_BAD_DATA /\
  exists t, trace (snd extraction) = [] ++ t /\
            handed_to_writer t = ["out/first"; "out/a"] /\
            written t = ["out/first"; "out/a"].
Proof.
  intros bad E extraction.
  destruct (rar_extract_stops_at_first_failure E "x.rar" "out" None true
              (start ["x.rar"]) [plain "first"] [plain "b"] bad)
    as ((result & Hres & _ & _ & Hone) & Ht); try reflexivity.
  - intros n. reflexivity.
  - vm_compute. discriminate.
  - split; [|exact Ht].
    transitivity (Some result); [exact Hres|]. f_equal. symmetry. apply Hone.
    right. left. split; [reflexivity|]. split; [reflexivity|].
    exists [], (Outcome ARCHIVE_FAILED (LibError 84 (Some "File CRC error"))), fine.
    split; [|reflexivity].
    split; [now exists []|]. split; [reflexivity|].
    left. split; discriminate.
Defined.

(** C2, as stated, fails: the first of two entries fails its CRC check
    and the extraction ends there with the one code RAR_BAD_DATA; the
    second entry, which would extract cleanly, is never handed to the
    disk writer. *)
Lemma sibling_of_failed_entry_is_not_extracted :
  let E := simple_env (fun _ => crc_fails) in
  let extraction := rar_extract E "x.rar" "out" None true (start ["x.rar"]) in
  map extracts_cleanly (headers crc_fails) = [false; true] /\
  fst extraction = Some RAR_BAD_DATA /\
  handed_to_writer (trace (snd extraction)) = ["out/a"] /\
  ~ In "out/b" (handed_to_writer (trace (snd extraction))).
Proof.
  vm_compute. repeat split. intros [H | []]. discriminate H.
Qed.

(** ** Entry paths *)

Lemma extract_flags_ask_for_no_path_check :
  Z.land extract_flags
         (Z.lor ARCHIVE_EXTRACT_SECURE_NODOTDOT
                (Z.lor ARCHIVE_EXTRACT_SECURE_SYMLINKS
                       ARCHIVE_EXTRACT_SECURE_NOABSOLUTEPATHS)) = 0.
Proof. reflexivity. Qed.

(** C1, as the code has it.  The path under which an entry is handed to
    the disk writer is [dest_path], the separator and the entry's own
    pathname, joined as they are.  No pathname is turned down: when the
    library calls of every entry succeed, whatever the pathnames are,
    [rar_extract] returns RAR_SUCCESS and every joined path has been
    written, in order.  The options given to the disk writer ask for
    none of libarchive's own path checks. *)
Theorem rar_extract_writes_joined_paths (E : env) (rar_path dest_path : string)
    (password : option string) (error_cb : bool) (st : state) :
  let ar := reads E rar_path (passphrases password) in
  let extraction := rar_extract E rar_path dest_path password error_cb st in
  existsb (String.eqb rar_path) (files st) = true ->
  enough_memory E ->
  fst (create_directory_recursive E dest_path st) = 0 ->
  code (open_filename ar) = ARCHIVE_OK ->
  forallb extracts_cleanly (headers ar) = true ->
  fst extraction = Some RAR_SUCCESS /\
  exists t, trace (snd extraction) = trace st ++ t /\
            written t = map (output_path E dest_path) (headers ar) /\
            In (SetOptions extract_flags) t /\
            Z.land extract_flags
                   (Z.lor ARCHIVE_EXTRACT_SECURE_NODOTDOT
                          (Z.lor ARCHIVE_EXTRACT_SECURE_SYMLINKS
                                 ARCHIVE_EXTRACT_SECURE_NOABSOLUTEPATHS)) = 0.
Proof.
  intros ar extraction Hf Hmem Hc Hopen Hclean. subst extraction.
  rewrite rar_extract_opened by auto. fold ar. rewrite Hopen. simpl.
  destruct (extract_entries_clean E dest_path error_cb (headers ar) []
              (opened_for_extract ar rar_path password
                 (snd (create_directory_recursive E dest_path st))) Hmem Hclean)
    as (st1 & t & Hrun & _ & Ht & _ & Hw & _).
  rewrite app_nil_r in Hrun. rewrite Hrun. simpl.
  split; [reflexivity|].
  pose proof (create_directory_recursive_mkdirs_only E dest_path st)
    as (_ & _ & _ & _ & t0 & Ht0 & Hm0).
  destruct (mkdirs_are_silent _ Hm0) as (_ & _ & H0w & _).
  destruct (passphrase_events_silent password) as (_ & _ & _ & Pw).
  exists (t0 ++ map AddPassphrase (passphrases password) ++
          [SetOptions extract_flags; OpenFilename rar_path (code (open_filename ar))] ++ t).
  split; [|split; [|split]].
  - rewrite Ht. unfold opened_for_extract. simpl. rewrite Ht0.
    now rewrite <- !app_assoc.
  - rewrite !written_app. rewrite H0w, Pw, Hw. reflexivity.
  - apply in_or_app. right. apply in_or_app. right. now left.
  - apply extract_flags_ask_for_no_path_check.
Qed.

Lemma rar_extract_writes_joined_paths_witness :
  let E := simple_env (fun _ => Archive fine [plain "a.txt"; plain "../up.txt"]) in
  let extraction := rar_extract E "x.rar" "out" None true (start ["x.rar"]) in
  fst extraction = Some RAR_SUCCESS /\
  exists t, trace (snd extraction) = [] ++ t /\
            written t = ["out/a.txt"; "out/../up.txt"] /\
            In (SetOptions extract_flags) t /\
            Z.land extract_flags
                   (Z.lor ARCHIVE_EXTRACT_SECURE_NODOTDOT
                          (Z.lor ARCHIVE_EXTRACT_SECURE_SYMLINKS
                                 ARCHIVE_EXTRACT_SECURE_NOABSOLUTEPATHS)) = 0.
Proof.
  intros E extraction.
  apply (rar_extract_writes_joined_paths E "x.rar" "out" None true (start ["x.rar"]));
    try reflexivity.
  intros n. reflexivity.
Defined.

(** C1, as stated, fails: an entry named "../../etc/passwd" is extracted
    with RAR_SUCCESS, nothing is reported, and the path written, once
    resolved, lies outside the destination root "out"; the directory
    "out/../../etc" has been created for it on the way. *)
Lemma climbing_entry_is_written_outside_the_root :
  let E := simple_env (fun _ => climbing) in
  let extraction := rar_extract E "x.rar" "out" None true (start ["x.rar"]) in
  fst extraction = Some RAR_SUCCESS /\
  reported (trace (snd extraction)) = [] /\
  written (trace (snd extraction)) = ["out/../../etc/passwd"] /\
  escapes "out" "out/../../etc/passwd" = true /\
  In "out/../../etc" (mkdir_calls (trace (snd extraction))).
Proof.
  vm_compute. repeat split. tauto.
Qed.

(** ** Password failures *)

Lemma classify_bad_password (e : lib_error) :
  classify e = RAR_BAD_PASSWORD <->
  err_no e <> ENOENT /\ err_no e <> ENOMEM /\
  exists s, err_str e = Some s /\
            strstr s "password" || strstr s "Password" ||
            strstr s "encrypted" || strstr s "Encrypted" = true.
Proof.
  unfold classify.
  destruct (err_no e =? ENOENT) eqn:H1.
  { apply Z.eqb_eq in H1. split; [discriminate|]. intros (H & _). contradiction. }
  destruct (err_no e =? ENOMEM) eqn:H2.
  { apply Z.eqb_eq in H2. split; [discriminate|]. intros (_ & H & _). contradiction. }
  apply Z.eqb_neq in H1. apply Z.eqb_neq in H2.
  destruct (err_str e) as [s|].
  2:{ split; [discriminate|]. intros (_ & _ & s & Hs & _). discriminate. }
  destruct (strstr s "password" || strstr s "Password" ||
            strstr s "encrypted" || strstr s "Encrypted") eqn:Hpw.
  - split; [|reflexivity]. intros _. repeat split; auto. now exists s.
  - split.
    + repeat match goal with
             | |- context [if ?b then _ else _] => destruct b
             end; discriminate.
    + intros (_ & _ & s' & Hs & Hfound). inversion Hs; subst s'. congruence.
Qed.

(** C3, as the code has it.  There is one code for password trouble,
    RAR_BAD_PASSWORD, whose message covers both cases ("Incorrect
    password or password required").  [map_archive_error] returns it
    exactly when the errno of the handle is neither ENOENT nor ENOMEM and
    the error text of the handle contains "password", "Password",
    "encrypted" or "Encrypted": the failure is recognised by its text,
    and a missing password is not told apart from a wrong one. *)
Theorem bad_password_is_read_off_the_error_text (a : handle) (error_cb : bool)
    (st : state) :
  let e := match a with Reader => rd_err st | Writer => wr_err st end in
  (fst (map_archive_error a error_cb st) = RAR_BAD_PASSWORD <->
   err_no e <> ENOENT /\ err_no e <> ENOMEM /\
   exists s, err_str e = Some s /\
             strstr s "password" || strstr s "Password" ||
             strstr s "encrypted" || strstr s "Encrypted" = true) /\
  rar_get_error_message RAR_BAD_PASSWORD = "Incorrect password or password required".
Proof.
  intros e. split; [|reflexivity].
  rewrite map_archive_error_run. simpl. apply classify_bad_password.
Qed.

Lemma bad_password_is_read_off_the_error_text_witness :
  fst (map_archive_error Reader true
         (State [] [] 0 O (LibError (-1) (Some "Incorrect password")) no_error []))
  = RAR_BAD_PASSWORD.
Proof.
  apply (bad_password_is_read_off_the_error_text Reader true
           (State [] [] 0 O (LibError (-1) (Some "Incorrect password")) no_error [])).
  split; [discriminate|]. split; [discriminate|].
  exists "Incorrect password". split; reflexivity.
Defined.

(** C3, as stated, fails: an encrypted entry extracted without a
    password and with a wrong password gives the same code both times,
    RAR_BAD_PASSWORD; and the same failure (same status, same errno)
    reported in words that contain none of the four looked for is not
    recognised as a password failure at all. *)
Lemma missing_and_wrong_password_are_not_told_apart :
  let E := simple_env locked in
  let st := start ["x.rar"] in
  fst (rar_extract E "x.rar" "out" (Some "secret") true st) = Some RAR_SUCCESS /\
  fst (rar_extract E "x.rar" "out" None true st) = Some RAR_BAD_PASSWORD /\
  fst (rar_extract E "x.rar" "out" (Some "wrong") true st) = Some RAR_BAD_PASSWORD /\
  classify (LibError (-1) (Some "A password is required")) = RAR_BAD_PASSWORD /\
  classify (LibError (-1) (Some "A passphrase is required")) = RAR_UNKNOWN_ERROR.
Proof. vm_compute. repeat split. Qed.

(** ** Later states *)

Lemma extends_refl (st : state) : extends st st.
Proof. split; [auto|]. exists []. now rewrite app_nil_r. Qed.

Lemma extends_trans (a b c : state) : extends a b -> extends b c -> extends a c.
Proof.
  intros (D1 & t1 & T1) (D2 & t2 & T2). split; [auto|].
  exists (t1 ++ t2). rewrite T2, T1. now rewrite app_assoc.
Qed.

Lemma mkdirs_only_extends (st st' : state) : mkdirs_only st st' -> extends st st'.
Proof. intros (_ & _ & _ & D & t & T & _). split; [exact D|now exists t]. Qed.

Lemma extending_ret {A} (a : A) : extending (ret a).
Proof. intros st. apply extends_refl. Qed.

Lemma extending_bind {A B} (c : M A) (k : A -> M B) :
  extending c -> (forall a, extending (k a)) -> extending (bind c k).
Proof.
  intros Hc Hk st. unfold bind.
  specialize (Hc st). destruct (c st) as [a st1]. simpl in Hc.
  eapply extends_trans; [exact Hc|apply Hk].
Qed.

Lemma extending_emit (ev : event) : extending (emit ev).
Proof. intros st. split; [auto|]. now exists [ev]. Qed.

Lemma extending_call (cb : bool) (ev : event) : extending (call cb ev).
Proof. destruct cb; [apply extending_emit|apply extending_ret]. Qed.

Lemma extending_set_error (a : handle) (e : lib_error) : extending (set_error a e).
Proof.
  intros st. split.
  - destruct a; auto.
  - exists []. destruct a; simpl; now rewrite app_nil_r.
Qed.

Lemma extending_alloc (E : env) : extending (alloc E).
Proof. intros st. apply mkdirs_only_extends, alloc_mkdirs_only. Qed.

Lemma extending_create_directory_recursive (E : env) (path : string) :
  extending (create_directory_recursive E path).
Proof.
  intros st. apply mkdirs_only_extends, create_directory_recursive_mkdirs_only.
Qed.

Lemma extending_get_parent_directory (E : env) (path : string) :
  extending (get_parent_directory E path).
Proof.
  intros st. apply mkdirs_only_extends, get_parent_directory_mkdirs_only.
Qed.

Lemma extending_map_archive_error (a : handle) (error_cb : bool) :
  extending (map_archive_error a error_cb).
Proof.
  unfold map_archive_error. apply extending_bind.
  - intros st. apply extends_refl.
  - intros e. apply extending_bind; [|intros; apply extending_ret].
    destruct (err_str e); [apply extending_call|apply extending_ret].
Qed.

Lemma extending_copy_data (blocks : list (outcome * outcome)) :
  extending (copy_data blocks).
Proof.
  induction blocks as [|[rd wr] rest IH]; simpl; [apply extending_ret|].
  apply extending_bind; [apply extending_set_error|intros _].
  destruct (code rd =? ARCHIVE_EOF); [apply extending_ret|].
  destruct (code rd =? ARCHIVE_OK); simpl; [|apply extending_ret].
  apply extending_bind; [apply extending_set_error|intros _].
  apply extending_bind; [apply extending_emit|intros _].
  destruct (code wr =? ARCHIVE_OK); simpl; [exact IH|apply extending_ret].
Qed.

Ltac extending_steps :=
  repeat first
    [ apply extending_ret
    | apply extending_emit
    | apply extending_call
    | apply extending_set_error
    | apply extending_alloc
    | apply extending_create_directory_recursive
    | apply extending_get_parent_directory
    | apply extending_map_archive_error
    | apply extending_copy_data
    | apply extending_bind; [|intros ?]
    | match goal with
      | |- extending (if ?b then _ else _) => destruct b
      | |- extending (match ?o with Some _ => _ | None => _ end) => destruct o
      end ].

Lemma extending_extract_entry (E : env) (dest_path : string) (error_cb : bool)
    (r0 : Z) (e : entry) :
  extending (extract_entry E dest_path error_cb r0 e).
Proof.
  unfold extract_entry, archive_write_header, archive_write_finish_entry.
  extending_steps.
Qed.

Lemma extending_extract_entries (E : env) (dest_path : string) (error_cb : bool)
    (hs : list header) :
  extending (extract_entries E dest_path error_cb hs).
Proof.
  induction hs as [|h hs IH]; simpl; [apply extending_ret|].
  apply extending_bind; [apply extending_set_error|intros _].
  destruct (code (next_header h) =? ARCHIVE_OK); simpl; [|apply extending_ret].
  apply extending_bind; [apply extending_extract_entry|intros left].
  destruct left as [[rr | u]|]; [apply extending_ret|exact IH|apply extending_ret].
Qed.

(** ** The destination directory *)



(** ** Passwords *)

Lemma registers_nothing_ret {A} (a : A) : registers_nothing (ret a).
Proof. intros st. exists []. now rewrite app_nil_r. Qed.

Lemma registers_nothing_bind {A B} (c : M A) (k : A -> M B) :
  registers_nothing c -> (forall a, registers_nothing (k a)) ->
  registers_nothing (bind c k).
Proof.
  intros Hc Hk st. unfold bind.
  destruct (Hc st) as (t1 & T1 & P1). destruct (c st) as [a st1]. simpl in T1.
  destruct (Hk a st1) as (t2 & T2 & P2).
  exists (t1 ++ t2). split.
  - rewrite T2, T1. now rewrite app_assoc.
  - rewrite forallb_app. now rewrite P1, P2.
Qed.

Lemma registers_nothing_emit (ev : event) :
  not_a_passphrase ev = true -> registers_nothing (emit ev).
Proof. intros H st. exists [ev]. simpl. now rewrite H. Qed.

Lemma registers_nothing_call (cb : bool) (ev : event) :
  not_a_passphrase ev = true -> registers_nothing (call cb ev).
Proof.
  intros H. destruct cb; [now apply registers_nothing_emit|apply registers_nothing_ret].
Qed.

Lemma registers_nothing_set_error (a : handle) (e : lib_error) :
  registers_nothing (set_error a e).
Proof. intros st. exists []. destruct a; simpl; now rewrite app_nil_r. Qed.

Lemma registers_nothing_mkdirs_only {A} (c : M A) :
  (forall st, mkdirs_only st (snd (c st))) -> registers_nothing c.
Proof.
  intros H st. destruct (H st) as (_ & _ & _ & _ & t & T & Hm).
  exists t. split; [exact T|].
  clear T. induction t as [|ev t IH]; [reflexivity|].
  simpl in Hm. apply andb_true_iff in Hm. destruct Hm as [Hev Hm].
  destruct ev; try discriminate Hev. simpl. now apply IH.
Qed.

Lemma registers_nothing_map_archive_error (a : handle) (error_cb : bool) :
  registers_nothing (map_archive_error a error_cb).
Proof.
  intros st. rewrite map_archive_error_run. simpl. eexists. split; [reflexivity|].
  destruct (err_str _); [destruct error_cb|]; reflexivity.
Qed.

Lemma registers_nothing_copy_data (blocks : list (outcome * outcome)) :
  registers_nothing (copy_data blocks).
Proof.
  induction blocks as [|[rd wr] rest IH]; simpl; [apply registers_nothing_ret|].
  apply registers_nothing_bind; [apply registers_nothing_set_error|intros _].
  destruct (code rd =? ARCHIVE_EOF); [apply registers_nothing_ret|].
  destruct (code rd =? ARCHIVE_OK); simpl; [|apply registers_nothing_ret].
  apply registers_nothing_bind; [apply registers_nothing_set_error|intros _].
  apply registers_nothing_bind; [now apply registers_nothing_emit|intros _].
  destruct (code wr =? ARCHIVE_OK); simpl; [exact IH|apply registers_nothing_ret].
Qed.

Ltac registers_nothing_steps :=
  repeat first
    [ apply registers_nothing_ret
    | apply registers_nothing_emit; reflexivity
    | apply registers_nothing_call; reflexivity
    | apply registers_nothing_set_error
    | apply registers_nothing_map_archive_error
    | apply registers_nothing_copy_data
    | apply registers_nothing_mkdirs_only; intros ?;
      first [ apply alloc_mkdirs_only
            | apply create_directory_recursive_mkdirs_only
            | apply get_parent_directory_mkdirs_only ]
    | apply registers_nothing_bind; [|intros ?]
    | match goal with
      | |- registers_nothing (if ?b then _ else _) => destruct b
      | |- registers_nothing (match ?o with Some _ => _ | None => _ end) => destruct o
      end ].

Lemma registers_nothing_extract_entries (E : env) (dest_path : string)
    (error_cb : bool) (hs : list header) :
  registers_nothing (extract_entries E dest_path error_cb hs).
Proof.
  induction hs as [|h hs IH]; simpl; [apply registers_nothing_ret|].
  apply registers_nothing_bind; [apply registers_nothing_set_error|intros _].
  destruct (code (next_header h) =? ARCHIVE_OK); simpl; [|apply registers_nothing_ret].
  apply registers_nothing_bind.
  - unfold extract_entry, archive_write_header, archive_write_finish_entry.
    registers_nothing_steps.
  - intros left.
    destruct left as [[rr | u]|]; [apply registers_nothing_ret|exact IH|
                                   apply registers_nothing_ret].
Qed.

Lemma registers_nothing_list_entries (list_cb : bool) (hs : list header) :
  registers_nothing (list_entries list_cb hs).
Proof.
  induction hs as [|h hs IH]; simpl; [apply registers_nothing_ret|].
  apply registers_nothing_bind; [apply registers_nothing_set_error|intros _].
  destruct (code (next_header h) =? ARCHIVE_OK); simpl; [|apply registers_nothing_ret].
  apply registers_nothing_bind; [registers_nothing_steps|intros _].
  apply registers_nothing_bind; [apply registers_nothing_set_error|intros _].
  exact IH.
Qed.

Lemma registers_nothing_fopen_rb (E : env) (path : string) :
  registers_nothing (fopen_rb E path).
Proof.
  intros st. exists []. rewrite app_nil_r. split; [|reflexivity].
  apply (fopen_rb_keeps E path st).
Qed.

Lemma no_passphrase_no_registration (E : env) (rar_path dest_path : string)
    (password : option string) (list_cb error_cb : bool) :
  passphrases password = [] ->
  registers_nothing (rar_extract E rar_path dest_path password error_cb) /\
  registers_nothing (rar_list E rar_path password list_cb error_cb).
Proof.
  intros Hp. split.
  - unfold rar_extract, add_passphrases, archive_read_open_filename.
    rewrite Hp.
    apply registers_nothing_bind; [apply registers_nothing_fopen_rb|intros f].
    destruct f; simpl; [|registers_nothing_steps].
    apply registers_nothing_bind; [registers_nothing_steps|intros created].
    destruct (created =? 0); simpl; [|registers_nothing_steps].
    apply registers_nothing_bind; [registers_nothing_steps|intros a].
    destruct a; simpl; [|registers_nothing_steps].
    apply registers_nothing_bind; [registers_nothing_steps|intros _].
    apply registers_nothing_bind; [registers_nothing_steps|intros _].
    apply registers_nothing_bind; [registers_nothing_steps|intros ext].
    destruct ext; simpl; [|registers_nothing_steps].
    apply registers_nothing_bind; [registers_nothing_steps|intros _].
    apply registers_nothing_bind; [registers_nothing_steps|intros _].
    apply registers_nothing_bind; [registers_nothing_steps|intros r].
    destruct (r =? ARCHIVE_OK); simpl; [|registers_nothing_steps].
    apply registers_nothing_bind; [apply registers_nothing_extract_entries|intros left].
    destruct left as [[r' result]|]; registers_nothing_steps.
  - unfold rar_list, add_passphrases, archive_read_open_filename.
    rewrite Hp.
    apply registers_nothing_bind; [apply registers_nothing_fopen_rb|intros f].
    destruct f; simpl; [|registers_nothing_steps].
    apply registers_nothing_bind; [registers_nothing_steps|intros a].
    destruct a; simpl; [|registers_nothing_steps].
    apply registers_nothing_bind; [registers_nothing_steps|intros _].
    apply registers_nothing_bind; [registers_nothing_steps|intros _].
    apply registers_nothing_bind; [registers_nothing_steps|intros r].
    destruct (r =? ARCHIVE_OK); simpl; [|registers_nothing_steps].
    apply registers_nothing_bind; [apply registers_nothing_list_entries|intros r'].
    destruct (r' =? ARCHIVE_EOF); registers_nothing_steps.
Qed.

(** C9.  An empty password is handled as a NULL one: with either, no
    passphrase is registered with the reader at any point of the run (no
    [archive_read_add_passphrase] call is made), the reader presents the
    same archive, and [rar_extract] and [rar_list] run identically,
    result and final state alike. *)
Theorem empty_password_is_no_password (E : env) (rar_path dest_path : string)
    (list_cb error_cb : bool) (st : state) :
  passphrases (Some "") = passphrases None /\
  registers_nothing (rar_extract E rar_path dest_path (Some "") error_cb) /\
  registers_nothing (rar_list E rar_path (Some "") list_cb error_cb) /\
  rar_extract E rar_path dest_path (Some "") error_cb st =
  rar_extract E rar_path dest_path None error_cb st /\
  rar_list E rar_path (Some "") list_cb error_cb st =
  rar_list E rar_path None list_cb error_cb st.
Proof.
  split; [reflexivity|].
  destruct (no_passphrase_no_registration E rar_path dest_path (Some "")
              list_cb error_cb eq_refl) as [He Hl].
  repeat split; assumption.
Qed.

Example nonempty_password_is_registered :
  passphrases (Some "secret") = ["secret"] /\
  add_passphrases (Some "secret") (start []) =
  (tt, State [] [] 0 O no_error no_error [AddPassphrase "secret"]).
Proof. split; reflexivity. Qed.

(** * Further properties of the code *)

(** ** Strings *)

Lemma append_assoc (a b c : string) : (a +++ b) +++ c = a +++ b +++ c.
Proof. induction a as [|x a IH]; simpl; [reflexivity|now rewrite IH]. Qed.

Lemma append_nil_r (a : string) : a +++ "" = a.
Proof. induction a as [|x a IH]; simpl; [reflexivity|now rewrite IH]. Qed.

Lemma length_append (a b : string) :
  String.length (a +++ b) = (String.length a + String.length b)%nat.
Proof. induction a as [|x a IH]; simpl; [reflexivity|now rewrite IH]. Qed.

Lemma prefix_append (n b : string) : String.prefix n (n +++ b) = true.
Proof.
  induction n as [|x n IH]; simpl.
  - now destruct b.
  - destruct (ascii_dec x x) as [_|Hne]; [exact IH|now elim Hne].
Qed.

Lemma prefix_split (n s : string) :
  String.prefix n s = true -> exists b, s = n +++ b.
Proof.
  revert s. induction n as [|x n IH]; intros s H.
  - now exists s.
  - destruct s as [|y s]; simpl in H; [discriminate|].
    destruct (ascii_dec x y) as [->|]; [|discriminate].
    destruct (IH s H) as [b ->]. now exists b.
Qed.

Lemma strstr_cons (x : ascii) (h needle : string) :
  strstr (String x h) needle = String.prefix needle (String x h) || strstr h needle.
Proof. reflexivity. Qed.

(** [strstr] finds the needle exactly when it occurs in the haystack. *)
Lemma strstr_occurs (haystack needle : string) :
  strstr haystack needle = true <-> occurs_in needle haystack.
Proof.
  split.
  - induction haystack as [|x h IH]; intros H.
    + simpl in H. rewrite orb_false_r in H. destruct needle; [|discriminate].
      now exists "", "".
    + rewrite strstr_cons in H. apply orb_true_iff in H. destruct H as [H | H].
      * destruct (prefix_split _ _ H) as [b Hb]. now exists "", b.
      * destruct (IH H) as (a & b & ->). now exists (String x a), b.
  - intros (a & b & ->). induction a as [|x a IH].
    + change ("" +++ needle +++ b) with (needle +++ b).
      destruct (needle +++ b) as [|y r] eqn:Hn.
      * destruct needle; [reflexivity|discriminate].
      * rewrite strstr_cons, <- Hn, prefix_append. reflexivity.
    + change (String x a +++ needle +++ b) with (String x (a +++ needle +++ b)).
      rewrite strstr_cons, IH. apply orb_true_r.
Qed.

(** ** More on the mapping of libarchive errors *)

Lemma classify_mapped (e : lib_error) : In (classify e) mapped_codes.
Proof.
  unfold classify, mapped_codes.
  repeat match goal with
         | |- context [if ?b then _ else _] => destruct b
         | |- context [match ?o with Some _ => _ | None => _ end] => destruct o
         end; simpl; tauto.
Qed.

(** X1.  [map_archive_error] returns one of seven codes: file not found,
    memory, bad archive, unknown format, bad password, bad data, unknown
    error.  It never returns RAR_SUCCESS, RAR_OPEN_ERROR or
    RAR_CREATE_ERROR, whatever state the handle is in. *)
Theorem map_archive_error_returns_a_mapped_code (a : handle) (error_cb : bool)
    (st : state) :
  let result := fst (map_archive_error a error_cb st) in
  In result mapped_codes /\
  result <> RAR_SUCCESS /\ result <> RAR_OPEN_ERROR /\ result <> RAR_CREATE_ERROR.
Proof.
  intros result. subst result. rewrite map_archive_error_run. simpl.
  pose proof (classify_mapped (match a with Reader => rd_err st | Writer => wr_err st end))
    as Hin.
  split; [exact Hin|].
  unfold mapped_codes in Hin. simpl in Hin.
  repeat split; intros Heq; rewrite Heq in Hin;
    repeat (destruct Hin as [Hin | Hin]; [discriminate Hin|]); exact Hin.
Qed.

(** X2.  A failure is taken for password trouble exactly when its text
    mentions one of the four words anywhere: [map_archive_error] returns
    RAR_BAD_PASSWORD if and only if the errno of the handle is neither
    ENOENT nor ENOMEM and "password", "Password", "encrypted" or
    "Encrypted" occurs in the error text, whatever else the text says. *)
Theorem password_word_anywhere_in_the_text (a : handle) (error_cb : bool)
    (st : state) :
  let e := match a with Reader => rd_err st | Writer => wr_err st end in
  fst (map_archive_error a error_cb st) = RAR_BAD_PASSWORD <->
  err_no e <> ENOENT /\ err_no e <> ENOMEM /\
  exists s w, err_str e = Some s /\ In w password_words /\ occurs_in w s.
Proof.
  intros e. rewrite map_archive_error_run. simpl. fold e.
  rewrite classify_bad_password. split.
  - intros (H1 & H2 & s & Hs & Hfound). repeat split; auto.
    exists s. unfold password_words.
    apply orb_true_iff in Hfound. destruct Hfound as [Hfound | Hfound];
      [apply orb_true_iff in Hfound; destruct Hfound as [Hfound | Hfound];
       [apply orb_true_iff in Hfound; destruct Hfound as [Hfound | Hfound]|]|];
      apply strstr_occurs in Hfound; eexists; (split; [exact Hs|]);
      (split; [|exact Hfound]); simpl; tauto.
  - intros (H1 & H2 & s & w & Hs & Hw & Hocc). repeat split; auto.
    exists s. split; [exact Hs|].
    apply strstr_occurs in Hocc. unfold password_words in Hw. simpl in Hw.
    destruct Hw as [<- | [<- | [<- | [<- | []]]]]; rewrite Hocc;
      now rewrite ?orb_true_r.
Qed.

Lemma password_word_anywhere_in_the_text_witness :
  fst (map_archive_error Writer false
         (State [] [] 0 O no_error
                (LibError 5 (Some "corrupt header: the file is encrypted, bad CRC")) []))
  = RAR_BAD_PASSWORD.
Proof.
  apply (password_word_anywhere_in_the_text Writer false
           (State [] [] 0 O no_error
                  (LibError 5 (Some "corrupt header: the file is encrypted, bad CRC")) [])).
  split; [discriminate|]. split; [discriminate|].
  exists "corrupt header: the file is encrypted, bad CRC", "encrypted".
  split; [reflexivity|]. split; [simpl; tauto|].
  now exists "corrupt header: the file is ", ", bad CRC".
Defined.

(** ** More on directory creation *)

Lemma not_on_disk_not_in_dirs (p : string) (st : state) :
  on_disk p st = false -> ~ In p (dirs st).
Proof.
  unfold on_disk. intros H Hin. apply orb_false_iff in H. destruct H as [H _].
  assert (existsb (String.eqb p) (dirs st) = true); [|congruence].
  apply existsb_exists. exists p. split; [exact Hin|apply String.eqb_refl].
Qed.

Lemma in_files_on_disk (p : string) (st : state) :
  In p (files st) -> on_disk p st = true.
Proof.
  intros Hin. unfold on_disk. apply orb_true_iff. right.
  apply existsb_exists. exists p. split; [exact Hin|apply String.eqb_refl].
Qed.

Lemma skip_keeps_path (E : env) (path : string) :
  let at_p := skip_separator E (skip_drive E path) in
  fst at_p +++ snd at_p = path.
Proof.
  assert (Hd : fst (skip_drive E path) +++ snd (skip_drive E path) = path).
  { unfold skip_drive. destruct (win32 E); [|reflexivity].
    destruct path as [|c0 [|c1 rest]]; try reflexivity.
    destruct (Ascii.eqb c1 ":"); reflexivity. }
  destruct (skip_drive E path) as [behind ahead]. simpl in Hd.
  unfold skip_separator. simpl.
  destruct ahead as [|c rest]; [exact Hd|].
  destruct (Ascii.eqb c (PATH_SEP E)); [|exact Hd].
  simpl. rewrite append_assoc. exact Hd.
Qed.

Lemma prefixes_at_separators_spec (E : env) (ahead behind p : string) :
  In p (prefixes_at_separators E behind ahead) ->
  exists a c b, ahead = a +++ String c b /\ is_separator E c = true /\
                p = behind +++ a.
Proof.
  revert behind. induction ahead as [|x rest IH]; intros behind Hin; [destruct Hin|].
  simpl in Hin.
  assert (Hrest : In p (prefixes_at_separators E (behind +++ String x "") rest) ->
                  exists a c b, String x rest = a +++ String c b /\
                                is_separator E c = true /\ p = behind +++ a).
  { intros H. destruct (IH _ H) as (a & c & b & -> & Hc & ->).
    exists (String x a), c, b. repeat split; auto.
    now rewrite append_assoc. }
  destruct (is_separator E x) eqn:Hx; [|now apply Hrest].
  destruct Hin as [<- | Hin]; [|now apply Hrest].
  exists "", x, rest. repeat split; auto. now rewrite append_nil_r.
Qed.

(** Every parent path is a part of the path that ends just before one of
    its separators. *)
Lemma parent_paths_spec (E : env) (path p : string) :
  In p (parent_paths E path) ->
  exists c rest, is_separator E c = true /\ path = p +++ String c rest.
Proof.
  unfold parent_paths. intros Hin.
  destruct (prefixes_at_separators_spec _ _ _ _ Hin) as (a & c & b & Ha & Hc & ->).
  exists c, b. split; [exact Hc|].
  rewrite append_assoc, <- Ha. symmetry. apply skip_keeps_path.
Qed.

(** The calls of [create_directory_recursive] when its copy of the path
    could be allocated: one [mkdir] for each parent path, in order, and
    one for the path. *)
Lemma create_directory_recursive_calls (E : env) (path : string) (st : state) :
  heap E (allocs st) = true ->
  let st' := snd (create_directory_recursive E path st) in
  exists t, trace st' = trace st ++ t /\ forallb is_mkdir t = true /\
            mkdir_calls t = parent_paths E path ++ [path].
Proof.
  intros Hh. unfold create_directory_recursive, bind, alloc. simpl. rewrite Hh. simpl.
  match goal with |- context [create_parents E ?b ?a ?s] =>
    destruct (create_parents_calls E a b s) as (t & Ht & Hm & Hcalls);
    destruct (create_parents E b a s) as [u st2] end.
  simpl in Ht.
  destruct (mkdir_cases E path st2) as (_ & _ & _ & _ & Htr & _).
  destruct (mkdir E path st2) as [r st3]. simpl in Htr |- *.
  exists (t ++ [Mkdir path r]). split; [|split].
  - rewrite Htr, Ht. now rewrite app_assoc.
  - rewrite forallb_app, Hm. reflexivity.
  - rewrite mkdir_calls_app, Hcalls. reflexivity.
Qed.



Lemma mkdirs_only_files_dirs (st st' : state) (p : string) :
  files st' = files st -> dirs st' = dirs st -> on_disk p st' = on_disk p st.
Proof. unfold on_disk. now intros -> ->. Qed.

Lemma mkdir_permissive (E : env) (p : string) (st : state) :
  never_refuses E -> on_disk p (snd (mkdir E p st)) = true.
Proof.
  intros Hnever.
  destruct (mkdir_cases E p st)
    as (Hf & _ & _ & _ & _ & [(Hd & _ & _ & Hds) | [(_ & _ & _ & Hds)
                                                   | (_ & _ & _ & _ & why & Hwhy)]]).
  - rewrite (mkdirs_only_files_dirs st _ p Hf Hds). exact Hd.
  - unfold on_disk. rewrite Hds. simpl. now rewrite String.eqb_refl.
  - rewrite Hnever in Hwhy. discriminate.
Qed.

Lemma create_parents_permissive (E : env) (ahead behind : string) (st : state) :
  never_refuses E ->
  forall p, In p (prefixes_at_separators E behind ahead) ->
            on_disk p (snd (create_parents E behind ahead st)) = true.
Proof.
  intros Hnever. revert behind st.
  induction ahead as [|x rest IH]; intros behind st p Hin; [destruct Hin|].
  simpl in Hin |- *.
  destruct (is_separator E x); [|now apply IH].
  unfold bind.
  pose proof (mkdir_permissive E behind st Hnever) as Hb.
  destruct (mkdir E behind st) as [r st1]. simpl in Hb.
  destruct Hin as [<- | Hin]; [|now apply IH].
  pose proof (create_parents_mkdirs_only E rest (behind +++ String x "") st1)
    as (_ & _ & _ & Hkeep & _).
  now apply Hkeep.
Qed.

(** X5.  Where the system refuses no [mkdir] and the copy of the path
    can be allocated, [create_directory_recursive] returns 0 and leaves
    the whole chain on disk: every parent path and the path itself. *)
Theorem create_directory_recursive_makes_the_chain (E : env) (path : string)
    (st : state) :
  never_refuses E ->
  heap E (allocs st) = true ->
  fst (create_directory_recursive E path st) = 0 /\
  forall p, In p (parent_paths E path ++ [path]) ->
            on_disk p (snd (create_directory_recursive E path st)) = true.
Proof.
  intros Hnever Hh.
  unfold create_directory_recursive, bind, alloc. simpl. rewrite Hh. simpl.
  match goal with |- context [create_parents E ?b ?a ?s] =>
    pose proof (create_parents_permissive E a b s Hnever) as Hparents;
    destruct (create_parents E b a s) as [u st2] end.
  simpl in Hparents.
  pose proof (mkdir_permissive E path st2 Hnever) as Hpath.
  pose proof (mkdir_mkdirs_only E path st2) as (_ & _ & _ & Hkeep & _).
  destruct (mkdir_cases E path st2)
    as (_ & _ & _ & _ & _ & [(_ & Hr & He & _) | [(_ & _ & Hr & _)
                                                 | (_ & _ & _ & _ & why & Hwhy)]]);
    [| |rewrite Hnever in Hwhy; discriminate];
    destruct (mkdir E path st2) as [r st3]; simpl in *.
  - rewrite He, Z.eqb_refl, orb_true_r. split; [reflexivity|].
    intros p Hin. apply in_app_or in Hin. destruct Hin as [Hin | [<- | []]].
    + apply Hkeep. now apply Hparents.
    + exact Hpath.
  - subst r. simpl. split; [reflexivity|].
    intros p Hin. apply in_app_or in Hin. destruct Hin as [Hin | [<- | []]].
    + apply Hkeep. now apply Hparents.
    + exact Hpath.
Qed.

Lemma create_directory_recursive_makes_the_chain_witness :
  let E := simple_env (fun _ => Archive fine []) in
  let run := create_directory_recursive E "a/b/c" (start []) in
  fst run = 0 /\
  forall p, In p ["a"; "a/b"; "a/b/c"] -> on_disk p (snd run) = true.
Proof.
  intros E run.
  apply (create_directory_recursive_makes_the_chain E "a/b/c" (start []));
    [intros ds p; reflexivity|reflexivity].
Defined.

Lemma create_parents_existing (E : env) (ahead behind : string) (st : state) :
  (forall p, In p (prefixes_at_separators E behind ahead) ->
             on_disk p st = true /\ refuses E (dirs st) p = None) ->
  let st' := snd (create_parents E behind ahead st) in
  dirs st' = dirs st /\ files st' = files st /\ allocs st' = allocs st /\
  trace st' =
  trace st ++ map (fun p => Mkdir p (-1)) (prefixes_at_separators E behind ahead).
Proof.
  revert behind st. induction ahead as [|x rest IH]; intros behind st Hall; simpl.
  - repeat split. now rewrite app_nil_r.
  - simpl in Hall. destruct (is_separator E x); [|now apply IH].
    unfold bind.
    destruct (Hall behind (or_introl eq_refl)) as [Hhere Hlets].
    destruct (mkdir_cases E behind st)
      as (Hf & Ha & _ & _ & Htr & [(_ & Hr & _ & Hds)
                                  | [(Hd & _) | (_ & _ & _ & _ & why & Hwhy)]]);
      try congruence.
    destruct (mkdir E behind st) as [r st1]. simpl in *. subst r.
    destruct (IH (behind +++ String x "") st1) as (Hd' & Hf' & Ha' & Htr').
    { intros p Hin. rewrite (mkdirs_only_files_dirs st st1) by assumption.
      rewrite Hds. apply Hall. now right. }
    repeat split; try congruence.
    rewrite Htr', Htr. now rewrite <- app_assoc.
Qed.

(** X6.  On a tree that is already there and that the system lets the
    caller reach (every parent path and the path itself are on disk, and
    the system turns none of the [mkdir] calls down, so that each is
    answered with EEXIST), [create_directory_recursive] returns 0 and
    creates nothing: directories and files are exactly as before, every
    [mkdir] it made failed, and [errno] is left at EEXIST. *)
Theorem create_directory_recursive_on_existing_tree (E : env) (path : string)
    (st : state) :
  heap E (allocs st) = true ->
  (forall p, In p (parent_paths E path ++ [path]) ->
             on_disk p st = true /\ refuses E (dirs st) p = None) ->
  let st' := snd (create_directory_recursive E path st) in
  fst (create_directory_recursive E path st) = 0 /\
  dirs st' = dirs st /\ files st' = files st /\ errno st' = EEXIST /\
  trace st' = trace st ++ map (fun p => Mkdir p (-1)) (parent_paths E path ++ [path]).
Proof.
  intros Hh Hall.
  unfold create_directory_recursive, bind, alloc. simpl. rewrite Hh. simpl.
  match goal with |- context [create_parents E ?b ?a ?s] =>
    destruct (create_parents_existing E a b s) as (Hd & Hf & _ & Htr);
    [intros p Hin; apply Hall, in_or_app; now left|];
    destruct (create_parents E b a s) as [u st2] end.
  simpl in Hd, Hf, Htr.
  destruct (Hall path) as [Hhere Hlets]; [apply in_or_app; right; now left|].
  assert (Hpath : on_disk path st2 = true).
  { now rewrite (mkdirs_only_files_dirs st st2) by assumption. }
  rewrite <- Hd in Hlets.
  destruct (mkdir_cases E path st2)
    as (Hf3 & _ & _ & _ & Htr3 & [(_ & Hr & He & Hds)
                                 | [(Hd' & _) | (_ & _ & _ & _ & why & Hwhy)]]);
    try congruence.
  destruct (mkdir E path st2) as [r st3]. simpl in *. subst r.
  rewrite He, Z.eqb_refl, orb_true_r.
  repeat split; try congruence.
  rewrite Htr3, Htr, map_app. unfold parent_paths. now rewrite <- app_assoc.
Qed.

Lemma create_directory_recursive_on_existing_tree_witness :
  let E := simple_env (fun _ => Archive fine []) in
  let st := State ["out/sub"; "out"] [] 0 O no_error no_error [] in
  let st' := snd (create_directory_recursive E "out/sub" st) in
  fst (create_directory_recursive E "out/sub" st) = 0 /\
  dirs st' = ["out/sub"; "out"] /\ files st' = [] /\ errno st' = EEXIST /\
  trace st' = [] ++ [Mkdir "out" (-1); Mkdir "out/sub" (-1)].
Proof.
  intros E st st'.
  apply (create_directory_recursive_on_existing_tree E "out/sub" st); [reflexivity|].
  intros p [<- | [<- | []]]; split; reflexivity.
Defined.

Lemma mkdir_new_dirs (E : env) (p q : string) (st : state) :
  In q (dirs (snd (mkdir E p st))) ->
  In q (dirs st) \/ (q = p /\ on_disk p st = false).
Proof.
  destruct (mkdir_cases E p st)
    as (_ & _ & _ & _ & _ & [(_ & _ & _ & Hds) | [(Hd & _ & _ & Hds)
                                                 | (_ & _ & _ & Hds & _)]]);
    rewrite Hds; [now left| |now left].
  intros [<- | Hin]; [now right|now left].
Qed.

Lemma mkdir_nodup (E : env) (p : string) (st : state) :
  NoDup (dirs st) -> NoDup (dirs (snd (mkdir E p st))).
Proof.
  intros Hnd.
  destruct (mkdir_cases E p st)
    as (_ & _ & _ & _ & _ & [(_ & _ & _ & Hds) | [(Hd & _ & _ & Hds)
                                                 | (_ & _ & _ & Hds & _)]]);
    rewrite Hds; [exact Hnd| |exact Hnd].
  constructor; [now apply not_on_disk_not_in_dirs|exact Hnd].
Qed.

Lemma on_disk_false_before (st st' : state) (q : string) :
  mkdirs_only st st' -> on_disk q st' = false -> on_disk q st = false.
Proof.
  intros (_ & _ & _ & Hkeep & _) H.
  destruct (on_disk q st) eqn:Hq; [|reflexivity].
  apply Hkeep in Hq. congruence.
Qed.

Lemma create_parents_new_dirs (E : env) (ahead behind q : string) (st : state) :
  In q (dirs (snd (create_parents E behind ahead st))) ->
  In q (dirs st) \/
  (on_disk q st = false /\ In q (prefixes_at_separators E behind ahead)).
Proof.
  revert behind st. induction ahead as [|x rest IH]; intros behind st; simpl.
  - now left.
  - destruct (is_separator E x).
    + unfold bind.
      pose proof (mkdir_new_dirs E behind q st) as Hnew.
      pose proof (mkdir_mkdirs_only E behind st) as Honly.
      destruct (mkdir E behind st) as [r st1]. simpl in Hnew, Honly.
      intros Hin. destruct (IH _ _ Hin) as [H | [Hq H]].
      * destruct (Hnew H) as [H' | [-> Hd]]; [now left|right].
        split; [exact Hd|now left].
      * right. split; [now apply (on_disk_false_before st st1)|now right].
    + intros Hin. destruct (IH _ _ Hin) as [H | [Hq H]]; [now left|now right].
Qed.

Lemma create_parents_nodup (E : env) (ahead behind : string) (st : state) :
  NoDup (dirs st) -> NoDup (dirs (snd (create_parents E behind ahead st))).
Proof.
  revert behind st. induction ahead as [|x rest IH]; intros behind st Hnd; simpl.
  - exact Hnd.
  - destruct (is_separator E x); [|now apply IH].
    unfold bind. pose proof (mkdir_nodup E behind st Hnd) as H1.
    destruct (mkdir E behind st) as [r st1]. now apply IH.
Qed.

Lemma mkdirs_only_incl (E : env) (p : string) (st : state) :
  incl (dirs st) (dirs (snd (mkdir E p st))).
Proof.
  destruct (mkdir_cases E p st)
    as (_ & _ & _ & _ & _ & [(_ & _ & _ & Hds) | [(Hd & _ & _ & Hds)
                                                 | (_ & _ & _ & Hds & _)]]);
    rewrite Hds; [apply incl_refl|apply incl_tl, incl_refl|apply incl_refl].
Qed.

Lemma create_parents_incl (E : env) (ahead behind : string) (st : state) :
  incl (dirs st) (dirs (snd (create_parents E behind ahead st))).
Proof.
  revert behind st. induction ahead as [|x rest IH]; intros behind st; simpl.
  - apply incl_refl.
  - destruct (is_separator E x); [|apply IH].
    unfold bind. pose proof (mkdirs_only_incl E behind st) as H1.
    destruct (mkdir E behind st) as [r st1]. simpl in H1.
    eapply incl_tran; [exact H1|apply IH].
Qed.

(** A directory is new after [create_directory_recursive] only if it is
    a parent path or the path itself and nothing was there before. *)
Lemma create_directory_recursive_new_dirs (E : env) (path q : string) (st : state) :
  In q (dirs (snd (create_directory_recursive E path st))) ->
  In q (dirs st) \/ (on_disk q st = false /\ In q (parent_paths E path ++ [path])).
Proof.
  unfold create_directory_recursive, bind, alloc. simpl.
  destruct (heap E (allocs st)); simpl; [|now left].
  match goal with |- context [create_parents E ?b ?a ?s] =>
    pose proof (create_parents_new_dirs E a b q s) as Hnew;
    pose proof (create_parents_mkdirs_only E a b s) as Honly;
    destruct (create_parents E b a s) as [u st2] end.
  simpl in Hnew, Honly.
  pose proof (mkdir_new_dirs E path q st2) as Hnew3.
  destruct (mkdir E path st2) as [r st3]. simpl in *.
  intros Hin. destruct (Hnew3 Hin) as [H | [-> Hd]].
  - destruct (Hnew H) as [H' | [Hq H']]; [now left|right].
    split; [exact Hq|]. apply in_or_app. now left.
  - right. split.
    + apply (on_disk_false_before _ st2); [|exact Hd]. exact Honly.
    + apply in_or_app. right. now left.
Qed.

Lemma not_in_files (p : string) (st : state) :
  existsb (String.eqb p) (files st) = false -> ~ In p (files st).
Proof.
  intros H Hin.
  assert (existsb (String.eqb p) (files st) = true); [|congruence].
  apply existsb_exists. exists p. split; [exact Hin|apply String.eqb_refl].
Qed.

(** A parent path is never the whole path. *)
Lemma prefixes_are_proper (E : env) (ahead behind : string) :
  ~ In (behind +++ ahead) (prefixes_at_separators E behind ahead).
Proof.
  intros Hin.
  destruct (prefixes_at_separators_spec _ _ _ _ Hin) as (a & c & b & Ha & _ & Hp).
  apply (f_equal String.length) in Hp. rewrite Ha in Hp.
  rewrite !length_append in Hp. simpl in Hp. lia.
Qed.

(** X4.  What the value of [create_directory_recursive] tells.  It is 0
    or -1.  When it is 0 the path is on disk afterwards.  When it is -1
    and the copy of the path could be allocated, the last call was the
    [mkdir] of the path itself and the system turned it down for a
    reason other than EEXIST: [errno] is not EEXIST, no file that can be
    read sits at the path, and the call has not made the path (which may
    all the same be a directory that was there before).  When the copy
    cannot be allocated it returns -1 without a single [mkdir], leaving
    the disk and the trace as they were. *)
Theorem create_directory_recursive_result (E : env) (path : string) (st : state) :
  let r := fst (create_directory_recursive E path st) in
  let st' := snd (create_directory_recursive E path st) in
  (r = 0 \/ r = -1) /\
  (r = 0 -> on_disk path st' = true) /\
  (heap E (allocs st) = true -> r = -1 ->
   errno st' <> EEXIST /\
   (exists t, trace st' = trace st ++ t ++ [Mkdir path (-1)] /\
              forallb is_mkdir t = true) /\
   (exists ds why, refuses E ds path = Some why) /\
   ~ In path (files st') /\
   (In path (dirs st') -> In path (dirs st))) /\
  (heap E (allocs st) = false ->
   r = -1 /\ dirs st' = dirs st /\ files st' = files st /\ trace st' = trace st).
Proof.
  intros r st'. subst r st'.
  split; [|split; [|split]].
  - unfold create_directory_recursive, bind, alloc. simpl.
    destruct (heap E (allocs st)); simpl; [|now right].
    destruct (create_parents E _ _ _) as [u st2].
    destruct (mkdir E path st2) as [r st3]. simpl.
    destruct ((r =? 0) || (errno st3 =? EEXIST)); [now left|now right].
  - intros H. now apply create_directory_recursive_creates.
  - intros Hh.
    pose proof (skip_keeps_path E path) as Hwhole. cbv zeta in Hwhole.
    unfold create_directory_recursive, bind, alloc. simpl. rewrite Hh. simpl.
    match goal with |- context [create_parents E ?b ?a ?s] =>
      destruct (create_parents_calls E a b s) as (t & Ht & Hm & _);
      pose proof (create_parents_new_dirs E a b path s) as Hnew;
      pose proof (create_parents_mkdirs_only E a b s) as (Hf2 & _);
      destruct (create_parents E b a s) as [u st2] end.
    cbn [fst snd dirs files trace] in Ht, Hnew, Hf2.
    destruct (mkdir_cases E path st2) as (Hf & _ & _ & _ & Htr & Hcase).
    destruct (mkdir E path st2) as [r st3]. cbn [fst snd] in *.
    destruct Hcase as [(Hd & Hr & He & Hds) | [(Hd & _ & Hr & Hds)
                                              | (Hd & Hr & He & Hds & why & Hwhy)]].
    + rewrite He, Z.eqb_refl, orb_true_r. discriminate.
    + subst r. simpl. discriminate.
    + intros _. split; [exact He|]. split; [|split; [|split]].
      * exists t. split; [|exact Hm]. rewrite Htr, Ht, Hr. now rewrite <- app_assoc.
      * now exists (dirs st2), why.
      * rewrite Hf. now apply not_in_files.
      * rewrite Hds. intros Hin. destruct (Hnew Hin) as [H | [_ H]]; [exact H|].
        exfalso.
        apply (prefixes_are_proper E (snd (skip_separator E (skip_drive E path)))
                 (fst (skip_separator E (skip_drive E path)))).
        rewrite Hwhole. exact H.
  - intros Hh. unfold create_directory_recursive, bind, alloc. simpl. rewrite Hh.
    simpl. repeat split.
Qed.

Lemma create_directory_recursive_result_witness :
  let E := Env false (fun _ => true)
               (fun _ p => if String.eqb p "private/out" then Some Eacces else None)
               (fun _ _ => Archive fine []) in
  let st := State ["private/out"; "private"] [] 0 O no_error no_error [] in
  let run := create_directory_recursive E "private/out" st in
  fst run = -1 /\ on_disk "private/out" (snd run) = true /\
  errno (snd run) <> EEXIST /\ ~ In "private/out" (files (snd run)).
Proof.
  intros E st run.
  destruct (create_directory_recursive_result E "private/out" st)
    as (_ & _ & Hfail & _).
  destruct Hfail as (He & _ & _ & Hnot & _); [reflexivity|reflexivity|].
  split; [reflexivity|]. split; [reflexivity|]. split; [exact He|exact Hnot].
Defined.

(** X7.  What [create_directory_recursive] keeps, whatever it returns:
    the files are untouched, no directory goes away, and a directory is
    new only if it is a parent path or the path itself and nothing was
    there before; so a disk without duplicate directories stays one. *)
Theorem create_directory_recursive_keeps_the_disk (E : env) (path : string)
    (st : state) :
  let st' := snd (create_directory_recursive E path st) in
  files st' = files st /\
  incl (dirs st) (dirs st') /\
  (forall q, In q (dirs st') ->
             In q (dirs st) \/
             (on_disk q st = false /\ In q (parent_paths E path ++ [path]))) /\
  (NoDup (dirs st) -> NoDup (dirs st')).
Proof.
  intros st'. subst st'.
  split; [apply (create_directory_recursive_mkdirs_only E path st)|].
  split; [|split; [intros q; apply create_directory_recursive_new_dirs|]];
    unfold create_directory_recursive, bind, alloc; simpl;
    (destruct (heap E (allocs st)); simpl; [|try apply incl_refl; auto]).
  - match goal with |- context [create_parents E ?b ?a ?s] =>
      pose proof (create_parents_incl E a b s) as Hincl;
      destruct (create_parents E b a s) as [u st2] end.
    pose proof (mkdirs_only_incl E path st2) as Hincl3.
    destruct (mkdir E path st2) as [r st3]. simpl in *.
    eapply incl_tran; eassumption.
  - match goal with |- context [create_parents E ?b ?a ?s] =>
      pose proof (create_parents_nodup E a b s) as Hnd;
      destruct (create_parents E b a s) as [u st2] end.
    pose proof (mkdir_nodup E path st2) as Hnd3.
    destruct (mkdir E path st2) as [r st3]. simpl in *. auto.
Qed.

(** X8.  EEXIST counts as success whatever it is that exists: when a
    regular file sits at the path, [create_directory_recursive] returns 0
    all the same, and the path is still no directory afterwards. *)
Theorem create_directory_recursive_over_a_file (E : env) (path : string)
    (st : state) :
  heap E (allocs st) = true ->
  In path (files st) ->
  ~ In path (dirs st) ->
  fst (create_directory_recursive E path st) = 0 /\
  ~ In path (dirs (snd (create_directory_recursive E path st))) /\
  In path (files (snd (create_directory_recursive E path st))).
Proof.
  intros Hh Hfile Hnodir.
  pose proof (in_files_on_disk _ _ Hfile) as Hdisk.
  split; [|split].
  - unfold create_directory_recursive, bind, alloc. simpl. rewrite Hh. simpl.
    match goal with |- context [create_parents E ?b ?a ?s] =>
      pose proof (create_parents_mkdirs_only E a b s) as (Hfiles & _ & _ & Hkeep & _);
      destruct (create_parents E b a s) as [u st2] end.
    simpl in Hkeep, Hfiles. apply Hkeep in Hdisk.
    destruct (mkdir_cases E path st2)
      as (_ & _ & _ & _ & _ & [(_ & _ & He & _) | [(Hd & _) | (Hd & _)]]);
      [|congruence|].
    + destruct (mkdir E path st2) as [r st3]. simpl in *.
      now rewrite He, Z.eqb_refl, orb_true_r.
    + apply not_in_files in Hd. now rewrite Hfiles in Hd.
  - intros Hin.
    destruct (create_directory_recursive_new_dirs E path path st Hin) as [H | [H _]];
      [contradiction|congruence].
  - destruct (create_directory_recursive_mkdirs_only E path st) as (Hf & _).
    now rewrite Hf.
Qed.

Lemma create_directory_recursive_over_a_file_witness :
  let E := simple_env (fun _ => Archive fine []) in
  let st := start ["x.rar"] in
  fst (create_directory_recursive E "x.rar" st) = 0 /\
  ~ In "x.rar" (dirs (snd (create_directory_recursive E "x.rar" st))) /\
  In "x.rar" (files (snd (create_directory_recursive E "x.rar" st))).
Proof.
  intros E st.
  apply (create_directory_recursive_over_a_file E "x.rar" st);
    [reflexivity|now left|intros []].
Defined.

Lemma create_directory_recursive_keeps_the_disk_witness :
  let E := simple_env (fun _ => Archive fine []) in
  let st := State ["out"] ["x.rar"] 0 O no_error no_error [] in
  let st' := snd (create_directory_recursive E "out/a/b" st) in
  files st' = ["x.rar"] /\ In "out" (dirs st') /\ NoDup (dirs st').
Proof.
  intros E st st'.
  destruct (create_directory_recursive_keeps_the_disk E "out/a/b" st)
    as (Hf & Hincl & _ & Hnd).
  split; [exact Hf|]. split; [apply Hincl; now left|].
  apply Hnd. constructor; [intros []|constructor].
Defined.

(** ** The parent of a path *)

Lemma has_char_append (c : ascii) (a b : string) :
  has_char c (a +++ b) = has_char c a || has_char c b.
Proof.
  induction a as [|x a IH]; simpl; [reflexivity|].
  now rewrite IH, orb_assoc.
Qed.

Lemma strrchr_none (s : string) (c : ascii) :
  strrchr s c = None <-> has_char c s = false.
Proof.
  induction s as [|x s IH]; simpl; [tauto|].
  destruct (strrchr s c) as [i|].
  - split; [discriminate|]. intros H. apply orb_false_iff in H.
    destruct H as [_ H]. apply IH in H. discriminate.
  - destruct (Ascii.eqb x c); simpl.
    + split; discriminate.
    + split; intros _; [now apply IH|reflexivity].
Qed.

Lemma strrchr_last (a b : string) (c : ascii) :
  has_char c b = false -> strrchr (a +++ String c b) c = Some (String.length a).
Proof.
  intros Hb. induction a as [|x a IH]; simpl.
  - apply strrchr_none in Hb. rewrite Hb. now rewrite Ascii.eqb_refl.
  - now rewrite IH.
Qed.

Lemma strrchr_split (s : string) (c : ascii) (i : nat) :
  strrchr s c = Some i ->
  exists a b, s = a +++ String c b /\ String.length a = i /\ has_char c b = false.
Proof.
  revert i. induction s as [|x s IH]; intros i; simpl; [discriminate|].
  destruct (strrchr s c) as [j|] eqn:Hs.
  - intros H. inversion H; subst i.
    destruct (IH j eq_refl) as (a & b & -> & Hlen & Hb).
    exists (String x a), b. simpl. now rewrite Hlen.
  - destruct (Ascii.eqb x c) eqn:Hx; [|discriminate].
    intros H. inversion H; subst i. apply Ascii.eqb_eq in Hx. subst x.
    exists "", s. repeat split. now apply strrchr_none.
Qed.

Lemma substring_prefix (a b : string) :
  substring 0 (String.length a) (a +++ b) = a.
Proof.
  induction a as [|x a IH]; simpl.
  - now destruct b.
  - now rewrite IH.
Qed.

(** The value of [get_parent_directory] when its copy of the path can be
    allocated: a pure function of the path. *)
Lemma get_parent_directory_value (E : env) (path : string) (st : state) :
  heap E (allocs st) = true ->
  fst (get_parent_directory E path st) =
  Some match match strrchr path (PATH_SEP E) with
             | Some i => Some i
             | None => strrchr path "/"
             end with
       | Some (S i) => substring 0 (S i) path
       | _ => path
       end.
Proof.
  intros Hh. unfold get_parent_directory, bind, alloc. simpl. now rewrite Hh.
Qed.

(** X9.  [get_parent_directory] drops the last component: for a path
    made of a non-empty [front], the separator and a [leaf] without
    separator, it returns [front].  In particular the parent of the
    output path of an entry that lies directly in a non-empty destination
    is the destination. *)
Theorem get_parent_directory_drops_the_leaf (E : env) (front leaf : string)
    (st : state) :
  heap E (allocs st) = true ->
  front <> "" ->
  has_char (PATH_SEP E) leaf = false ->
  fst (get_parent_directory E (front +++ String (PATH_SEP E) leaf) st) = Some front.
Proof.
  intros Hh Hfront Hleaf.
  rewrite get_parent_directory_value by assumption.
  rewrite strrchr_last by assumption.
  pose proof (substring_prefix front (String (PATH_SEP E) leaf)) as Hcut.
  destruct front as [|x front]; [contradiction|].
  change (String.length (String x front)) with (S (String.length front)) in Hcut |- *.
  cbv iota beta. now rewrite Hcut.
Qed.

Lemma get_parent_directory_drops_the_leaf_witness :
  let E := simple_env (fun _ => Archive fine []) in
  fst (get_parent_directory E "out/sub/a.txt" (start [])) = Some "out/sub".
Proof.
  intros E.
  apply (get_parent_directory_drops_the_leaf E "out/sub" "a.txt" (start []));
    [reflexivity|discriminate|reflexivity].
Defined.

(** X10.  A path with no separator after its first character is its own
    parent: [get_parent_directory] returns a bare name, and a name
    directly under the root, unchanged (so for an empty destination the
    "parent" of an entry's output path is that output path itself). *)
Theorem get_parent_directory_of_a_bare_name (E : env) (c : ascii) (leaf : string)
    (st : state) :
  heap E (allocs st) = true ->
  has_char (PATH_SEP E) leaf = false ->
  has_char "/" leaf = false ->
  fst (get_parent_directory E (String c leaf) st) = Some (String c leaf) /\
  fst (get_parent_directory E "" st) = Some "".
Proof.
  intros Hh Hsep Hslash.
  rewrite !get_parent_directory_value by assumption. split; [|reflexivity].
  apply strrchr_none in Hsep. apply strrchr_none in Hslash.
  simpl. rewrite Hsep, Hslash.
  destruct (Ascii.eqb c (PATH_SEP E)); [reflexivity|].
  destruct (Ascii.eqb c "/"); reflexivity.
Qed.

Lemma get_parent_directory_of_a_bare_name_witness :
  let E := simple_env (fun _ => Archive fine []) in
  fst (get_parent_directory E "/a.txt" (start [])) = Some "/a.txt" /\
  fst (get_parent_directory E "" (start [])) = Some "".
Proof.
  intros E.
  apply (get_parent_directory_of_a_bare_name E "/" "a.txt" (start []));
    reflexivity.
Defined.

(** The value of [get_parent_directory], in parts: the path is what is
    returned followed by nothing or by a separator and more. *)
Lemma get_parent_directory_parts (E : env) (path : string) (st : state) :
  heap E (allocs st) = true ->
  exists parent rest,
    fst (get_parent_directory E path st) = Some parent /\ path = parent +++ rest /\
    (rest = "" \/ exists c r, rest = String c r /\ is_separator E c = true) /\
    (parent = "" -> path = "").
Proof.
  intros Hh. rewrite get_parent_directory_value by assumption.
  assert (Hcut : forall sep i, strrchr path sep = Some (S i) ->
                 is_separator E sep = true ->
                 exists parent rest,
                   Some (substring 0 (S i) path) = Some parent /\
                   path = parent +++ rest /\
                   (rest = "" \/
                    exists c r, rest = String c r /\ is_separator E c = true) /\
                   (parent = "" -> path = "")).
  { intros sep i Hi Hsep.
    destruct (strrchr_split _ _ _ Hi) as (a & b & Hpath & Hlen & _).
    exists a, (String sep b). rewrite Hpath at 1. rewrite <- Hlen, substring_prefix.
    split; [reflexivity|]. split; [exact Hpath|]. split.
    - right. now exists sep, b.
    - intros ->. discriminate. }
  assert (Hwhole : exists parent rest,
                     Some path = Some parent /\ path = parent +++ rest /\
                     (rest = "" \/
                      exists c r, rest = String c r /\ is_separator E c = true) /\
                     (parent = "" -> path = "")).
  { exists path, "". rewrite append_nil_r. repeat split; auto. }
  assert (Hs1 : is_separator E (PATH_SEP E) = true).
  { unfold is_separator. now rewrite Ascii.eqb_refl. }
  assert (Hs2 : is_separator E "/" = true).
  { unfold is_separator. rewrite (Ascii.eqb_refl "/"). apply orb_true_r. }
  destruct (strrchr path (PATH_SEP E)) as [[|i]|] eqn:H1; [exact Hwhole|eauto|].
  destruct (strrchr path "/") as [[|i]|] eqn:H2; [exact Hwhole|eauto|exact Hwhole].
Qed.

(** X11.  What [get_parent_directory] returns is always the path cut
    before one of its separators, or the whole path; it is empty only for
    the empty path; and when the copy of the path cannot be allocated the
    result is NULL.  The disk and the trace are never touched. *)
Theorem get_parent_directory_is_a_prefix (E : env) (path : string) (st : state) :
  let run := get_parent_directory E path st in
  (heap E (allocs st) = true ->
   exists parent rest,
     fst run = Some parent /\ path = parent +++ rest /\
     (rest = "" \/ exists c r, rest = String c r /\ is_separator E c = true) /\
     (parent = "" -> path = "")) /\
  (heap E (allocs st) = false -> fst run = None) /\
  dirs (snd run) = dirs st /\ files (snd run) = files st /\
  trace (snd run) = trace st.
Proof.
  intros run. subst run. split; [|split].
  - intros Hh. now apply get_parent_directory_parts.
  - intros Hh. unfold get_parent_directory, bind, alloc. simpl. now rewrite Hh.
  - unfold get_parent_directory, bind, alloc. simpl.
    destruct (heap E (allocs st)); repeat split.
Qed.

Lemma get_parent_directory_is_a_prefix_witness :
  let E := Env true (fun _ => true) (fun _ _ => None) (fun _ _ => Archive fine []) in
  fst (get_parent_directory E "C:\out/a\b.txt" (start [])) = Some "C:\out/a" /\
  fst (get_parent_directory E "out/a.txt" (start [])) = Some "out".
Proof.
  intros E.
  destruct (get_parent_directory_is_a_prefix E "C:\out/a\b.txt" (start []))
    as (Hsome & _).
  destruct Hsome as (parent & rest & Hrun & _); [reflexivity|].
  split; reflexivity.
Defined.

(** ** Copying the data of an entry *)

(** X12.  [copy_data] copies the blocks in order and stops at the first
    call that does not return ARCHIVE_OK, and at that one only.  Either
    the data ends after a run of blocks that were all read and written
    with ARCHIVE_OK (there is no further block, or the next read answers
    ARCHIVE_EOF): then it returns ARCHIVE_OK and has written exactly
    those blocks.  Or the copying breaks off at a block: when the read of
    that block fails it returns the status of the read, having written
    exactly the blocks before it; when its write fails it returns the
    status of the write, having written the blocks before it and
    attempted this one.  Nothing after that block is read or written,
    and the reader is left with the error of the read of that block. *)
Theorem copy_data_writes_what_it_reads (blocks : list (outcome * outcome))
    (st : state) :
  let r := fst (copy_data blocks st) in
  let st' := snd (copy_data blocks st) in
  (exists pre,
      forallb copied pre = true /\
      (blocks = pre \/
       exists rd wr rest, blocks = pre ++ (rd, wr) :: rest /\ code rd = ARCHIVE_EOF) /\
      r = ARCHIVE_OK /\
      trace st' = trace st ++ block_writes pre) \/
  (exists pre rd wr,
      breaks_off_at blocks pre rd wr /\
      r <> ARCHIVE_OK /\
      rd_err st' = after rd /\
      ((code rd <> ARCHIVE_OK /\ r = code rd /\
        trace st' = trace st ++ block_writes pre) \/
       (code rd = ARCHIVE_OK /\ r = code wr /\
        trace st' = trace st ++ block_writes pre ++ [WriteDataBlock (code wr)]))).
Proof.
  intros r st'. subst r st'.
  destruct (blocks_split blocks) as (pre & rest & Hsplit & Hpre & Hrest).
  assert (Hends : rest = [] \/
                  (exists rd wr tl, rest = (rd, wr) :: tl /\ code rd = ARCHIVE_EOF) ->
                  exists pre0,
                    forallb copied pre0 = true /\
                    (blocks = pre0 \/
                     exists rd wr rest0,
                       blocks = pre0 ++ (rd, wr) :: rest0 /\ code rd = ARCHIVE_EOF) /\
                    fst (copy_data blocks st) = ARCHIVE_OK /\
                    trace (snd (copy_data blocks st)) = trace st ++ block_writes pre0).
  { intros Hend. exists pre. split; [exact Hpre|]. split.
    - destruct Hend as [-> | (rd & wr & tl & -> & Heof)].
      + left. now rewrite Hsplit, app_nil_r.
      + right. now exists rd, wr, tl.
    - rewrite Hsplit. now apply copy_data_ends. }
  destruct rest as [|[rd wr] tl]; [left; apply Hends; now left|].
  destruct (not_copied rd wr Hrest) as [Heof | Hfails].
  { left. apply Hends. right. now exists rd, wr, tl. }
  right. exists pre, rd, wr.
  assert (Hb : breaks_off_at blocks pre rd wr).
  { split; [now exists tl|now split]. }
  destruct (copy_data_breaks_off blocks pre rd wr st Hb) as (Hr & Hne & Herr & Ht).
  split; [exact Hb|]. split; [exact Hne|]. split; [exact Herr|].
  destruct Hfails as [(Hrd & _) | (Hrd & Hwr)].
  - left. apply Z.eqb_neq in Hrd. rewrite Hrd in Hr, Ht. apply Z.eqb_neq in Hrd.
    rewrite app_nil_r in Ht. now repeat split.
  - right. rewrite Hrd in Hr, Ht. now repeat split.
Qed.

(** Three blocks, the second of which cannot be written: the third is
    neither read nor written. *)
Example copy_data_breaks_off_at_a_write :
  let disk_full := Outcome ARCHIVE_FATAL (LibError 28 (Some "Write failed")) in
  let run := copy_data [(fine, fine); (fine, disk_full); (fine, fine)] (start []) in
  fst run = ARCHIVE_FATAL /\
  trace (snd run) = [WriteDataBlock ARCHIVE_OK; WriteDataBlock ARCHIVE_FATAL].
Proof. split; reflexivity. Qed.

(** X13.  A block that is read but cannot be written is reported with
    the reader's error, not the writer's: when the header of an entry of
    positive size is written, the blocks before some block are copied,
    that block is read with ARCHIVE_OK and its write fails, the body of
    the extraction loop leaves with the status of the write and with the
    code that the error state the reader was left in by that read maps
    to; the error state the writer was left in is not looked at. *)
Theorem failed_write_is_mapped_from_the_reader (E : env) (dest_path : string)
    (error_cb : bool) (r0 : Z) (e : entry) (p : string)
    (pre rest : list (outcome * outcome)) (rd wr : outcome) (st : state) :
  pathname e = Some p ->
  heap E (allocs st) = true ->
  code (write_header e) = ARCHIVE_OK ->
  size e > 0 ->
  data_blocks e = pre ++ (rd, wr) :: rest ->
  forallb copied pre = true ->
  code rd = ARCHIVE_OK ->
  code wr <> ARCHIVE_OK ->
  fst (extract_entry E dest_path error_cb r0 e st) =
  Some (inl (code wr, classify (after rd))).
Proof.
  intros Hp Hh Hw Hsize Hblocks Hpre Hrd Hwr.
  assert (Hb : breaks_off_at (data_blocks e) pre rd wr).
  { split; [now exists rest|]. split; [exact Hpre|now right]. }
  unfold extract_entry. rewrite Hp.
  unfold bind at 1. unfold alloc at 1. simpl. rewrite Hh. simpl.
  unfold bind at 1.
  destruct (get_parent_directory E _ _) as [parent s1].
  unfold bind at 1.
  assert (Hparents : exists s2,
             (match parent with
              | Some q => create_directory_recursive E q ;;; ret tt
              | None => ret tt
              end) s1 = (tt, s2)).
  { destruct parent as [q|]; [|now exists s1].
    unfold bind, ret. destruct (create_directory_recursive E q s1) as [c s2].
    now exists s2. }
  destruct Hparents as (s2 & ->).
  unfold archive_write_header, bind at 1. simpl.
  unfold bind at 1. simpl. unfold bind at 1. simpl.
  rewrite Hw. simpl.
  replace (size e >? 0) with true by (symmetry; apply Z.gtb_lt; lia).
  unfold bind at 1.
  match goal with |- context [copy_data (data_blocks e) ?s] =>
    destruct (copy_data_breaks_off _ _ _ _ s Hb) as (Hr & Hne & Herr & _);
    destruct (copy_data (data_blocks e) s) as [r s3] end.
  simpl in Hr, Hne, Herr. rewrite Hrd in Hr. simpl in Hr. subst r.
  apply Z.eqb_neq in Hwr. rewrite Hwr. simpl.
  rewrite map_archive_error_run. simpl. now rewrite Herr.
Qed.

Lemma failed_write_is_mapped_from_the_reader_witness :
  let disk_full := Outcome ARCHIVE_FATAL (LibError 28 (Some "Write failed: checksum")) in
  let e := Entry (Some "a") 5 fine fine [(fine, fine); (fine, disk_full); (fine, fine)]
                 fine in
  fst (extract_entry (simple_env (fun _ => Archive fine [])) "out" true ARCHIVE_OK e
         (start [])) =
  Some (inl (ARCHIVE_FATAL, RAR_UNKNOWN_ERROR)).
Proof.
  intros disk_full e.
  apply (failed_write_is_mapped_from_the_reader
           (simple_env (fun _ => Archive fine [])) "out" true ARCHIVE_OK e "a"
           [(fine, fine)] [(fine, fine)] fine disk_full (start []));
    try reflexivity.
  vm_compute. discriminate.
Defined.

(** ** The listing as a whole *)

Lemma reported_error_report (error_cb : bool) (text : option string) :
  (List.length (reported (error_report error_cb text)) <= 1)%nat /\
  listed (error_report error_cb text) = [] /\
  handed_to_writer (error_report error_cb text) = [] /\
  written (error_report error_cb text) = [] /\
  mkdir_calls (error_report error_cb text) = [] /\
  forallb is_listing_event (error_report error_cb text) = true.
Proof.
  destruct text as [s|]; [destruct error_cb|]; simpl; repeat split; lia.
Qed.

Lemma map_archive_error_report (a : handle) (error_cb : bool) (st : state) :
  let e := match a with Reader => rd_err st | Writer => wr_err st end in
  map_archive_error a error_cb st =
  (classify e,
   State (dirs st) (files st) (errno st) (allocs st) (rd_err st) (wr_err st)
         (trace st ++ error_report error_cb (err_str e))).
Proof. apply map_archive_error_run. Qed.

(** The listing loop, whatever the headers are: it ends with the status
    that ends the walk, has delivered the pathnames of the entries it got
    to see, and has changed nothing but the reader's error state. *)
Lemma list_entries_summary (list_cb : bool) (hs : list header) (st : state) :
  let st' := snd (list_entries list_cb hs st) in
  fst (list_entries list_cb hs st) = stop_code hs /\
  dirs st' = dirs st /\ files st' = files st /\ errno st' = errno st /\
  allocs st' = allocs st /\ wr_err st' = wr_err st /\
  trace st' =
  trace st ++ (if list_cb then map ListCb (delivered (leading_ok hs)) else []).
Proof.
  revert st. induction hs as [|h hs IH]; intros st.
  - simpl. destruct list_cb; rewrite app_nil_r; repeat split.
  - simpl. unfold bind at 1 2 3 4 5 6 7. simpl.
    destruct (code (next_header h) =? ARCHIVE_OK) eqn:Hc; simpl.
    2:{ destruct list_cb; rewrite app_nil_r; repeat split. }
    unfold bind, call.
    destruct (pathname (hdr_entry h)) as [p|]; [destruct list_cb|]; simpl;
      match goal with |- context [list_entries ?cb hs ?s] =>
        destruct (IH s) as (Hr & Hd & Hf & He & Ha & Hw & Ht) end;
      simpl in *; repeat (split; [assumption|]);
      rewrite Ht; now rewrite <- ?app_assoc.
Qed.

Lemma rar_list_no_file (E : env) (rar_path : string) (password : option string)
    (list_cb error_cb : bool) (st : state) :
  fst (fopen_rb E rar_path st) = false ->
  rar_list E rar_path password list_cb error_cb st =
  (RAR_FILE_NOT_FOUND,
   State (dirs st) (files st) (errno (snd (fopen_rb E rar_path st))) (allocs st)
         (rd_err st) (wr_err st)
         (trace st ++ error_report error_cb (Some "RAR file not found"))).
Proof.
  intros Hf. unfold rar_list, bind.
  destruct (fopen_rb_cases E rar_path st) as [Hfo | (e & Hfo)]; rewrite Hfo in *;
    [discriminate Hf|].
  simpl. destruct error_cb; simpl; now rewrite ?app_nil_r.
Qed.

Lemma rar_list_no_reader (E : env) (rar_path : string) (password : option string)
    (list_cb error_cb : bool) (st : state) :
  fopen_rb E rar_path st = (true, st) ->
  heap E (allocs st) = false ->
  rar_list E rar_path password list_cb error_cb st =
  (RAR_MEMORY_ERROR,
   State (dirs st) (files st) (errno st) (S (allocs st)) (rd_err st) (wr_err st)
         (trace st ++ error_report error_cb (Some "Failed to create archive reader"))).
Proof.
  intros Hf Hh. unfold rar_list, bind, alloc. rewrite Hf. simpl.
  rewrite Hh. simpl. destruct error_cb; simpl; now rewrite ?app_nil_r.
Qed.

(** [rar_list] once the archive is open, in full. *)
Lemma rar_list_walk (E : env) (rar_path : string) (password : option string)
    (list_cb error_cb : bool) (st : state) :
  fopen_rb E rar_path st = (true, st) ->
  heap E (allocs st) = true ->
  let ar := reads E rar_path (passphrases password) in
  code (open_filename ar) = ARCHIVE_OK ->
  exists st',
    rar_list E rar_path password list_cb error_cb st =
    ((if stop_code (headers ar) =? ARCHIVE_EOF then RAR_SUCCESS
      else classify (rd_err st')), st') /\
    dirs st' = dirs st /\ files st' = files st /\ errno st' = errno st /\
    wr_err st' = wr_err st /\
    trace st' =
    trace st ++ map AddPassphrase (passphrases password) ++
    [OpenFilename rar_path ARCHIVE_OK] ++
    (if list_cb then map ListCb (delivered (leading_ok (headers ar))) else []) ++
    (if stop_code (headers ar) =? ARCHIVE_EOF then []
     else error_report error_cb (err_str (rd_err st'))).
Proof.
  intros Hf Hh ar Hopen.
  rewrite rar_list_opened by auto. fold ar. rewrite Hopen. simpl.
  destruct (list_entries_summary list_cb (headers ar)
              (opened_for_list ar rar_path password st))
    as (Hr & Hd & Hfi & He & Ha & Hw & Ht).
  destruct (list_entries list_cb (headers ar) _) as [r st1]. simpl in *.
  subst r. rewrite Hopen in Ht.
  destruct (stop_code (headers ar) =? ARCHIVE_EOF); simpl.
  - exists st1. repeat (split; [assumption || reflexivity|]).
    rewrite Ht, app_nil_r. now rewrite <- !app_assoc.
  - rewrite map_archive_error_report. simpl.
    exists (State (dirs st1) (files st1) (errno st1) (allocs st1) (rd_err st1)
                  (wr_err st1)
                  (trace st1 ++ error_report error_cb (err_str (rd_err st1)))).
    split; [reflexivity|]. simpl.
    repeat (split; [assumption|]).
    rewrite Ht. now rewrite <- !app_assoc.
Qed.

Lemma rar_list_open_fails (E : env) (rar_path : string) (password : option string)
    (list_cb error_cb : bool) (st : state) :
  fopen_rb E rar_path st = (true, st) ->
  heap E (allocs st) = true ->
  let ar := reads E rar_path (passphrases password) in
  code (open_filename ar) <> ARCHIVE_OK ->
  rar_list E rar_path password list_cb error_cb st =
  (classify (after (open_filename ar)),
   State (dirs st) (files st) (errno st) (S (allocs st)) (after (open_filename ar))
         (wr_err st)
         (trace st ++ map AddPassphrase (passphrases password) ++
          [OpenFilename rar_path (code (open_filename ar))] ++
          error_report error_cb (err_str (after (open_filename ar))))).
Proof.
  intros Hf Hh ar Hopen.
  rewrite rar_list_opened by auto. fold ar.
  apply Z.eqb_neq in Hopen. rewrite Hopen. simpl.
  rewrite map_archive_error_report. simpl. now rewrite <- !app_assoc.
Qed.

Lemma listing_events_of_passphrases (password : option string) :
  forallb is_listing_event (map AddPassphrase (passphrases password)) = true /\
  mkdir_calls (map AddPassphrase (passphrases password)) = [].
Proof.
  destruct (passphrases_at_most_one password) as [Hp | [p Hp]]; now rewrite Hp.
Qed.

Lemma listing_events_of_callbacks (names : list string) :
  forallb is_listing_event (map ListCb names) = true /\
  mkdir_calls (map ListCb names) = [] /\
  handed_to_writer (map ListCb names) = [].
Proof. induction names as [|n names IH]; simpl; auto. Qed.

Lemma classify_in_list_codes (e : lib_error) :
  In (classify e) list_codes /\ classify e <> RAR_SUCCESS.
Proof.
  split; [right; apply classify_mapped|apply classify_not_success].
Qed.

(** [rar_list] in full: what it leaves alone, what it can return, when it
    returns RAR_SUCCESS and what the callbacks have received. *)
Lemma rar_list_summary (E : env) (rar_path : string) (password : option string)
    (list_cb error_cb : bool) (st : state) :
  let ar := reads E rar_path (passphrases password) in
  let run := rar_list E rar_path password list_cb error_cb st in
  dirs (snd run) = dirs st /\ files (snd run) = files st /\
  wr_err (snd run) = wr_err st /\
  In (fst run) list_codes /\
  (fst run = RAR_SUCCESS <->
   fst (fopen_rb E rar_path st) = true /\ heap E (allocs st) = true /\
   code (open_filename ar) = ARCHIVE_OK /\ stop_code (headers ar) = ARCHIVE_EOF) /\
  exists t,
    trace (snd run) = trace st ++ t /\
    forallb is_listing_event t = true /\
    (List.length (reported t) <= 1)%nat /\
    (listed t = [] \/
     listed t = if list_cb then delivered (leading_ok (headers ar)) else []) /\
    (fst run = RAR_SUCCESS ->
     reported t = [] /\
     listed t = if list_cb then delivered (leading_ok (headers ar)) else []).
Proof.
  intros ar run. subst run. unfold ar. clear ar.
  remember (reads E rar_path (passphrases password)) as ar eqn:Har.
  destruct (fst (fopen_rb E rar_path st)) eqn:Hfo.
  2:{ rewrite rar_list_no_file by assumption. cbn [fst snd dirs files wr_err trace].
      repeat (split; [reflexivity|]).
      split; [unfold list_codes, mapped_codes; simpl; tauto|].
      split; [split; [discriminate|intros (H & _); discriminate]|].
      eexists. split; [reflexivity|].
      destruct error_cb; simpl; repeat split; auto; discriminate. }
  pose proof (fopen_rb_opened E rar_path st Hfo) as Hf.
  destruct (heap E (allocs st)) eqn:Hh.
  2:{ rewrite rar_list_no_reader by auto. simpl.
      repeat (split; [reflexivity|]).
      split; [unfold list_codes, mapped_codes; simpl; tauto|].
      split; [split; [discriminate|intros (_ & H & _); discriminate]|].
      eexists. split; [reflexivity|].
      destruct error_cb; simpl; repeat split; auto; discriminate. }
  destruct (passphrase_events_silent password) as (Pl & Pr & _ & _).
  destruct (listing_events_of_passphrases password) as (Pe & _).
  destruct (Z.eq_dec (code (open_filename ar)) ARCHIVE_OK) as [Hopen | Hopen].
  2:{ rewrite rar_list_open_fails by (rewrite <- ?Har; assumption).
      rewrite <- ?Har. simpl.
      destruct (classify_in_list_codes (after (open_filename ar))) as [Hin Hne].
      destruct (reported_error_report error_cb (err_str (after (open_filename ar))))
        as (Rr & Rl & _ & _ & _ & Re).
      repeat (split; [reflexivity|]).
      split; [exact Hin|].
      split; [split; [intros H; contradiction|intros (_ & _ & H & _); contradiction]|].
      eexists. split; [reflexivity|].
      rewrite !forallb_app, !reported_app, !listed_app, Pe, Pr, Pl. simpl.
      rewrite Re, Rl.
      split; [reflexivity|]. split; [exact Rr|]. split; [now left|].
      intros H. contradiction. }
  destruct (rar_list_walk E rar_path password list_cb error_cb st Hf Hh)
    as (st' & Hrun & Hd & Hfi & _ & Hw & Ht); [now rewrite <- Har|].
  rewrite <- Har in Hrun, Ht. rewrite Hrun. simpl.
  repeat (split; [assumption|]).
  destruct (reported_error_report error_cb (err_str (rd_err st')))
    as (Rr & Rl & _ & _ & _ & Re).
  destruct (listing_events_of_callbacks (delivered (leading_ok (headers ar))))
    as (Ce & _).
  assert (Hcb : forallb is_listing_event
                  (if list_cb then map ListCb (delivered (leading_ok (headers ar)))
                   else []) = true /\
                reported (if list_cb
                          then map ListCb (delivered (leading_ok (headers ar)))
                          else []) = [] /\
                listed (if list_cb
                        then map ListCb (delivered (leading_ok (headers ar)))
                        else []) =
                (if list_cb then delivered (leading_ok (headers ar)) else [])).
  { destruct list_cb; [|now repeat split].
    split; [exact Ce|]. split; [apply reported_of_callbacks|apply listed_of_callbacks]. }
  destruct Hcb as (Cbe & Cbr & Cbl).
  destruct (stop_code (headers ar) =? ARCHIVE_EOF) eqn:Hstop.
  - apply Z.eqb_eq in Hstop.
    split; [now left|]. split; [now split|].
    eexists. split; [exact Ht|].
    rewrite !forallb_app, !reported_app, !listed_app, Pe, Pr, Pl, Cbe, Cbr, Cbl.
    simpl. rewrite !app_nil_r. repeat split; auto.
  - apply Z.eqb_neq in Hstop.
    destruct (classify_in_list_codes (rd_err st')) as [Hin Hne].
    split; [exact Hin|].
    split; [split; [intros H; contradiction|intros (_ & _ & _ & H); contradiction]|].
    eexists. split; [exact Ht|].
    rewrite !forallb_app, !reported_app, !listed_app, Pe, Pr, Pl, Cbe, Cbr, Cbl, Re, Rl.
    simpl. rewrite !app_nil_r.
    split; [reflexivity|]. split; [exact Rr|]. split; [now right|].
    intros H. contradiction.
Qed.

(** ** The extraction as a whole *)

Lemma copy_data_events (blocks : list (outcome * outcome)) (st : state) :
  let st' := snd (copy_data blocks st) in
  files st' = files st /\ dirs st' = dirs st /\
  exists t, trace st' = trace st ++ t /\ forallb is_writer_step t = true.
Proof.
  revert st. induction blocks as [|[rd wr] rest IH]; intros st.
  - simpl. repeat split. exists []. now rewrite app_nil_r.
  - simpl. unfold bind. simpl.
    destruct (code rd =? ARCHIVE_EOF); simpl.
    { repeat split. exists []. now rewrite app_nil_r. }
    destruct (code rd =? ARCHIVE_OK); simpl.
    2:{ repeat split. exists []. now rewrite app_nil_r. }
    destruct (code wr =? ARCHIVE_OK); simpl.
    2:{ repeat split. now exists [WriteDataBlock (code wr)]. }
    match goal with |- context [copy_data rest ?s] =>
      destruct (IH s) as (Hf & Hd & t & Ht & Hu) end.
    simpl in Hf, Hd, Ht.
    split; [exact Hf|]. split; [exact Hd|].
    exists (WriteDataBlock (code wr) :: t). split; [|exact Hu].
    rewrite Ht. now rewrite <- app_assoc.
Qed.

(** The body of the extraction loop for an entry with a pathname and
    with memory for the output path, event by event: directories are
    made, the header is handed to the writer, the writer takes its
    steps, and if one of the three steps fails the error is mapped and
    reported. *)
Lemma extract_entry_events (E : env) (dest_path : string) (error_cb : bool)
    (r0 : Z) (e : entry) (p : string) (st : state) :
  pathname e = Some p ->
  heap E (allocs st) = true ->
  let run := extract_entry E dest_path error_cb r0 e st in
  let full_path := dest_path +++ String (PATH_SEP E) p in
  files (snd run) = files st /\
  exists t1 t2 errs,
    trace (snd run) =
    trace st ++ t1 ++ [WriteHeader full_path (code (write_header e))] ++ t2 ++ errs /\
    forallb is_mkdir t1 = true /\ forallb is_writer_step t2 = true /\
    ((entry_status e = ARCHIVE_OK /\ fst run = Some (inr tt) /\ errs = []) \/
     (entry_status e <> ARCHIVE_OK /\
      exists result text,
        fst run = Some (inl (entry_status e, result)) /\
        In result mapped_codes /\ errs = error_report error_cb text)).
Proof.
  intros Hp Hh run full_path.
  assert (Hrun : run = extract_entry E dest_path error_cb r0 e st) by reflexivity.
  clearbody run.
  unfold extract_entry in Hrun. rewrite Hp in Hrun.
  unfold bind at 1, alloc at 1 in Hrun. simpl in Hrun. rewrite Hh in Hrun.
  simpl in Hrun. fold full_path in Hrun.
  unfold bind at 1 in Hrun.
  match type of Hrun with context [get_parent_directory E full_path ?s] =>
    pose proof (get_parent_directory_mkdirs_only E full_path s) as Hg;
    destruct (get_parent_directory E full_path s) as [parent s1] end.
  simpl in Hg.
  unfold bind at 1 in Hrun.
  assert (Hparents : exists s2,
             (match parent with
              | Some q => create_directory_recursive E q ;;; ret tt
              | None => ret tt
              end) s1 = (tt, s2) /\ mkdirs_only s1 s2).
  { destruct parent as [q|].
    - unfold bind, ret.
      pose proof (create_directory_recursive_mkdirs_only E q s1) as Hc.
      destruct (create_directory_recursive E q s1) as [c s2]. now exists s2.
    - exists s1. split; [reflexivity|apply mkdirs_only_refl]. }
  destruct Hparents as (s2 & Hpar & Hc). rewrite Hpar in Hrun. clear Hpar.
  pose proof (mkdirs_only_trans _ _ _ Hg Hc) as (Hfiles & _ & _ & _ & t1 & Ht1 & Hm1).
  simpl in Hfiles, Ht1.
  unfold entry_status.
  unfold archive_write_header, bind at 1 in Hrun. simpl in Hrun.
  unfold bind at 1 in Hrun. simpl in Hrun. unfold bind at 1 in Hrun. simpl in Hrun.
  destruct (code (write_header e) =? ARCHIVE_OK) eqn:Hw; simpl in Hrun |- *.
  2:{ rewrite map_archive_error_report in Hrun. simpl in Hrun. subst run. simpl.
      split; [exact Hfiles|].
      exists t1, []. eexists. split; [rewrite Ht1, <- !app_assoc; reflexivity|].
      split; [exact Hm1|]. split; [reflexivity|]. right.
      split; [now apply Z.eqb_neq|].
      eexists. eexists. split; [reflexivity|]. split; [apply classify_mapped|reflexivity]. }
  unfold bind at 1 in Hrun.
  assert (Hcopy : exists s3 t3,
             (if size e >? 0 then copy_data (data_blocks e) else ret (code (write_header e)))
               (State (dirs s2) (files s2) (errno s2) (allocs s2) (rd_err s2)
                      (after (write_header e))
                      (trace s2 ++ [WriteHeader full_path (code (write_header e))]))
             = ((if size e >? 0 then copy_status (data_blocks e) else ARCHIVE_OK), s3) /\
             files s3 = files s2 /\
             trace s3 = (trace s2 ++ [WriteHeader full_path (code (write_header e))]) ++ t3 /\
             forallb is_writer_step t3 = true).
  { destruct (size e >? 0).
    - match goal with |- context [copy_data ?b ?s] =>
        destruct (copy_data_run b s) as (Hr & _);
        destruct (copy_data_events b s) as (Hf & _ & t3 & Ht3 & Hu3);
        destruct (copy_data b s) as [r s3] end.
      simpl in *. subst r. now exists s3, t3.
    - apply Z.eqb_eq in Hw. rewrite Hw. unfold ret. eexists. exists [].
      split; [reflexivity|]. simpl. now rewrite app_nil_r. }
  destruct Hcopy as (s3 & t3 & Hcp & Hf3 & Ht3 & Hu3). rewrite Hcp in Hrun. clear Hcp.
  set (r := if size e >? 0 then copy_status (data_blocks e) else ARCHIVE_OK) in *.
  destruct (r =? ARCHIVE_OK) eqn:Hr; simpl in Hrun |- *.
  2:{ rewrite map_archive_error_report in Hrun. simpl in Hrun. subst run. simpl.
      split; [congruence|].
      exists t1, t3. eexists. split; [rewrite Ht3, Ht1, <- !app_assoc; reflexivity|].
      split; [exact Hm1|]. split; [exact Hu3|]. right.
      split; [now apply Z.eqb_neq|].
      eexists. eexists. split; [reflexivity|]. split; [apply classify_mapped|reflexivity]. }
  unfold archive_write_finish_entry, bind in Hrun. simpl in Hrun.
  destruct (code (finish_entry e) =? ARCHIVE_OK) eqn:Hfin; simpl in Hrun |- *.
  - subst run. simpl. split; [congruence|].
    exists t1, (t3 ++ [FinishEntry (code (finish_entry e))]), [].
    split; [rewrite Ht3, Ht1, <- !app_assoc; now rewrite app_nil_r|].
    split; [exact Hm1|]. split; [now rewrite forallb_app, Hu3|]. left.
    split; [now apply Z.eqb_eq|now split].
  - rewrite map_archive_error_report in Hrun. simpl in Hrun. subst run. simpl.
    split; [congruence|].
    exists t1, (t3 ++ [FinishEntry (code (finish_entry e))]). eexists.
    split; [rewrite Ht3, Ht1, <- !app_assoc; reflexivity|].
    split; [exact Hm1|]. split; [now rewrite forallb_app, Hu3|]. right.
    split; [now apply Z.eqb_neq|].
    eexists. eexists. split; [reflexivity|]. split; [apply classify_mapped|reflexivity].
Qed.

Lemma writer_steps_are_silent (t : list event) :
  forallb is_writer_step t = true ->
  listed t = [] /\ handed_to_writer t = [] /\ written t = [] /\ reported t = [].
Proof.
  induction t as [|ev t IH]; simpl; [tauto|].
  intros H. apply andb_true_iff in H. destruct H as [Hev Ht].
  destruct ev; try discriminate Hev; simpl; now apply IH.
Qed.

Lemma mapped_code_not_success (c : Z) : In c mapped_codes -> c <> RAR_SUCCESS.
Proof.
  unfold mapped_codes. simpl. intros H ->.
  repeat (destruct H as [H | H]; [discriminate H|]). exact H.
Qed.

(** The body of the extraction loop, whatever the entry and the state of
    the heap: what it returns and what it has handed to the writer. *)
Lemma extract_entry_cases (E : env) (dest_path : string) (error_cb : bool)
    (r0 : Z) (h : header) (st : state) :
  let run := extract_entry E dest_path error_cb r0 (hdr_entry h) st in
  let out := output_path E dest_path h in
  files (snd run) = files st /\
  exists t,
    trace (snd run) = trace st ++ t /\ listed t = [] /\
    (List.length (reported t) <= 1)%nat /\
    match fst run with
    | None => pathname (hdr_entry h) = None /\ t = []
    | Some (inr _) =>
        entry_status (hdr_entry h) = ARCHIVE_OK /\
        pathname (hdr_entry h) <> None /\
        handed_to_writer t = [out] /\ written t = [out] /\ reported t = []
    | Some (inl (r, result)) =>
        In result mapped_codes /\ pathname (hdr_entry h) <> None /\
        ((handed_to_writer t = [] /\ written t = []) \/
         (handed_to_writer t = [out] /\ (written t = [] \/ written t = [out])))
    end.
Proof.
  intros run out.
  destruct (pathname (hdr_entry h)) as [p|] eqn:Hp.
  2:{ subst run. unfold extract_entry. rewrite Hp. simpl.
      split; [reflexivity|]. exists []. rewrite app_nil_r. simpl.
      repeat split; auto. }
  assert (Hout : out = dest_path +++ String (PATH_SEP E) p).
  { unfold out, output_path, name_of. now rewrite Hp. }
  destruct (heap E (allocs st)) eqn:Hh.
  2:{ subst run. unfold extract_entry. rewrite Hp.
      unfold bind, alloc. simpl. rewrite Hh. simpl.
      destruct error_cb; simpl; (split; [reflexivity|]);
        eexists; (split; [try reflexivity; now rewrite app_nil_r|]);
        (split; [reflexivity|]); (split; [simpl; lia|]);
        (split; [unfold mapped_codes; simpl; tauto|]);
        (split; [discriminate|]); now left. }
  destruct (extract_entry_events E dest_path error_cb r0 (hdr_entry h) p st Hp Hh)
    as (Hf & t1 & t2 & errs & Ht & Hm1 & Hw2 & Hres).
  fold run in Hf, Ht, Hres. rewrite <- Hout in Ht.
  split; [exact Hf|].
  destruct (mkdirs_are_silent _ Hm1) as (L1 & H1 & W1 & R1).
  destruct (writer_steps_are_silent _ Hw2) as (L2 & H2 & W2 & R2).
  exists (t1 ++ [WriteHeader out (code (write_header (hdr_entry h)))] ++ t2 ++ errs).
  split; [exact Ht|].
  rewrite !listed_app, !reported_app, !handed_to_writer_app, !written_app.
  rewrite L1, H1, W1, R1, L2, H2, W2, R2. simpl.
  destruct Hres as [(Hs & Hrun & ->) | (Hs & result & text & Hrun & Hin & ->)];
    rewrite Hrun.
  - rewrite (entry_status_ok_header _ Hs). simpl.
    repeat split; auto. discriminate.
  - destruct (reported_error_report error_cb text) as (Rr & Rl & Rh & Rw & _).
    rewrite Rl, Rh, Rw, !app_nil_r.
    split; [reflexivity|]. split; [exact Rr|]. split; [exact Hin|].
    split; [discriminate|]. right. split; [reflexivity|].
    destruct (code (write_header (hdr_entry h)) =? ARCHIVE_OK); [now right|now left].
Qed.

(** The extraction loop, whatever the headers: the entries handed to the
    writer are a leading run of the archive, in order; at most one error
    is reported; and the loop ends with RAR_SUCCESS as its result only
    after every entry it got to see was written. *)
Lemma extract_entries_summary (E : env) (dest_path : string) (error_cb : bool)
    (hs : list header) (st : state) :
  let run := extract_entries E dest_path error_cb hs st in
  files (snd run) = files st /\
  exists t k,
    trace (snd run) = trace st ++ t /\ listed t = [] /\
    (List.length (reported t) <= 1)%nat /\
    handed_to_writer t = map (output_path E dest_path) (firstn k hs) /\
    match fst run with
    | None => True
    | Some (r, result) =>
        In result (RAR_SUCCESS :: mapped_codes) /\
        (result = RAR_SUCCESS ->
         r = stop_code hs /\ reported t = [] /\
         written t = map (output_path E dest_path) (leading_ok hs) /\
         forallb extracts_cleanly (leading_ok hs) = true)
    end.
Proof.
  revert st. induction hs as [|h hs IH]; intros st run.
  - subst run. simpl. split; [reflexivity|]. exists [], O. rewrite app_nil_r. simpl.
    repeat split; auto.
  - assert (Hrun : run = extract_entries E dest_path error_cb (h :: hs) st)
      by reflexivity.
    clearbody run. simpl in Hrun. unfold bind in Hrun. simpl in Hrun.
    cbn [leading_ok stop_code].
    destruct (code (next_header h) =? ARCHIVE_OK) eqn:Hc; simpl in Hrun.
    2:{ subst run. simpl. split; [reflexivity|]. exists [], O. rewrite app_nil_r.
        simpl. repeat split; auto. }
    match type of Hrun with context [extract_entry E dest_path error_cb ?r0 _ ?s] =>
      destruct (extract_entry_cases E dest_path error_cb r0 h s)
        as (Hf & t & Ht & Hl & Hr & Hcase);
      destruct (extract_entry E dest_path error_cb r0 (hdr_entry h) s)
        as [[[[r result] | u]|] s1] end;
      simpl in Hf, Ht, Hcase.
    + destruct Hcase as (Hin & _ & Hhand). subst run. simpl.
      split; [exact Hf|]. exists t.
      destruct Hhand as [(Hh & _) | (Hh & _)]; [exists O|exists 1%nat];
        (split; [exact Ht|]); (split; [exact Hl|]); (split; [exact Hr|]);
        (split; [exact Hh|]); (split; [now right|]);
        intros ->; now apply mapped_code_not_success in Hin.
    + destruct Hcase as (Hs & Hp & Hh & Hw & Hrep).
      destruct (IH s1) as (Hf' & t' & k & Ht' & Hl' & Hr' & Hh' & Hcase').
      rewrite <- Hrun in Hf', Ht', Hcase'.
      split; [congruence|]. exists (t ++ t'), (S k).
      split; [rewrite Ht', Ht; now rewrite <- app_assoc|].
      rewrite listed_app, reported_app, handed_to_writer_app, Hl, Hl', Hrep, Hh, Hh'.
      split; [reflexivity|]. split; [exact Hr'|]. split; [reflexivity|].
      destruct (fst run) as [[r result]|]; [|exact I].
      destruct Hcase' as (Hin & Hok). split; [exact Hin|].
      intros Hres. destruct (Hok Hres) as (-> & Hrep' & Hw' & Hclean).
      split; [reflexivity|]. split; [now rewrite Hrep'|].
      rewrite written_app, Hw, Hw'. split; [reflexivity|].
      simpl. rewrite Hclean, andb_true_r.
      unfold extracts_cleanly, valid_header. rewrite Hc, Hs. simpl.
      destruct (pathname (hdr_entry h)); [reflexivity|now elim Hp].
    + destruct Hcase as (_ & ->). subst run. simpl.
      split; [exact Hf|]. exists [], O. rewrite app_nil_r. simpl.
      split; [now rewrite Ht, app_nil_r|]. repeat split; auto.
Qed.

Lemma rar_extract_no_file (E : env) (rar_path dest_path : string)
    (password : option string) (error_cb : bool) (st : state) :
  fst (fopen_rb E rar_path st) = false ->
  rar_extract E rar_path dest_path password error_cb st =
  (Some RAR_FILE_NOT_FOUND,
   State (dirs st) (files st) (errno (snd (fopen_rb E rar_path st))) (allocs st)
         (rd_err st) (wr_err st)
         (trace st ++ error_report error_cb (Some "RAR file not found"))).
Proof.
  intros Hf. unfold rar_extract, bind.
  destruct (fopen_rb_cases E rar_path st) as [Hfo | (e & Hfo)]; rewrite Hfo in *;
    [discriminate Hf|].
  simpl. destruct error_cb; simpl; now rewrite ?app_nil_r.
Qed.

Lemma rar_extract_no_directory (E : env) (rar_path dest_path : string)
    (password : option string) (error_cb : bool) (st : state) :
  fopen_rb E rar_path st = (true, st) ->
  fst (create_directory_recursive E dest_path st) <> 0 ->
  let st1 := snd (create_directory_recursive E dest_path st) in
  rar_extract E rar_path dest_path password error_cb st =
  (Some RAR_CREATE_ERROR,
   State (dirs st1) (files st1) (errno st1) (allocs st1) (rd_err st1) (wr_err st1)
         (trace st1 ++
          error_report error_cb (Some "Failed to create destination directory"))).
Proof.
  intros Hf Hc st1. subst st1.
  unfold rar_extract, bind at 1. rewrite Hf. simpl. unfold bind at 1.
  destruct (create_directory_recursive E dest_path st) as [created s1]. simpl in *.
  apply Z.eqb_neq in Hc. rewrite Hc. simpl.
  destruct s1. destruct error_cb; simpl; now rewrite ?app_nil_r.
Qed.

Lemma rar_extract_no_reader (E : env) (rar_path dest_path : string)
    (password : option string) (error_cb : bool) (st : state) :
  fopen_rb E rar_path st = (true, st) ->
  fst (create_directory_recursive E dest_path st) = 0 ->
  let st1 := snd (create_directory_recursive E dest_path st) in
  heap E (allocs st1) = false ->
  rar_extract E rar_path dest_path password error_cb st =
  (Some RAR_MEMORY_ERROR,
   State (dirs st1) (files st1) (errno st1) (S (allocs st1)) (rd_err st1) (wr_err st1)
         (trace st1 ++ error_report error_cb (Some "Failed to create archive reader"))).
Proof.
  intros Hf Hc st1 Hh. subst st1.
  unfold rar_extract, bind at 1. rewrite Hf. simpl. unfold bind at 1.
  destruct (create_directory_recursive E dest_path st) as [created s1]. simpl in *.
  subst created. simpl. unfold bind at 1, alloc at 1. simpl. rewrite Hh. simpl.
  destruct error_cb; simpl; now rewrite ?app_nil_r.
Qed.

Lemma rar_extract_no_writer (E : env) (rar_path dest_path : string)
    (password : option string) (error_cb : bool) (st : state) :
  fopen_rb E rar_path st = (true, st) ->
  fst (create_directory_recursive E dest_path st) = 0 ->
  let st1 := snd (create_directory_recursive E dest_path st) in
  heap E (allocs st1) = true ->
  heap E (S (allocs st1)) = false ->
  rar_extract E rar_path dest_path password error_cb st =
  (Some RAR_MEMORY_ERROR,
   State (dirs st1) (files st1) (errno st1) (S (S (allocs st1))) no_error (wr_err st1)
         (trace st1 ++ map AddPassphrase (passphrases password) ++
          error_report error_cb (Some "Failed to create disk writer"))).
Proof.
  intros Hf Hc st1 Hh1 Hh2. subst st1.
  unfold rar_extract, bind at 1. rewrite Hf. simpl. unfold bind at 1.
  destruct (create_directory_recursive E dest_path st) as [created s1]. simpl in *.
  subst created. simpl. unfold bind at 1, alloc at 1. simpl. rewrite Hh1. simpl.
  unfold add_passphrases, bind, alloc.
  destruct (passphrases_at_most_one password) as [Hp | [p Hp]]; rewrite Hp; simpl;
    rewrite Hh2; simpl; destruct error_cb; simpl;
    now rewrite <- ?app_assoc, ?app_nil_r.
Qed.

Lemma extending_fopen_rb (E : env) (path : string) : extending (fopen_rb E path).
Proof.
  intros st. destruct (fopen_rb_keeps E path st) as (Hd & Hf & _ & _ & _ & Ht).
  split.
  - intros p. unfold on_disk. now rewrite Hd, Hf.
  - exists []. now rewrite app_nil_r.
Qed.

Lemma extending_rar_extract (E : env) (rar_path dest_path : string)
    (password : option string) (error_cb : bool) :
  extending (rar_extract E rar_path dest_path password error_cb).
Proof.
  unfold rar_extract, add_passphrases, archive_read_open_filename.
  apply extending_bind; [apply extending_fopen_rb|intros f].
  destruct f; simpl; [|extending_steps].
  apply extending_bind; [extending_steps|intros created].
  destruct (created =? 0); simpl; [|extending_steps].
  apply extending_bind; [extending_steps|intros a].
  destruct a; simpl; [|extending_steps].
  apply extending_bind; [extending_steps|intros _].
  apply extending_bind; [destruct (passphrases password); extending_steps|intros _].
  apply extending_bind; [extending_steps|intros ext].
  destruct ext; simpl; [|extending_steps].
  apply extending_bind; [extending_steps|intros _].
  apply extending_bind; [extending_steps|intros _].
  apply extending_bind; [extending_steps|intros r].
  destruct (r =? ARCHIVE_OK); simpl; [|extending_steps].
  apply extending_bind; [apply extending_extract_entries|intros left].
  destruct left as [[r' result]|]; extending_steps.
Qed.

Lemma option_events_silent :
  forall rar_path r,
    listed [SetOptions extract_flags; OpenFilename rar_path r] = [] /\
    reported [SetOptions extract_flags; OpenFilename rar_path r] = [] /\
    handed_to_writer [SetOptions extract_flags; OpenFilename rar_path r] = [] /\
    written [SetOptions extract_flags; OpenFilename rar_path r] = [].
Proof. intros. repeat split. Qed.

(** [rar_extract] in full: what it leaves alone, what it can return, what
    it has handed to the writer, and what a result of RAR_SUCCESS
    means. *)
Lemma rar_extract_summary (E : env) (rar_path dest_path : string)
    (password : option string) (error_cb : bool) (st : state) :
  let ar := reads E rar_path (passphrases password) in
  let run := rar_extract E rar_path dest_path password error_cb st in
  files (snd run) = files st /\
  exists t,
    trace (snd run) = trace st ++ t /\ listed t = [] /\
    (List.length (reported t) <= 1)%nat /\
    (exists k, handed_to_writer t =
               map (output_path E dest_path) (firstn k (headers ar))) /\
    match fst run with
    | None => True
    | Some result =>
        In result extract_codes /\
        (result = RAR_SUCCESS ->
         reported t = [] /\
         fst (fopen_rb E rar_path st) = true /\
         fst (create_directory_recursive E dest_path st) = 0 /\
         code (open_filename ar) = ARCHIVE_OK /\
         stop_code (headers ar) = ARCHIVE_EOF /\
         written t = map (output_path E dest_path) (leading_ok (headers ar)) /\
         forallb extracts_cleanly (leading_ok (headers ar)) = true)
    end.
Proof.
  intros ar run. subst run. unfold ar. clear ar.
  remember (reads E rar_path (passphrases password)) as ar eqn:Har.
  assert (Hk0 : forall t, handed_to_writer t = [] ->
                exists k, handed_to_writer t =
                          map (output_path E dest_path) (firstn k (headers ar))).
  { intros t Ht. exists O. now rewrite Ht. }
  destruct (fst (fopen_rb E rar_path st)) eqn:Hfo.
  2:{ rewrite rar_extract_no_file by assumption. cbn [fst snd files trace].
      split; [reflexivity|]. eexists. split; [reflexivity|].
      destruct error_cb; simpl;
        (split; [reflexivity|]); (split; [lia|]); (split; [first [now apply Hk0|now exists O]|]);
        (split; [unfold extract_codes, mapped_codes; simpl; tauto|discriminate]). }
  pose proof (fopen_rb_opened E rar_path st Hfo) as Hf.
  pose proof (create_directory_recursive_mkdirs_only E dest_path st)
    as (Hf1 & _ & _ & _ & t0 & Ht0 & Hm0).
  destruct (mkdirs_are_silent _ Hm0) as (L0 & H0 & W0 & R0).
  destruct (Z.eq_dec (fst (create_directory_recursive E dest_path st)) 0) as [Hc | Hc].
  2:{ rewrite rar_extract_no_directory by auto. simpl.
      split; [exact Hf1|]. eexists. split; [rewrite Ht0, <- app_assoc; reflexivity|].
      rewrite listed_app, reported_app, handed_to_writer_app, L0, R0, H0.
      destruct error_cb; simpl;
        (split; [reflexivity|]); (split; [lia|]); (split; [first [now apply Hk0|now exists O]|]);
        (split; [unfold extract_codes, mapped_codes; simpl; tauto|discriminate]). }
  destruct (heap E (allocs (snd (create_directory_recursive E dest_path st)))) eqn:Hh1.
  2:{ rewrite rar_extract_no_reader by auto. simpl.
      split; [exact Hf1|]. eexists. split; [rewrite Ht0, <- app_assoc; reflexivity|].
      rewrite listed_app, reported_app, handed_to_writer_app, L0, R0, H0.
      destruct error_cb; simpl;
        (split; [reflexivity|]); (split; [lia|]); (split; [first [now apply Hk0|now exists O]|]);
        (split; [unfold extract_codes, mapped_codes; simpl; tauto|discriminate]). }
  destruct (passphrase_events_silent password) as (Pl & Pr & Ph & Pw).
  destruct (heap E (S (allocs (snd (create_directory_recursive E dest_path st)))))
    eqn:Hh2.
  2:{ rewrite rar_extract_no_writer by auto. simpl.
      split; [exact Hf1|]. eexists. split; [rewrite Ht0, <- app_assoc; reflexivity|].
      rewrite !listed_app, !reported_app, !handed_to_writer_app.
      rewrite L0, R0, H0, Pl, Pr, Ph.
      destruct error_cb; simpl;
        (split; [reflexivity|]); (split; [lia|]); (split; [first [now apply Hk0|now exists O]|]);
        (split; [unfold extract_codes, mapped_codes; simpl; tauto|discriminate]). }
  rewrite rar_extract_opened by auto. rewrite <- Har.
  set (st2 := opened_for_extract ar rar_path password
                (snd (create_directory_recursive E dest_path st))).
  assert (Hf2 : files st2 = files st) by exact Hf1.
  assert (Ht2 : trace st2 =
                trace st ++ t0 ++ map AddPassphrase (passphrases password) ++
                [SetOptions extract_flags;
                 OpenFilename rar_path (code (open_filename ar))]).
  { unfold st2, opened_for_extract. simpl. rewrite Ht0. now rewrite <- app_assoc. }
  assert (Herr2 : rd_err st2 = after (open_filename ar)) by reflexivity.
  clearbody st2.
  destruct (option_events_silent rar_path (code (open_filename ar)))
    as (Ol & Or & Oh & Ow).
  destruct (code (open_filename ar) =? ARCHIVE_OK) eqn:Hopen; cbn [negb].
  2:{ rewrite map_archive_error_report. cbn [fst snd files trace].
      split; [exact Hf2|]. eexists.
      split; [rewrite Ht2, <- !app_assoc; reflexivity|].
      destruct (reported_error_report error_cb (err_str (rd_err st2)))
        as (Rr & Rl & Rh & Rw & _).
      rewrite !listed_app, !reported_app, !handed_to_writer_app.
      rewrite L0, R0, H0, Pl, Pr, Ph, Ol, Or, Oh, Rl, Rh. simpl.
      split; [reflexivity|]. split; [exact Rr|]. split; [first [now apply Hk0|now exists O]|].
      split; [right; right; apply classify_mapped|].
      intros H. now apply classify_not_success in H. }
  apply Z.eqb_eq in Hopen.
  destruct (extract_entries_summary E dest_path error_cb (headers ar) st2)
    as (Hf3 & t & k & Ht & Hl & Hr & Hh & Hcase).
  destruct (extract_entries E dest_path error_cb (headers ar) st2)
    as [[[r result]|] st3]; cbn [fst snd] in Hf3, Ht, Hcase.
  2:{ cbn [fst snd]. split; [congruence|]. eexists.
      split; [rewrite Ht, Ht2, <- !app_assoc; reflexivity|].
      rewrite !listed_app, !reported_app, !handed_to_writer_app.
      rewrite L0, R0, H0, Pl, Pr, Ph, Ol, Or, Oh, Hl, Hh. simpl.
      split; [reflexivity|]. split; [exact Hr|]. split; [now exists k|exact I]. }
  destruct Hcase as (Hin & Hok).
  destruct (negb (r =? ARCHIVE_EOF) && (result =? RAR_SUCCESS)) eqn:Hagain.
  - apply andb_true_iff in Hagain. destruct Hagain as [_ Hres].
    apply Z.eqb_eq in Hres. destruct (Hok Hres) as (_ & Hrep & _).
    rewrite map_archive_error_report. cbn [fst snd files trace].
    split; [congruence|]. eexists.
    split; [rewrite Ht, Ht2, <- !app_assoc; reflexivity|].
    destruct (reported_error_report error_cb (err_str (rd_err st3)))
      as (Rr & Rl & Rh & Rw & _).
    rewrite !listed_app, !reported_app, !handed_to_writer_app.
    rewrite L0, R0, H0, Pl, Pr, Ph, Ol, Or, Oh, Hl, Hh, Hrep, Rl, Rh. simpl.
    rewrite app_nil_r.
    split; [reflexivity|]. split; [exact Rr|]. split; [now exists k|].
    split; [right; right; apply classify_mapped|].
    intros H. now apply classify_not_success in H.
  - cbn [fst snd]. split; [congruence|]. eexists.
    split; [rewrite Ht, Ht2, <- !app_assoc; reflexivity|].
    rewrite !listed_app, !reported_app, !handed_to_writer_app, !written_app.
    rewrite L0, R0, H0, W0, Pl, Pr, Ph, Pw, Ol, Or, Oh, Ow, Hl, Hh. simpl.
    split; [reflexivity|]. split; [exact Hr|]. split; [now exists k|].
    split.
    + destruct Hin as [<- | Hin]; [now left|right; right; exact Hin].
    + intros Hres. destruct (Hok Hres) as (Hstop & Hrep & Hw & Hclean).
      subst result. rewrite Z.eqb_refl, andb_true_r in Hagain.
      apply negb_false_iff, Z.eqb_eq in Hagain.
      repeat split; auto. congruence.
Qed.

Lemma listing_events_are_silent (t : list event) :
  forallb is_listing_event t = true ->
  mkdir_calls t = [] /\ handed_to_writer t = [] /\ written t = [].
Proof.
  induction t as [|ev t IH]; simpl; [tauto|].
  intros H. apply andb_true_iff in H. destruct H as [Hev Ht].
  destruct ev; try discriminate Hev; simpl; now apply IH.
Qed.

Lemma extract_code_range (c : Z) :
  In c extract_codes -> c <> RAR_OPEN_ERROR /\ 0 <= c <= RAR_UNKNOWN_ERROR.
Proof.
  unfold extract_codes, mapped_codes. simpl. intros H.
  repeat (destruct H as [<- | H]; [split; [discriminate|vm_compute; split; discriminate]|]).
  destruct H.
Qed.

(** X14.  [rar_list] does not touch the disk: directories and files are
    as before, no [mkdir] is called and nothing is handed to a disk
    writer; all it causes is the registration of the passphrase, the
    opening of the archive and calls of the two callbacks. *)
Theorem rar_list_leaves_the_disk_alone (E : env) (rar_path : string)
    (password : option string) (list_cb error_cb : bool) (st : state) :
  let st' := snd (rar_list E rar_path password list_cb error_cb st) in
  dirs st' = dirs st /\ files st' = files st /\
  exists t, trace st' = trace st ++ t /\ forallb is_listing_event t = true /\
            mkdir_calls t = [] /\ handed_to_writer t = [].
Proof.
  intros st'. subst st'.
  destruct (rar_list_summary E rar_path password list_cb error_cb st)
    as (Hd & Hf & _ & _ & _ & t & Ht & Hev & _).
  repeat (split; [assumption|]).
  exists t. split; [exact Ht|]. split; [exact Hev|].
  destruct (listing_events_are_silent _ Hev) as (Hm & Hh & _). now split.
Qed.

(** X15.  What the two entry points return is always a defined code
    between 0 and 9, so [rar_get_error_message] has a message of its own
    for it; RAR_OPEN_ERROR is returned by neither, and RAR_CREATE_ERROR
    never by [rar_list]. *)
Theorem results_are_defined_codes (E : env) (rar_path dest_path : string)
    (password : option string) (list_cb error_cb : bool) (st : state) :
  let listing := fst (rar_list E rar_path password list_cb error_cb st) in
  (In listing list_codes /\ listing <> RAR_OPEN_ERROR /\ listing <> RAR_CREATE_ERROR /\
   rar_get_error_message listing = table_at listing) /\
  forall result,
    fst (rar_extract E rar_path dest_path password error_cb st) = Some result ->
    In result extract_codes /\ result <> RAR_OPEN_ERROR /\
    rar_get_error_message result = table_at result.
Proof.
  intros listing. subst listing. split.
  - destruct (rar_list_summary E rar_path password list_cb error_cb st)
      as (_ & _ & _ & Hin & _).
    split; [exact Hin|].
    assert (Hex : In (fst (rar_list E rar_path password list_cb error_cb st))
                     extract_codes).
    { destruct Hin as [<- | Hin]; [now left|right; right; exact Hin]. }
    destruct (extract_code_range _ Hex) as [Hno Hrange].
    split; [exact Hno|]. split; [|now apply message_of_defined].
    intros Heq. rewrite Heq in Hin. unfold list_codes, mapped_codes in Hin.
    simpl in Hin. repeat (destruct Hin as [Hin | Hin]; [discriminate Hin|]).
    exact Hin.
  - intros result Hres.
    destruct (rar_extract_summary E rar_path dest_path password error_cb st)
      as (_ & t & _ & _ & _ & _ & Hcase).
    rewrite Hres in Hcase. destruct Hcase as [Hin _].
    destruct (extract_code_range _ Hin) as [Hno Hrange].
    split; [exact Hin|]. split; [exact Hno|now apply message_of_defined].
Qed.

Lemma results_are_defined_codes_witness :
  let E := simple_env (fun _ => crc_fails) in
  rar_get_error_message 8 = "Data error in archive (CRC check failed)".
Proof.
  intros E.
  destruct (results_are_defined_codes E "x.rar" "out" None true true (start ["x.rar"]))
    as (_ & Hextract).
  destruct (Hextract 8) as (_ & _ & Hmsg); [reflexivity|].
  rewrite Hmsg. reflexivity.
Defined.

(** X16.  The error callback is called at most once in a call of
    [rar_list] or [rar_extract], and not at all when the call returns
    RAR_SUCCESS. *)
Theorem error_is_reported_at_most_once (E : env) (rar_path dest_path : string)
    (password : option string) (list_cb error_cb : bool) (st : state) :
  let listing := rar_list E rar_path password list_cb error_cb st in
  let extraction := rar_extract E rar_path dest_path password error_cb st in
  (exists t, trace (snd listing) = trace st ++ t /\
             (List.length (reported t) <= 1)%nat /\
             (fst listing = RAR_SUCCESS -> reported t = [])) /\
  (exists t, trace (snd extraction) = trace st ++ t /\
             (List.length (reported t) <= 1)%nat /\
             (fst extraction = Some RAR_SUCCESS -> reported t = [])).
Proof.
  intros listing extraction. subst listing extraction. split.
  - destruct (rar_list_summary E rar_path password list_cb error_cb st)
      as (_ & _ & _ & _ & _ & t & Ht & _ & Hr & _ & Hok).
    exists t. split; [exact Ht|]. split; [exact Hr|].
    intros H. now apply Hok.
  - destruct (rar_extract_summary E rar_path dest_path password error_cb st)
      as (_ & t & Ht & _ & Hr & _ & Hcase).
    exists t. split; [exact Ht|]. split; [exact Hr|].
    intros H. rewrite H in Hcase. now apply Hcase.
Qed.

Lemma error_is_reported_at_most_once_witness :
  let E := simple_env (fun _ => Archive fine [plain "a"]) in
  let st := start ["x.rar"] in
  (exists t, trace (snd (rar_list E "x.rar" None true true st)) = trace st ++ t /\
             reported t = []) /\
  (exists t, trace (snd (rar_extract E "x.rar" "out" None true st)) = trace st ++ t /\
             reported t = []).
Proof.
  intros E st.
  destruct (error_is_reported_at_most_once E "x.rar" "out" None true true st)
    as ((tl & Htl & _ & Hl) & (te & Hte & _ & He)).
  split; [exists tl|exists te]; (split; [assumption|]);
    [apply Hl|apply He]; reflexivity.
Defined.

(** X17.  [rar_list] returns RAR_SUCCESS exactly when [fopen] opens the
    file, the reader is allocated, the archive opens and the walk through
    the headers ends with ARCHIVE_EOF; and then the listing callback, if
    there is one, has received the pathname of every entry read on the
    way, in order. *)
Theorem rar_list_success (E : env) (rar_path : string)
    (password : option string) (list_cb error_cb : bool) (st : state) :
  let ar := reads E rar_path (passphrases password) in
  let listing := rar_list E rar_path password list_cb error_cb st in
  (fst listing = RAR_SUCCESS <->
   fst (fopen_rb E rar_path st) = true /\ heap E (allocs st) = true /\
   code (open_filename ar) = ARCHIVE_OK /\ stop_code (headers ar) = ARCHIVE_EOF) /\
  (fst listing = RAR_SUCCESS ->
   exists t, trace (snd listing) = trace st ++ t /\
             listed t = if list_cb then delivered (leading_ok (headers ar)) else []).
Proof.
  intros ar listing. subst listing.
  destruct (rar_list_summary E rar_path password list_cb error_cb st)
    as (_ & _ & _ & _ & Hiff & t & Ht & _ & _ & _ & Hok).
  split; [exact Hiff|].
  intros H. exists t. split; [exact Ht|]. now apply Hok.
Qed.

Lemma rar_list_success_witness :
  let early_end := Header (Outcome ARCHIVE_EOF no_error) (Entry None 0 fine fine [] fine) in
  let E := simple_env (fun _ => Archive fine [plain "a"; early_end; plain "never"]) in
  let listing := rar_list E "x.rar" None true false (start ["x.rar"]) in
  fst listing = RAR_SUCCESS /\
  exists t, trace (snd listing) = [] ++ t /\ listed t = ["a"].
Proof.
  intros early_end E listing.
  destruct (rar_list_success E "x.rar" None true false (start ["x.rar"]))
    as (Hiff & Hok).
  assert (Hs : fst listing = RAR_SUCCESS) by (apply Hiff; repeat split).
  split; [exact Hs|]. now apply Hok.
Defined.

(** X18.  A result of RAR_SUCCESS from [rar_extract] means that the
    whole archive was extracted: [fopen] opened the file, the destination
    was created, the archive opened, the walk through the headers ended
    with ARCHIVE_EOF, and every entry read on the way was written to the
    disk writer without a failing step, each under its output path, in
    the order of the archive. *)
Theorem rar_extract_success_means_all_written (E : env)
    (rar_path dest_path : string) (password : option string) (error_cb : bool)
    (st : state) :
  let ar := reads E rar_path (passphrases password) in
  let extraction := rar_extract E rar_path dest_path password error_cb st in
  fst extraction = Some RAR_SUCCESS ->
  fst (fopen_rb E rar_path st) = true /\
  fst (create_directory_recursive E dest_path st) = 0 /\
  code (open_filename ar) = ARCHIVE_OK /\
  stop_code (headers ar) = ARCHIVE_EOF /\
  forallb extracts_cleanly (leading_ok (headers ar)) = true /\
  exists t, trace (snd extraction) = trace st ++ t /\
            written t = map (output_path E dest_path) (leading_ok (headers ar)).
Proof.
  intros ar extraction Hres. subst extraction.
  destruct (rar_extract_summary E rar_path dest_path password error_cb st)
    as (_ & t & Ht & _ & _ & _ & Hcase).
  rewrite Hres in Hcase. destruct Hcase as [_ Hok].
  destruct (Hok eq_refl) as (_ & Hf & Hc & Hopen & Hstop & Hw & Hclean).
  repeat (split; [assumption|]).
  exists t. now split.
Qed.

Lemma rar_extract_success_means_all_written_witness :
  let E := simple_env (fun _ => Archive fine [plain "a"; plain "d/b"]) in
  let extraction := rar_extract E "x.rar" "out" None false (start ["x.rar"]) in
  exists t, trace (snd extraction) = [] ++ t /\ written t = ["out/a"; "out/d/b"].
Proof.
  intros E extraction.
  destruct (rar_extract_success_means_all_written E "x.rar" "out" None false
              (start ["x.rar"]))
    as (_ & _ & _ & _ & _ & Hw); [reflexivity|].
  exact Hw.
Defined.

(** X19.  Whatever happens, the entries [rar_extract] hands to the disk
    writer are a leading run of the archive's entries, each under the
    destination, the separator and its own pathname, in the order of the
    archive and none of them twice; and [rar_extract] never lists. *)
Theorem rar_extract_hands_over_in_order (E : env) (rar_path dest_path : string)
    (password : option string) (error_cb : bool) (st : state) :
  let ar := reads E rar_path (passphrases password) in
  let extraction := rar_extract E rar_path dest_path password error_cb st in
  exists t k,
    trace (snd extraction) = trace st ++ t /\
    handed_to_writer t = map (output_path E dest_path) (firstn k (headers ar)) /\
    listed t = [].
Proof.
  intros ar extraction. subst extraction.
  destruct (rar_extract_summary E rar_path dest_path password error_cb st)
    as (_ & t & Ht & Hl & _ & (k & Hk) & _).
  now exists t, k.
Qed.

(** X20.  When [fopen] does not open the archive file (nothing is at the
    path, or the system does not let it be opened), both entry points
    return RAR_FILE_NOT_FOUND at once: the error callback, if there is
    one, is told "RAR file not found", and nothing else happens, no
    allocation, no [mkdir] (so [rar_extract] creates no destination
    directory) and no call into libarchive.  The two calls end in the
    same state, which differs from the one they started in by that
    report and by the [errno] that [fopen] left. *)
Theorem missing_file_is_reported_at_once (E : env) (rar_path dest_path : string)
    (password : option string) (list_cb error_cb : bool) (st : state) :
  fst (fopen_rb E rar_path st) = false ->
  let listing := rar_list E rar_path password list_cb error_cb st in
  let extraction := rar_extract E rar_path dest_path password error_cb st in
  fst listing = RAR_FILE_NOT_FOUND /\
  fst extraction = Some RAR_FILE_NOT_FOUND /\
  snd extraction = snd listing /\
  trace (snd listing) =
  trace st ++ (if error_cb then [ErrorCb "RAR file not found"] else []) /\
  dirs (snd listing) = dirs st /\ files (snd listing) = files st /\
  allocs (snd listing) = allocs st /\
  rd_err (snd listing) = rd_err st /\ wr_err (snd listing) = wr_err st.
Proof.
  intros Hf listing extraction. subst listing extraction.
  rewrite rar_list_no_file, rar_extract_no_file by assumption.
  cbn [fst snd dirs files allocs rd_err wr_err trace].
  repeat split.
Qed.

Lemma missing_file_is_reported_at_once_witness :
  let E := simple_env (fun _ => Archive fine [plain "a"]) in
  let st := State ["out"] ["x.rar"] 0 O no_error no_error [] in
  fst (rar_extract E "gone.rar" "out" None true st) = Some RAR_FILE_NOT_FOUND /\
  trace (snd (rar_list E "gone.rar" None true true st)) =
  [ErrorCb "RAR file not found"] /\
  dirs (snd (rar_list E "gone.rar" None true true st)) = ["out"].
Proof.
  intros E st.
  destruct (missing_file_is_reported_at_once E "gone.rar" "out" None true true st)
    as (_ & He & _ & Ht & Hd & _); [reflexivity|].
  split; [exact He|]. split; [exact Ht|exact Hd].
Defined.

(** A directory given as the archive: where [fopen] opens directories
    the call goes on to libarchive, which cannot read it, and the code
    returned is that of the reader's error; on Windows [fopen] fails and
    the code is RAR_FILE_NOT_FOUND. *)
Example directory_as_archive :
  let unreadable :=
    Archive (Outcome ARCHIVE_FATAL (LibError 21 (Some "Error reading 'd'"))) [] in
  let st := State ["d"] [] 0 O no_error no_error [] in
  fst (rar_list (Env false (fun _ => true) (fun _ _ => None) (fun _ _ => unreadable))
         "d" None true true st) = RAR_UNKNOWN_ERROR /\
  fst (rar_list (Env true (fun _ => true) (fun _ _ => None) (fun _ _ => unreadable))
         "d" None true true st) = RAR_FILE_NOT_FOUND.
Proof. split; reflexivity. Qed.

(** ** The directories the extraction makes *)

Lemma on_the_way_further (E : env) (path q p : string) :
  on_the_way_to E path q -> on_the_way_to E q p -> on_the_way_to E path p.
Proof.
  intros [-> | (c & rest & Hc & ->)] [-> | (c' & rest' & Hc' & ->)].
  - now left.
  - right. now exists c', rest'.
  - right. now exists c, rest.
  - right. exists c', (rest' +++ String c rest). split; [exact Hc'|].
    now rewrite append_assoc.
Qed.

Lemma mkdirs_within_ret {A} (P : string -> Prop) (a : A) : mkdirs_within P (ret a).
Proof. intros st. exists []. rewrite app_nil_r. split; [reflexivity|intros p []]. Qed.

Lemma mkdirs_within_bind {A B} (P : string -> Prop) (c : M A) (k : A -> M B) :
  mkdirs_within P c -> (forall a, mkdirs_within P (k a)) -> mkdirs_within P (bind c k).
Proof.
  intros Hc Hk st. unfold bind.
  destruct (Hc st) as (t1 & T1 & P1). destruct (c st) as [a st1]. simpl in T1.
  destruct (Hk a st1) as (t2 & T2 & P2).
  exists (t1 ++ t2). split.
  - rewrite T2, T1. now rewrite app_assoc.
  - intros p Hin. rewrite mkdir_calls_app in Hin. apply in_app_or in Hin.
    destruct Hin; auto.
Qed.

Lemma mkdirs_within_wider {A} (P Q : string -> Prop) (c : M A) :
  (forall p, P p -> Q p) -> mkdirs_within P c -> mkdirs_within Q c.
Proof.
  intros HPQ Hc st. destruct (Hc st) as (t & T & HP). exists t. split; auto.
Qed.

Lemma mkdirs_within_emit (P : string -> Prop) (ev : event) :
  is_mkdir ev = false -> mkdirs_within P (emit ev).
Proof.
  intros Hev st. exists [ev]. split; [reflexivity|].
  destruct ev; try discriminate Hev; intros p [].
Qed.

Lemma mkdirs_within_call (P : string -> Prop) (cb : bool) (ev : event) :
  is_mkdir ev = false -> mkdirs_within P (call cb ev).
Proof.
  intros H. destruct cb; [now apply mkdirs_within_emit|apply mkdirs_within_ret].
Qed.

Lemma mkdirs_within_set_error (P : string -> Prop) (a : handle) (e : lib_error) :
  mkdirs_within P (set_error a e).
Proof.
  intros st. exists []. split; [|intros p []].
  destruct a; simpl; now rewrite app_nil_r.
Qed.

Lemma mkdirs_within_alloc (P : string -> Prop) (E : env) : mkdirs_within P (alloc E).
Proof. intros st. exists []. split; [|intros p []]. simpl. now rewrite app_nil_r. Qed.

Lemma mkdirs_within_fopen_rb (P : string -> Prop) (E : env) (path : string) :
  mkdirs_within P (fopen_rb E path).
Proof.
  intros st. exists []. rewrite app_nil_r. split; [|intros p []].
  apply (fopen_rb_keeps E path st).
Qed.

Lemma mkdirs_within_map_archive_error (P : string -> Prop) (a : handle)
    (error_cb : bool) :
  mkdirs_within P (map_archive_error a error_cb).
Proof.
  intros st. rewrite map_archive_error_report. simpl.
  eexists. split; [reflexivity|].
  destruct (reported_error_report error_cb
              (err_str match a with Reader => rd_err st | Writer => wr_err st end))
    as (_ & _ & _ & _ & Hm & _).
  rewrite Hm. intros p [].
Qed.

Lemma mkdirs_within_copy_data (P : string -> Prop) (blocks : list (outcome * outcome)) :
  mkdirs_within P (copy_data blocks).
Proof.
  induction blocks as [|[rd wr] rest IH]; simpl; [apply mkdirs_within_ret|].
  apply mkdirs_within_bind; [apply mkdirs_within_set_error|intros _].
  destruct (code rd =? ARCHIVE_EOF); [apply mkdirs_within_ret|].
  destruct (code rd =? ARCHIVE_OK); simpl; [|apply mkdirs_within_ret].
  apply mkdirs_within_bind; [apply mkdirs_within_set_error|intros _].
  apply mkdirs_within_bind; [now apply mkdirs_within_emit|intros _].
  destruct (code wr =? ARCHIVE_OK); simpl; [exact IH|apply mkdirs_within_ret].
Qed.

Lemma mkdirs_within_create_directory_recursive (E : env) (path : string) :
  mkdirs_within (on_the_way_to E path) (create_directory_recursive E path).
Proof.
  intros st. destruct (heap E (allocs st)) eqn:Hh.
  - destruct (create_directory_recursive_calls E path st Hh) as (t & Ht & _ & Hcalls).
    exists t. split; [exact Ht|]. intros p Hin. rewrite Hcalls in Hin.
    apply in_app_or in Hin. destruct Hin as [Hin | [<- | []]]; [right|now left].
    now apply parent_paths_spec.
  - exists []. rewrite app_nil_r. split; [|intros p []].
    unfold create_directory_recursive, bind, alloc. simpl. now rewrite Hh.
Qed.

(** What [get_parent_directory] returns is on the way to the path, and
    it makes no call. *)
Lemma get_parent_directory_on_the_way (E : env) (path : string) (st : state) :
  trace (snd (get_parent_directory E path st)) = trace st /\
  forall q, fst (get_parent_directory E path st) = Some q -> on_the_way_to E path q.
Proof.
  split.
  - unfold get_parent_directory, bind, alloc. simpl.
    now destruct (heap E (allocs st)).
  - destruct (heap E (allocs st)) eqn:Hh.
    + destruct (get_parent_directory_parts E path st Hh)
        as (parent & rest & Hrun & Hpath & Hrest & _).
      intros q Hq. rewrite Hrun in Hq. inversion Hq; subst q.
      destruct Hrest as [-> | (c & r & -> & Hc)].
      * left. now rewrite append_nil_r in Hpath.
      * right. now exists c, r.
    + unfold get_parent_directory, bind, alloc. simpl. rewrite Hh. discriminate.
Qed.

Ltac mkdirs_within_steps :=
  repeat first
    [ apply mkdirs_within_ret
    | apply mkdirs_within_emit; reflexivity
    | apply mkdirs_within_call; reflexivity
    | apply mkdirs_within_set_error
    | apply mkdirs_within_alloc
    | apply mkdirs_within_fopen_rb
    | apply mkdirs_within_map_archive_error
    | apply mkdirs_within_copy_data
    | apply mkdirs_within_bind; [|intros ?]
    | match goal with
      | |- mkdirs_within _ (if ?b then _ else _) => destruct b
      | |- mkdirs_within _ (match ?o with Some _ => _ | None => _ end) => destruct o
      | |- mkdirs_within _ (match ?o with [] => _ | _ :: _ => _ end) => destruct o
      end ].

Lemma mkdirs_within_extract_entry (E : env) (dest_path : string) (error_cb : bool)
    (r0 : Z) (h : header) :
  mkdirs_within (on_the_way_to E (output_path E dest_path h))
                (extract_entry E dest_path error_cb r0 (hdr_entry h)).
Proof.
  unfold extract_entry, output_path, name_of.
  destruct (pathname (hdr_entry h)) as [name|]; [|apply mkdirs_within_ret].
  apply mkdirs_within_bind; [apply mkdirs_within_alloc|intros ok].
  destruct ok; simpl; [|mkdirs_within_steps].
  set (full_path := dest_path +++ String (PATH_SEP E) name).
  intros st. unfold bind at 1.
  destruct (get_parent_directory_on_the_way E full_path st) as [Ht Hq].
  destruct (get_parent_directory E full_path st) as [parent s1]. simpl in Ht, Hq.
  assert (Hrest : mkdirs_within (on_the_way_to E full_path)
            (match parent with
             | Some p => create_directory_recursive E p ;;; ret tt
             | None => ret tt
             end ;;;
             r <- archive_write_header full_path (hdr_entry h) ;;
             if negb (r =? ARCHIVE_OK) then
               result <- map_archive_error Writer error_cb ;; ret (Some (inl (r, result)))
             else
             r <- (if size (hdr_entry h) >? 0 then copy_data (data_blocks (hdr_entry h)) else ret r) ;;
             if negb (r =? ARCHIVE_OK) then
               result <- map_archive_error Reader error_cb ;; ret (Some (inl (r, result)))
             else
             r <- archive_write_finish_entry (hdr_entry h) ;;
             if negb (r =? ARCHIVE_OK) then
               result <- map_archive_error Writer error_cb ;; ret (Some (inl (r, result)))
             else ret (Some (inr tt)))).
  { unfold archive_write_header, archive_write_finish_entry.
    apply mkdirs_within_bind; [|intros _; mkdirs_within_steps].
    destruct parent as [q|]; [|apply mkdirs_within_ret].
    apply mkdirs_within_bind; [|intros _; apply mkdirs_within_ret].
    apply (mkdirs_within_wider (on_the_way_to E q)).
    - intros p. apply on_the_way_further. now apply Hq.
    - apply mkdirs_within_create_directory_recursive. }
  destruct (Hrest s1) as (t & Htr & Hin). exists t. split; [|exact Hin].
  now rewrite Htr, Ht.
Qed.

Lemma mkdirs_within_extract_entries (E : env) (dest_path : string) (error_cb : bool)
    (hs : list header) :
  mkdirs_within (fun p => exists h, In h hs /\
                                    on_the_way_to E (output_path E dest_path h) p)
                (extract_entries E dest_path error_cb hs).
Proof.
  induction hs as [|h hs IH]; simpl; [apply mkdirs_within_ret|].
  apply mkdirs_within_bind; [apply mkdirs_within_set_error|intros _].
  destruct (code (next_header h) =? ARCHIVE_OK); simpl; [|apply mkdirs_within_ret].
  apply mkdirs_within_bind.
  - apply (mkdirs_within_wider (on_the_way_to E (output_path E dest_path h))).
    + intros p Hp. exists h. split; [now left|exact Hp].
    + apply mkdirs_within_extract_entry.
  - intros left.
    destruct left as [[rr | u]|]; [apply mkdirs_within_ret| |apply mkdirs_within_ret].
    apply (mkdirs_within_wider
             (fun p => exists h, In h hs /\
                                 on_the_way_to E (output_path E dest_path h) p));
      [|exact IH].
    intros p (h' & Hin & Hp). exists h'. split; [now right|exact Hp].
Qed.

(** X21.  The directories [rar_extract] makes itself.  Every [mkdir]
    call of a run, whatever the archive holds and however the run ends,
    is on the destination path or on a part of it that ends just before
    one of its separators, or on the output path of an entry of the
    archive or on a part of that path that ends just before one of its
    separators.  (What the disk writer creates for the entries handed to
    it is libarchive's doing and is not in question here.) *)
Theorem rar_extract_makes_directories_on_the_way (E : env)
    (rar_path dest_path : string) (password : option string) (error_cb : bool)
    (st : state) :
  let ar := reads E rar_path (passphrases password) in
  let extraction := rar_extract E rar_path dest_path password error_cb st in
  exists t,
    trace (snd extraction) = trace st ++ t /\
    forall p, In p (mkdir_calls t) ->
              on_the_way_to E dest_path p \/
              exists h, In h (headers ar) /\
                        on_the_way_to E (output_path E dest_path h) p.
Proof.
  intros ar extraction. subst extraction.
  assert (Hall : mkdirs_within
                   (fun p => on_the_way_to E dest_path p \/
                             exists h, In h (headers ar) /\
                                       on_the_way_to E (output_path E dest_path h) p)
                   (rar_extract E rar_path dest_path password error_cb)).
  { unfold rar_extract, add_passphrases, archive_read_open_filename. fold ar.
    apply mkdirs_within_bind; [apply mkdirs_within_fopen_rb|intros f].
    destruct f; simpl; [|mkdirs_within_steps].
    apply mkdirs_within_bind.
    { apply (mkdirs_within_wider (on_the_way_to E dest_path)); [now left|].
      apply mkdirs_within_create_directory_recursive. }
    intros created.
    destruct (created =? 0); simpl; [|mkdirs_within_steps].
    apply mkdirs_within_bind; [mkdirs_within_steps|intros a].
    destruct a; simpl; [|mkdirs_within_steps].
    apply mkdirs_within_bind; [mkdirs_within_steps|intros _].
    apply mkdirs_within_bind; [mkdirs_within_steps|intros _].
    apply mkdirs_within_bind; [mkdirs_within_steps|intros ext].
    destruct ext; simpl; [|mkdirs_within_steps].
    apply mkdirs_within_bind; [mkdirs_within_steps|intros _].
    apply mkdirs_within_bind; [mkdirs_within_steps|intros _].
    apply mkdirs_within_bind; [mkdirs_within_steps|intros r].
    destruct (r =? ARCHIVE_OK); simpl; [|mkdirs_within_steps].
    apply mkdirs_within_bind.
    { apply (mkdirs_within_wider
               (fun p => exists h, In h (headers ar) /\
                                   on_the_way_to E (output_path E dest_path h) p));
        [now right|].
      apply mkdirs_within_extract_entries. }
    intros left. destruct left as [[r' result]|]; mkdirs_within_steps. }
  apply Hall.
Qed.

Lemma nonempty_passphrase (p : string) : p <> "" -> passphrases (Some p) = [p].
Proof.
  intros Hp. unfold passphrases, strlen.
  destruct p as [|c p]; [contradiction|]. reflexivity.
Qed.



(** X23.  A password that is not empty is registered with the reader
    exactly once, before the archive is opened, and the reader is asked
    for the archive with exactly that passphrase: in [rar_list] the
    registration is the first thing that happens, in [rar_extract] it
    comes right after the creation of the destination directory, and no
    other registration follows. *)
Theorem password_is_registered_once_before_the_open (E : env)
    (rar_path dest_path p : string) (list_cb error_cb : bool) (st : state) :
  p <> "" ->
  existsb (String.eqb rar_path) (files st) = true ->
  let ar := reads E rar_path [p] in
  let st1 := snd (create_directory_recursive E dest_path st) in
  (heap E (allocs st) = true ->
   exists t,
     trace (snd (rar_list E rar_path (Some p) list_cb error_cb st)) =
     trace st ++ [AddPassphrase p; OpenFilename rar_path (code (open_filename ar))] ++ t /\
     forallb not_a_passphrase t = true) /\
  (fst (create_directory_recursive E dest_path st) = 0 ->
   heap E (allocs st1) = true -> heap E (S (allocs st1)) = true ->
   exists t,
     trace (snd (rar_extract E rar_path dest_path (Some p) error_cb st)) =
     trace st1 ++ [AddPassphrase p; SetOptions extract_flags;
                   OpenFilename rar_path (code (open_filename ar))] ++ t /\
     forallb not_a_passphrase t = true).
Proof.
  intros Hp Hf ar st1.
  pose proof (nonempty_passphrase p Hp) as Hpass.
  split.
  - intros Hh. rewrite rar_list_opened by auto. rewrite Hpass. fold ar.
    set (st2 := opened_for_list ar rar_path (Some p) st).
    assert (Ht2 : trace st2 =
                  trace st ++ [AddPassphrase p;
                               OpenFilename rar_path (code (open_filename ar))]).
    { unfold st2, opened_for_list. now rewrite Hpass. }
    clearbody st2.
    destruct (code (open_filename ar) =? ARCHIVE_OK); cbn [negb].
    + destruct (registers_nothing_list_entries list_cb (headers ar) st2)
        as (t & Ht & Hn).
      destruct (list_entries list_cb (headers ar) st2) as [r st3]. cbn [snd] in Ht.
      destruct (negb (r =? ARCHIVE_EOF)).
      * destruct (registers_nothing_map_archive_error Reader error_cb st3)
          as (t' & Ht' & Hn').
        exists (t ++ t'). split; [|now rewrite forallb_app, Hn, Hn'].
        rewrite Ht', Ht, Ht2. now rewrite <- !app_assoc.
      * exists t. split; [|exact Hn]. cbn [snd]. rewrite Ht, Ht2.
        now rewrite <- !app_assoc.
    + destruct (registers_nothing_map_archive_error Reader error_cb st2)
        as (t' & Ht' & Hn').
      exists t'. split; [|exact Hn']. rewrite Ht', Ht2. now rewrite <- !app_assoc.
  - intros Hc Hh1 Hh2. rewrite rar_extract_opened by auto.
    rewrite Hpass. fold ar. fold st1.
    set (st2 := opened_for_extract ar rar_path (Some p) st1).
    assert (Ht2 : trace st2 =
                  trace st1 ++ [AddPassphrase p; SetOptions extract_flags;
                                OpenFilename rar_path (code (open_filename ar))]).
    { unfold st2, opened_for_extract. now rewrite Hpass. }
    clearbody st2.
    destruct (code (open_filename ar) =? ARCHIVE_OK); cbn [negb].
    + destruct (registers_nothing_extract_entries E dest_path error_cb (headers ar) st2)
        as (t & Ht & Hn).
      destruct (extract_entries E dest_path error_cb (headers ar) st2)
        as [[[r result]|] st3]; cbn [snd] in Ht.
      * destruct (negb (r =? ARCHIVE_EOF) && (result =? RAR_SUCCESS)).
        -- destruct (registers_nothing_map_archive_error Reader error_cb st3)
             as (t' & Ht' & Hn').
           destruct (map_archive_error Reader error_cb st3) as [result' st4].
           cbn [snd] in *.
           exists (t ++ t'). split; [|now rewrite forallb_app, Hn, Hn'].
           rewrite Ht', Ht, Ht2. now rewrite <- !app_assoc.
        -- exists t. split; [|exact Hn]. cbn [snd]. rewrite Ht, Ht2.
           now rewrite <- !app_assoc.
      * exists t. split; [|exact Hn]. cbn [snd]. rewrite Ht, Ht2.
        now rewrite <- !app_assoc.
    + destruct (registers_nothing_map_archive_error Reader error_cb st2)
        as (t' & Ht' & Hn').
      destruct (map_archive_error Reader error_cb st2) as [result' st4].
      cbn [snd] in *.
      exists t'. split; [|exact Hn']. rewrite Ht', Ht2. now rewrite <- !app_assoc.
Qed.

Lemma password_is_registered_once_before_the_open_witness :
  let E := simple_env locked in
  exists t,
    trace (snd (rar_list E "x.rar" (Some "secret") true true (start ["x.rar"]))) =
    [] ++ [AddPassphrase "secret"; OpenFilename "x.rar" ARCHIVE_OK] ++ t /\
    forallb not_a_passphrase t = true.
Proof.
  intros E.
  destruct (password_is_registered_once_before_the_open E "x.rar" "out" "secret"
              true true (start ["x.rar"])) as (Hlist & _);
    [discriminate|reflexivity|].
  apply Hlist. reflexivity.
Defined.

(** ** The callbacks only observe *)

Lemma library_calls_app (a b : list event) :
  library_calls (a ++ b) = library_calls a ++ library_calls b.
Proof. apply filter_app. Qed.

Lemma alike_ret {A} (a : A) : alike (ret a) (ret a).
Proof. intros s s' H. now split. Qed.

Lemma alike_bind {A B} (c c' : M A) (k k' : A -> M B) :
  alike c c' -> (forall a, alike (k a) (k' a)) -> alike (bind c k) (bind c' k').
Proof.
  intros Hc Hk s s' Hs. unfold bind.
  destruct (Hc s s' Hs) as [Hv Hs1].
  destruct (c s) as [a s1], (c' s') as [a' s1']. simpl in Hv, Hs1. subst a'.
  now apply Hk.
Qed.

Lemma alike_emit (ev : event) : alike (emit ev) (emit ev).
Proof.
  intros s s' (Hd & Hf & He & Ha & Hr & Hw & Ht). split; [reflexivity|].
  unfold same_but_callbacks. simpl. rewrite !library_calls_app, Ht.
  repeat split; assumption.
Qed.

Lemma alike_call (cb cb' : bool) (ev : event) :
  is_callback ev = true -> alike (call cb ev) (call cb' ev).
Proof.
  intros Hev s s' (Hd & Hf & He & Ha & Hr & Hw & Ht). split; [now destruct cb, cb'|].
  assert (Hnone : library_calls [ev] = []) by (unfold library_calls; simpl; now rewrite Hev).
  unfold same_but_callbacks.
  destruct cb, cb'; simpl; rewrite ?library_calls_app, ?Hnone, ?app_nil_r;
    repeat split; assumption.
Qed.

Lemma alike_set_error (a : handle) (e : lib_error) : alike (set_error a e) (set_error a e).
Proof.
  intros s s' (Hd & Hf & He & Ha & Hr & Hw & Ht). split; [reflexivity|].
  unfold same_but_callbacks. destruct a; simpl; repeat split; assumption.
Qed.

Lemma alike_get_error (a : handle) : alike (get_error a) (get_error a).
Proof.
  intros s s' Hs. pose proof Hs as (Hd & Hf & He & Ha & Hr & Hw & Ht).
  split; [destruct a; simpl; assumption|exact Hs].
Qed.

Lemma alike_alloc (E : env) : alike (alloc E) (alloc E).
Proof.
  intros s s' (Hd & Hf & He & Ha & Hr & Hw & Ht). unfold alloc. simpl.
  split; [now rewrite Ha|].
  unfold same_but_callbacks. simpl. rewrite Ha. repeat split; assumption.
Qed.

Lemma alike_fopen_rb (E : env) (path : string) :
  alike (fopen_rb E path) (fopen_rb E path).
Proof.
  intros s s' (Hd & Hf & He & Ha & Hr & Hw & Ht). unfold fopen_rb.
  rewrite <- Hd, <- Hf.
  destruct (existsb (String.eqb path) (files s));
    [|destruct (existsb (String.eqb path) (dirs s)); [destruct (win32 E)|]]; simpl;
    (split; [reflexivity|]); unfold same_but_callbacks; simpl;
    repeat split; assumption.
Qed.

Lemma alike_mkdir (E : env) (p : string) : alike (mkdir E p) (mkdir E p).
Proof.
  intros s s' (Hd & Hf & He & Ha & Hr & Hw & Ht). unfold mkdir.
  rewrite <- Hd, <- Hf.
  destruct (existsb (String.eqb p) (files s));
    [|destruct (refuses E (dirs s) p);
      [|destruct (existsb (String.eqb p) (dirs s))]]; simpl;
    (split; [reflexivity|]); unfold same_but_callbacks; simpl;
    rewrite !library_calls_app, Ht, ?Hd; repeat split; assumption.
Qed.

Lemma alike_create_parents (E : env) (ahead behind : string) :
  alike (create_parents E behind ahead) (create_parents E behind ahead).
Proof.
  revert behind. induction ahead as [|x rest IH]; intros behind; simpl.
  - apply alike_ret.
  - destruct (is_separator E x); [|apply IH].
    apply alike_bind; [apply alike_mkdir|intros _; apply IH].
Qed.

Lemma alike_create_directory_recursive (E : env) (path : string) :
  alike (create_directory_recursive E path) (create_directory_recursive E path).
Proof.
  unfold create_directory_recursive.
  apply alike_bind; [apply alike_alloc|intros ok].
  destruct ok; simpl; [|apply alike_ret].
  apply alike_bind; [apply alike_create_parents|intros _].
  apply alike_bind; [apply alike_mkdir|intros r].
  intros s s' Hs. pose proof Hs as (_ & _ & He & _). simpl.
  split; [now rewrite He|exact Hs].
Qed.

Lemma alike_get_parent_directory (E : env) (path : string) :
  alike (get_parent_directory E path) (get_parent_directory E path).
Proof.
  unfold get_parent_directory.
  apply alike_bind; [apply alike_alloc|intros ok].
  destruct ok; simpl; apply alike_ret.
Qed.

Lemma alike_copy_data (blocks : list (outcome * outcome)) :
  alike (copy_data blocks) (copy_data blocks).
Proof.
  induction blocks as [|[rd wr] rest IH]; simpl; [apply alike_ret|].
  apply alike_bind; [apply alike_set_error|intros _].
  destruct (code rd =? ARCHIVE_EOF); [apply alike_ret|].
  destruct (code rd =? ARCHIVE_OK); simpl; [|apply alike_ret].
  apply alike_bind; [apply alike_set_error|intros _].
  apply alike_bind; [apply alike_emit|intros _].
  destruct (code wr =? ARCHIVE_OK); simpl; [exact IH|apply alike_ret].
Qed.

Lemma alike_map_archive_error (a : handle) (cb cb' : bool) :
  alike (map_archive_error a cb) (map_archive_error a cb').
Proof.
  unfold map_archive_error.
  apply alike_bind; [apply alike_get_error|intros e].
  apply alike_bind; [|intros _; apply alike_ret].
  destruct (err_str e); [now apply alike_call|apply alike_ret].
Qed.

Ltac alike_steps :=
  repeat first
    [ apply alike_ret
    | apply alike_emit
    | apply alike_call; reflexivity
    | apply alike_set_error
    | apply alike_alloc
    | apply alike_fopen_rb
    | apply alike_create_directory_recursive
    | apply alike_get_parent_directory
    | apply alike_map_archive_error
    | apply alike_copy_data
    | apply alike_bind; [|intros ?]
    | match goal with
      | |- alike (if ?b then _ else _) (if ?b then _ else _) => destruct b
      | |- alike (match ?o with Some _ => _ | None => _ end)
                 (match ?o with Some _ => _ | None => _ end) => destruct o
      | |- alike (match ?o with [] => _ | _ :: _ => _ end)
                 (match ?o with [] => _ | _ :: _ => _ end) => destruct o
      end ].

Lemma alike_extract_entries (E : env) (dest_path : string) (cb cb' : bool)
    (hs : list header) :
  alike (extract_entries E dest_path cb hs) (extract_entries E dest_path cb' hs).
Proof.
  induction hs as [|h hs IH]; simpl; [apply alike_ret|].
  apply alike_bind; [apply alike_set_error|intros _].
  destruct (code (next_header h) =? ARCHIVE_OK); simpl; [|apply alike_ret].
  apply alike_bind.
  - unfold extract_entry, archive_write_header, archive_write_finish_entry.
    alike_steps.
  - intros left.
    destruct left as [[rr | u]|]; [apply alike_ret|exact IH|apply alike_ret].
Qed.

Lemma alike_list_entries (cb cb' : bool) (hs : list header) :
  alike (list_entries cb hs) (list_entries cb' hs).
Proof.
  induction hs as [|h hs IH]; simpl; [apply alike_ret|].
  apply alike_bind; [apply alike_set_error|intros _].
  destruct (code (next_header h) =? ARCHIVE_OK); simpl; [|apply alike_ret].
  apply alike_bind; [alike_steps|intros _].
  apply alike_bind; [apply alike_set_error|intros _].
  exact IH.
Qed.

Lemma alike_rar_extract (E : env) (rar_path dest_path : string)
    (password : option string) (cb cb' : bool) :
  alike (rar_extract E rar_path dest_path password cb)
        (rar_extract E rar_path dest_path password cb').
Proof.
  unfold rar_extract, add_passphrases, archive_read_open_filename.
  apply alike_bind; [apply alike_fopen_rb|intros f].
  destruct f; simpl; [|alike_steps].
  apply alike_bind; [alike_steps|intros created].
  destruct (created =? 0); simpl; [|alike_steps].
  apply alike_bind; [alike_steps|intros a].
  destruct a; simpl; [|alike_steps].
  apply alike_bind; [alike_steps|intros _].
  apply alike_bind; [alike_steps|intros _].
  apply alike_bind; [alike_steps|intros ext].
  destruct ext; simpl; [|alike_steps].
  apply alike_bind; [alike_steps|intros _].
  apply alike_bind; [alike_steps|intros _].
  apply alike_bind; [alike_steps|intros r].
  destruct (r =? ARCHIVE_OK); simpl; [|alike_steps].
  apply alike_bind; [apply alike_extract_entries|intros left].
  destruct left as [[r' result]|]; alike_steps.
Qed.

Lemma alike_rar_list (E : env) (rar_path : string) (password : option string)
    (lcb lcb' cb cb' : bool) :
  alike (rar_list E rar_path password lcb cb) (rar_list E rar_path password lcb' cb').
Proof.
  unfold rar_list, add_passphrases, archive_read_open_filename.
  apply alike_bind; [apply alike_fopen_rb|intros f].
  destruct f; simpl; [|alike_steps].
  apply alike_bind; [alike_steps|intros a].
  destruct a; simpl; [|alike_steps].
  apply alike_bind; [alike_steps|intros _].
  apply alike_bind; [alike_steps|intros _].
  apply alike_bind; [alike_steps|intros r].
  destruct (r =? ARCHIVE_OK); simpl; [|alike_steps].
  apply alike_bind; [apply alike_list_entries|intros r'].
  destruct (r' =? ARCHIVE_EOF); alike_steps.
Qed.

Lemma same_but_callbacks_refl (s : state) : same_but_callbacks s s.
Proof. repeat split. Qed.

(** X24.  The callbacks only observe: whether the listing callback and
    the error callback are supplied or NULL makes no difference to what
    [rar_list] and [rar_extract] return, to the disk, to [errno], to the
    allocations made or to the calls into the system and into libarchive
    and their order. *)
Theorem callbacks_only_observe (E : env) (rar_path dest_path : string)
    (password : option string) (list_cb list_cb' error_cb error_cb' : bool)
    (st : state) :
  (fst (rar_list E rar_path password list_cb error_cb st) =
   fst (rar_list E rar_path password list_cb' error_cb' st) /\
   same_but_callbacks (snd (rar_list E rar_path password list_cb error_cb st))
                      (snd (rar_list E rar_path password list_cb' error_cb' st))) /\
  (fst (rar_extract E rar_path dest_path password error_cb st) =
   fst (rar_extract E rar_path dest_path password error_cb' st) /\
   same_but_callbacks (snd (rar_extract E rar_path dest_path password error_cb st))
                      (snd (rar_extract E rar_path dest_path password error_cb' st))).
Proof.
  split.
  - apply alike_rar_list, same_but_callbacks_refl.
  - apply alike_rar_extract, same_but_callbacks_refl.
Qed.

Lemma map_archive_error_returns_a_mapped_code_witness :
  fst (map_archive_error Reader true
         (State [] [] 0 O (LibError ENOENT (Some "password")) no_error []))
  <> RAR_SUCCESS.
Proof.
  apply (map_archive_error_returns_a_mapped_code Reader true
           (State [] [] 0 O (LibError ENOENT (Some "password")) no_error [])).
Defined.

(** ** The Windows plugin *)

(** X25.  [HandleMethodCall] knows one method: any name other than
    "getPlatformVersion" (the comparison is exact) is answered with
    NotImplemented; "getPlatformVersion" always succeeds with "Windows
    (Desktop FFI) " followed by "10+", "8", "7" or nothing; and when the
    version helpers agree with each other the answer tells which of them
    hold. *)
Theorem HandleMethodCall_answers_one_method (w : windows) (method_name : string) :
  (method_name <> "getPlatformVersion" ->
   HandleMethodCall w method_name = NotImplemented) /\
  (exists suffix,
      HandleMethodCall w "getPlatformVersion" =
      Success ("Windows (Desktop FFI) " +++ suffix) /\
      In suffix ["10+"; "8"; "7"; ""]) /\
  (forall w', coherent w -> coherent w' ->
              HandleMethodCall w "getPlatformVersion" =
              HandleMethodCall w' "getPlatformVersion" ->
              w = w').
Proof.
  split; [|split].
  - intros Hname. unfold HandleMethodCall.
    apply String.eqb_neq in Hname. now rewrite Hname.
  - unfold HandleMethodCall. simpl.
    destruct (IsWindows10OrGreater w); [eexists; split; [reflexivity|simpl; tauto]|].
    destruct (IsWindows8OrGreater w); [eexists; split; [reflexivity|simpl; tauto]|].
    destruct (IsWindows7OrGreater w); eexists; (split; [reflexivity|simpl; tauto]).
  - intros w' [H1 H2] [H1' H2'].
    destruct w as [a b c], w' as [a' b' c']. unfold HandleMethodCall. simpl in *.
    destruct a, b, c, a', b', c'; simpl; intros Heq;
      try reflexivity; try discriminate Heq;
      try (specialize (H1 eq_refl); discriminate H1);
      try (specialize (H2 eq_refl); discriminate H2);
      try (specialize (H1' eq_refl); discriminate H1');
      try (specialize (H2' eq_refl); discriminate H2').
Qed.

Lemma HandleMethodCall_answers_one_method_witness :
  HandleMethodCall (Windows true true true) "getplatformversion" = NotImplemented /\
  (HandleMethodCall (Windows false true true) "getPlatformVersion" =
   HandleMethodCall (Windows false true true) "getPlatformVersion" ->
   Windows false true true = Windows false true true).
Proof.
  split.
  - apply (HandleMethodCall_answers_one_method (Windows true true true)
             "getplatformversion"). discriminate.
  - apply (HandleMethodCall_answers_one_method (Windows false true true)
             "getPlatformVersion"); split; intros H; (discriminate H || reflexivity).
Defined.
